(** * A model of src/promise.js (a Promises/A+ implementation)

    The library is embedded as a state-passing interpreter.  The JavaScript
    heap of [Promise] instances, the closure cells holding the [called] flags
    of [resolvePromise], and the timer queue behind [nextTick] are explicit
    components of a [world]; every function of the source becomes a function
    on worlds.

    What lies outside the file is modelled as follows.  A function written by
    the user is named by a number and described by a table [user_fn] giving
    what it returns or raises on each argument; it does not touch the
    library's state otherwise, and every call of one is recorded in the
    [trace].  [setTimeout(fn, 0)] appends to a queue of timers which
    the event loop serves first in, first out, one timer per turn ([tick]).
    A foreign thenable is a finite script of the calls its [then] makes on
    the two callbacks it receives, each either during the call or from a
    timer of its own. *)

From stdpp Require Import base numbers list strings.

(** ** Data *)

Abbreviation ref := nat.    (* address of a Promise instance             *)
Abbreviation cell := nat.   (* address of a [called] flag (promise.js:36) *)
Abbreviation fn_id := nat.  (* name of a function written by the user     *)

(** promise.js:7-11 *)
Inductive pstate := PENDING | RESOLVED | REJECTED.

(** The function objects that the library ever calls. *)
Inductive fn :=
| FUser (f : fn_id)                              (* supplied by the caller      *)
| FIdentity                                      (* promise.js:136  (v) => v    *)
| FRethrow                                       (* promise.js:139  (e) => { throw e } *)
| FAdoptFulfill (called : cell) (promise2 : ref) (* promise.js:46-51            *)
| FAdoptReject (called : cell) (promise2 : ref). (* promise.js:52-57            *)

(** A foreign [then] may call back during the call or in a later turn,
    on either of its two arguments. *)
Inductive turn := Sync | Async.
Inductive side := Fulfil | Reject.

Scheme All for prod.
Scheme All for option.
Scheme All for list.

(** JavaScript values, as far as the library can tell them apart.  A foreign
    object is described by what reading and calling its [then] member does:
    [VThrowingThen e] has a getter that raises [e]; [VThenable body raise]
    has a callable [then] that performs the calls of [body] in order on the
    two callbacks it is handed and finally, when [raise] is [Some e],
    raises [e]. *)
Inductive jsval :=
| VUndefined
| VNull
| VBool (b : bool)
| VNum (n : Z)
| VStr (s : string)
| VError (name message : string)
| VPlain (tag : nat)
| VFunction (f : fn)
| VPromise (p : ref)
| VThrowingThen (e : jsval)
| VThenable (body : list (turn * side * jsval)) (raise : option jsval).

Inductive jstype :=
| TyUndefined | TyObject | TyBoolean | TyNumber | TyString | TyFunction.

Definition typeof (v : jsval) : jstype :=
  match v with
  | VUndefined => TyUndefined
  | VBool _ => TyBoolean
  | VNum _ => TyNumber
  | VStr _ => TyString
  | VFunction _ => TyFunction
  | VNull | VError _ _ | VPlain _ | VPromise _
  | VThrowingThen _ | VThenable _ _ => TyObject
  end.

(** promise.js:16-18 *)
Definition isFunction (v : jsval) : bool :=
  match typeof v with TyFunction => true | _ => false end.

(** promise.js:19-21 *)
Definition isObject (v : jsval) : bool :=
  match typeof v with
  | TyObject => match v with VNull => false | _ => true end
  | _ => false
  end.

Inductive outcome := Return (v : jsval) | Throw (e : jsval).

(** The closures of promise.js:151-161, 165-173, 179-187 and 189-196 share
    one body; they differ in the handler and in the field of [this] read. *)
Record reaction := Reaction {
  r_side : side;
  r_this : ref;
  r_promise2 : ref;
  r_handler : fn
}.

(** promise.js:83-88 *)
Record promise := Promise {
  state : pstate;
  value : jsval;
  reason : jsval;
  resolvedCallbacks : list reaction;
  rejectedCallbacks : list reaction
}.

(** What [nextTick] can be handed. *)
Inductive task :=
| TResolve (p : ref) (v : jsval)          (* promise.js:96-104   *)
| TReject (p : ref) (r : jsval)           (* promise.js:109-117  *)
| TReaction (r : reaction)                (* promise.js:151, 165 *)
| TForeign (f : fn) (v : jsval).          (* a foreign then calling back later *)

Inductive event := EvCall (f : fn_id) (arg : jsval).

Record world := World {
  heap : list promise;
  cells : list bool;
  timers : list task;
  trace : list event
}.

Definition empty_world : world := World [] [] [] [].

Definition set_heap (h : list promise) (w : world) : world :=
  World h (cells w) (timers w) (trace w).
Definition set_cells (c : list bool) (w : world) : world :=
  World (heap w) c (timers w) (trace w).
Definition set_timers (t : list task) (w : world) : world :=
  World (heap w) (cells w) t (trace w).
Definition set_trace (l : list event) (w : world) : world :=
  World (heap w) (cells w) (timers w) l.

(** promise.js:32 *)
Definition cycle_error : jsval := VError "TypeError" "Error 循环引用".

(** ** Functions of a caller, used in the closed examples *)

Definition thenable42 : jsval := VThenable [(Sync, Fulfil, VNum 42)] None.

Definition demo_fn (f : fn_id) (arg : jsval) : outcome :=
  match f with
  | 0 => Return arg                                   (* v => v            *)
  | 1 => Throw (VError "Error" "x")                   (* () => { throw new Error("x") } *)
  | 2 => match arg with                               (* e => e.message    *)
         | VError _ message => Return (VStr message)
         | _ => Return VUndefined
         end
  | 3 => Return thenable42                            (* () => ({then(res, rej) { res(42) }}) *)
  | 5 => Return (VPromise 1)                          (* () => promise2, the promise at address 1 *)
  | _ => Return VUndefined
  end.

(** ** The library *)

Section Library.

(** What each function of the caller returns or raises on an argument. *)
Variable user_fn : fn_id -> jsval -> outcome.

(** promise.js:25-27; timers of equal delay fire in the order they were set. *)
Definition nextTick (t : task) (w : world) : world :=
  set_timers (timers w ++ [t]) w.

(** promise.js:95-105 and 108-118: the two capabilities of promise [p].
    Their closures are the tasks [TResolve] and [TReject]. *)
Definition resolve (p : ref) (v : jsval) (w : world) : world :=
  nextTick (TResolve p v) w.

Definition reject (p : ref) (r : jsval) (w : world) : world :=
  nextTick (TReject p r) w.

(** [let called = false], promise.js:36 *)
Definition new_cell (w : world) : cell * world :=
  (length (cells w), set_cells (cells w ++ [false]) w).

Definition called (c : cell) (w : world) : bool :=
  default false (cells w !! c).

(** [called = true] *)
Definition mark (c : cell) (w : world) : world :=
  set_cells (<[c:=true]> (cells w)) w.

Definition state_is (p : ref) (s : pstate) (w : world) : bool :=
  match heap w !! p with
  | Some pr => match state pr, s with
               | PENDING, PENDING | RESOLVED, RESOLVED
               | REJECTED, REJECTED => true
               | _, _ => false
               end
  | None => false
  end.

Definition fresh_promise : promise := Promise PENDING VUndefined VUndefined [] [].

(** promise.js:83-88 *)
Definition alloc (w : world) : ref * world :=
  (length (heap w), set_heap (heap w ++ [fresh_promise]) w).

Definition push_resolved (p : ref) (r : reaction) (w : world) : world :=
  match heap w !! p with
  | Some pr =>
      set_heap (<[p:=Promise (state pr) (value pr) (reason pr)
                       (resolvedCallbacks pr ++ [r]) (rejectedCallbacks pr)]>
                  (heap w)) w
  | None => w
  end.

Definition push_rejected (p : ref) (r : reaction) (w : world) : world :=
  match heap w !! p with
  | Some pr =>
      set_heap (<[p:=Promise (state pr) (value pr) (reason pr)
                       (resolvedCallbacks pr) (rejectedCallbacks pr ++ [r])]>
                  (heap w)) w
  | None => w
  end.

Definition as_handler (v : jsval) (dflt : fn) : fn :=
  if isFunction v then match v with VFunction f => f | _ => dflt end else dflt.

(** promise.js:135-201.  The executor handed to [new Promise] neither calls a
    capability synchronously nor raises, so construction is [alloc]. *)
Definition then_ (this : ref) (onFulfilled onRejected : jsval) (w : world)
  : ref * world :=
  let onFulfilled := as_handler onFulfilled FIdentity in
  let onRejected := as_handler onRejected FRethrow in
  let '(promise2, w) := alloc w in
  let w := if state_is this RESOLVED w
           then nextTick (TReaction (Reaction Fulfil this promise2 onFulfilled)) w
           else w in
  let w := if state_is this REJECTED w
           then nextTick (TReaction (Reaction Reject this promise2 onRejected)) w
           else w in
  let w := if state_is this PENDING w
           then push_rejected this (Reaction Reject this promise2 onRejected)
                  (push_resolved this (Reaction Fulfil this promise2 onFulfilled) w)
           else w in
  (promise2, w).

(** The [catch] clause of promise.js:62-66. *)
Definition catch_ (c : cell) (promise2 : ref) (error : jsval) (w : world) : world :=
  if called c w then w else reject promise2 error (mark c w).

(** [promise2 === x], promise.js:31: identity of object references. *)
Definition same_promise (promise2 : ref) (x : jsval) : bool :=
  match x with VPromise p => Nat.eqb promise2 p | _ => false end.

(** promise.js:29-71.  Both call sites pass the capabilities of [promise2]
    as [resolve] and [reject].  The inner [call_then] is [then.call(x, ...)]
    on a foreign thenable: it runs the calls the thenable makes on the two
    arrow functions of lines 46-57, whose bodies are inlined here. *)
Fixpoint resolvePromise (promise2 : ref) (x : jsval) (w : world) {struct x} : world :=
  if same_promise promise2 x then reject promise2 cycle_error w
  else
    let '(c, w) := new_cell w in
    if isObject x || isFunction x then
      match x with
      | VThrowingThen e => catch_ c promise2 e w
      | VPromise p =>
          (then_ p (VFunction (FAdoptFulfill c promise2))
                   (VFunction (FAdoptReject c promise2)) w).2
      | VThenable body raise =>
          let w :=
            (fix call_then (body : list (turn * side * jsval)) (w : world) : world :=
               match body with
               | [] => w
               | (Async, Fulfil, v) :: rest =>
                   call_then rest (nextTick (TForeign (FAdoptFulfill c promise2) v) w)
               | (Async, Reject, v) :: rest =>
                   call_then rest (nextTick (TForeign (FAdoptReject c promise2) v) w)
               | (Sync, Fulfil, y) :: rest =>
                   call_then rest
                     (if called c w then w
                      else resolvePromise promise2 y (mark c w))
               | (Sync, Reject, r) :: rest =>
                   call_then rest
                     (if called c w then w else reject promise2 r (mark c w))
               end) body w in
          match raise with
          | Some e => catch_ c promise2 e w
          | None => w
          end
      | _ => resolve promise2 x w
      end
    else resolve promise2 x w.

(** Calling a function object with one argument. *)
Definition call_fn (f : fn) (arg : jsval) (w : world) : outcome * world :=
  match f with
  | FUser id => (user_fn id arg, set_trace (trace w ++ [EvCall id arg]) w)
  | FIdentity => (Return arg, w)
  | FRethrow => (Throw arg, w)
  | FAdoptFulfill c promise2 =>
      (Return VUndefined,
       if called c w then w else resolvePromise promise2 arg (mark c w))
  | FAdoptReject c promise2 =>
      (Return VUndefined,
       if called c w then w else reject promise2 arg (mark c w))
  end.

(** The [try]/[catch] body shared by promise.js:153-160, 166-172, 180-186
    and 190-195. *)
Definition run_reaction (r : reaction) (w : world) : world :=
  match heap w !! r_this r with
  | Some this =>
      let arg := match r_side r with
                 | Fulfil => value this
                 | Reject => reason this
                 end in
      match call_fn (r_handler r) arg w with
      | (Return x, w) => resolvePromise (r_promise2 r) x w
      | (Throw error, w) => reject (r_promise2 r) error w
      end
  | None => w
  end.

(** [callbacks.forEach((fn) => fn())] *)
Definition forEach (callbacks : list reaction) (w : world) : world :=
  foldl (fun w r => run_reaction r w) w callbacks.

(** promise.js:96-104 *)
Definition settle_resolved (p : ref) (v : jsval) (w : world) : world :=
  match heap w !! p with
  | Some this =>
      match state this with
      | PENDING =>
          let w := set_heap (<[p:=Promise RESOLVED v (reason this)
                                    (resolvedCallbacks this)
                                    (rejectedCallbacks this)]> (heap w)) w in
          forEach (resolvedCallbacks this) w
      | _ => w
      end
  | None => w
  end.

(** promise.js:109-117 *)
Definition settle_rejected (p : ref) (r : jsval) (w : world) : world :=
  match heap w !! p with
  | Some this =>
      match state this with
      | PENDING =>
          let w := set_heap (<[p:=Promise REJECTED (value this) r
                                    (resolvedCallbacks this)
                                    (rejectedCallbacks this)]> (heap w)) w in
          forEach (rejectedCallbacks this) w
      | _ => w
      end
  | None => w
  end.

Definition run_task (t : task) (w : world) : world :=
  match t with
  | TResolve p v => settle_resolved p v w
  | TReject p r => settle_rejected p r w
  | TReaction r => run_reaction r w
  | TForeign f v => (call_fn f v w).2
  end.

(** One turn of the event loop: the oldest timer fires. *)
Definition tick (w : world) : world :=
  match timers w with
  | [] => w
  | t :: rest => run_task t (set_timers rest w)
  end.

Fixpoint ticks (n : nat) (w : world) : world :=
  match n with
  | O => w
  | S n => ticks n (tick w)
  end.

(** An executor written by the user: the capability calls it makes while it
    runs, and the error it raises at the end, if any. *)
Record executor := Executor {
  ex_calls : list (side * jsval);
  ex_raise : option jsval
}.

Definition capability (s : side) (p : ref) : jsval -> world -> world :=
  match s with Fulfil => resolve p | Reject => reject p end.

(** promise.js:82-129 *)
Definition construct (executor : executor) (w : world) : ref * world :=
  let '(this, w) := alloc w in
  let w := foldl (fun w c => capability c.1 this c.2 w) w (ex_calls executor) in
  match ex_raise executor with
  | Some error => (this, reject this error w)
  | None => (this, w)
  end.

(** promise.js:204-211 *)
Record dfd := Dfd {
  d_promise : ref;
  d_resolve : jsval -> world -> world;
  d_reject : jsval -> world -> world
}.

Definition deferred (w : world) : dfd * world :=
  let '(p, w) := construct (Executor [] None) w in
  (Dfd p (resolve p) (reject p), w).

(** [then.call(x, res, rej)] on a foreign thenable, from the caller's side. *)
Fixpoint call_then (res rej : fn) (body : list (turn * side * jsval)) (w : world)
  : world :=
  match body with
  | [] => w
  | (Async, Fulfil, v) :: rest => call_then res rej rest (nextTick (TForeign res v) w)
  | (Async, Reject, v) :: rest => call_then res rej rest (nextTick (TForeign rej v) w)
  | (Sync, Fulfil, v) :: rest => call_then res rej rest (call_fn res v w).2
  | (Sync, Reject, v) :: rest => call_then res rej rest (call_fn rej v w).2
  end.

(** What is left of [call_then] when the synchronous calls do nothing: the
    timers of the calls the thenable makes later. *)
Fixpoint later_calls (res rej : fn) (body : list (turn * side * jsval)) (w : world)
  : world :=
  match body with
  | [] => w
  | (Async, Fulfil, v) :: rest => later_calls res rej rest (nextTick (TForeign res v) w)
  | (Async, Reject, v) :: rest => later_calls res rej rest (nextTick (TForeign rej v) w)
  | (Sync, _, _) :: rest => later_calls res rej rest w
  end.

(** The thenable calls neither callback before its [then] returns. *)
Definition no_sync (body : list (turn * side * jsval)) : Prop :=
  Forall (fun call => call.1.1 = Async) body.

(** The arrow function of promise.js:46-57 for one side. *)
Definition adopt (s : side) (c : cell) (promise2 : ref) : fn :=
  match s with
  | Fulfil => FAdoptFulfill c promise2
  | Reject => FAdoptReject c promise2
  end.

(** [p.then(f1, g1); ...; p.then(fn, gn)] for functions of the caller. *)
Definition register (p : ref) (hs : list (fn_id * fn_id)) (w : world) : world :=
  foldl (fun w h => (then_ p (VFunction (FUser h.1)) (VFunction (FUser h.2)) w).2)
        w hs.

(** The payload a reaction hands to its handler. *)
Definition payload (s : side) (this : promise) : jsval :=
  match s with Fulfil => value this | Reject => reason this end.

(** ** Framing: what the operations leave alone *)

(** The outcome of a promise: the fields that settling writes. *)
Definition same_outcome (a b : promise) : Prop :=
  state b = state a /\ value b = value a /\ reason b = reason a.

(** A promise at two times between which it was not settled: same outcome,
    callbacks only added at the end of the queues. *)
Definition later_promise (a b : promise) : Prop :=
  same_outcome a b /\
  resolvedCallbacks a `prefix_of` resolvedCallbacks b /\
  rejectedCallbacks a `prefix_of` rejectedCallbacks b.

(** [grows w w']: from [w] to [w'] no promise changed its outcome, a settled
    promise did not change at all, every promise created is pending, no
    [called] flag was cleared, and timers and trace were only appended to. *)
Record grows (w w' : world) : Prop := Grows {
  grows_heap : forall p pr, heap w !! p = Some pr ->
    exists pr', heap w' !! p = Some pr' /\ later_promise pr pr' /\
                (state pr <> PENDING -> pr' = pr);
  grows_new : forall p pr', heap w' !! p = Some pr' -> heap w !! p = None ->
    same_outcome fresh_promise pr';
  grows_cells : forall c, called c w = true -> called c w' = true;
  grows_timers : timers w `prefix_of` timers w';
  grows_trace : trace w `prefix_of` trace w'
}.

(** [quiet w w']: moreover no user function ran. *)
Definition quiet (w w' : world) : Prop := grows w w' /\ trace w' = trace w.


(** ** The invariant of the data model *)

(** A pending promise holds neither a value nor a reason; a settled one
    holds at most the one that belongs to its state. *)
Definition tidy_promise (pr : promise) : Prop :=
  match state pr with
  | PENDING => value pr = VUndefined /\ reason pr = VUndefined
  | RESOLVED => reason pr = VUndefined
  | REJECTED => value pr = VUndefined
  end.

Definition tidy (w : world) : Prop :=
  forall p pr, heap w !! p = Some pr -> tidy_promise pr.

(** A value a caller can hand to [then]: anything but the arrow functions
    that [resolvePromise] creates for a thenable. *)
Definition caller_value (v : jsval) : bool :=
  match v with
  | VFunction (FAdoptFulfill _ _) | VFunction (FAdoptReject _ _) => false
  | _ => true
  end.

(** The worlds a program can bring about: it constructs promises, chains
    on promises that exist, calls their capabilities, and lets the event
    loop turn. *)
Inductive reachable : world -> Prop :=
| reach_empty : reachable empty_world
| reach_construct ex w : reachable w -> reachable (construct ex w).2
| reach_then p f r w :
    reachable w -> p < length (heap w) ->
    caller_value f = true -> caller_value r = true ->
    reachable (then_ p f r w).2
| reach_resolve p v w :
    reachable w -> p < length (heap w) -> reachable (resolve p v w)
| reach_reject p r w :
    reachable w -> p < length (heap w) -> reachable (reject p r w)
| reach_tick w : reachable w -> reachable (tick w).

(** [stable w w']: every promise settled in [w] is the same object in [w']. *)
Definition stable (w w' : world) : Prop :=
  forall p pr, heap w !! p = Some pr -> state pr <> PENDING -> heap w' !! p = Some pr.

(** ** Observing outcomes and the timer queue *)

Definition fulfilled_with (p : ref) (v : jsval) (w : world) : Prop :=
  exists pr, heap w !! p = Some pr /\ state pr = RESOLVED /\ value pr = v.

Definition rejected_with (p : ref) (r : jsval) (w : world) : Prop :=
  exists pr, heap w !! p = Some pr /\ state pr = REJECTED /\ reason pr = r.

(** The promise a timer settles when it fires, if it is a capability's. *)
Definition settles (t : task) : option ref :=
  match t with
  | TResolve p _ | TReject p _ => Some p
  | TReaction _ | TForeign _ _ => None
  end.

(** None of the timers [ts] settles [q]. *)
Definition undisturbed (q : ref) (ts : list task) : Prop :=
  Forall (fun t => settles t <> Some q) ts.

(** [q] was not settled between [w] and [w']. *)
Definition keeps (q : ref) (w w' : world) : Prop :=
  forall pr, heap w !! q = Some pr ->
    exists pr', heap w' !! q = Some pr' /\ later_promise pr pr'.

(** ** Who can settle a promise *)

(** A capability of [q] is reachable only through the closures that captured
    it: the two arrow functions of [resolvePromise], the reactions of the
    [then] call that created [q], and the timers set by the capabilities. *)
Definition fn_aims (q : ref) (f : fn) : bool :=
  match f with
  | FAdoptFulfill _ p | FAdoptReject _ p => Nat.eqb p q
  | FUser _ | FIdentity | FRethrow => false
  end.

Definition reaction_aims (q : ref) (r : reaction) : bool :=
  Nat.eqb (r_promise2 r) q || fn_aims q (r_handler r).

Definition task_aims (q : ref) (t : task) : bool :=
  match t with
  | TResolve p _ | TReject p _ => Nat.eqb p q
  | TReaction r => reaction_aims q r
  | TForeign f _ => fn_aims q f
  end.

Definition timers_spare (q : ref) (ts : list task) : Prop :=
  Forall (fun t => task_aims q t = false) ts.

(** [q] exists, and a queued reaction that can settle [q] is one that [ok]
    allows in that queue. *)
Definition heap_aims_only (q : ref) (ok : ref -> side -> reaction -> Prop)
    (w : world) : Prop :=
  q < length (heap w) /\
  forall p pr, heap w !! p = Some pr ->
    Forall (fun r => reaction_aims q r = true -> ok p Fulfil r)
      (resolvedCallbacks pr) /\
    Forall (fun r => reaction_aims q r = true -> ok p Reject r)
      (rejectedCallbacks pr).

(** From [w] to [w'] nothing new can settle [q]. *)
Definition spares (q : ref) (ok : ref -> side -> reaction -> Prop)
    (w w' : world) : Prop :=
  heap_aims_only q ok w ->
  heap_aims_only q ok w' /\
  exists more, timers w' = timers w ++ more /\ timers_spare q more.

(** Nothing in [w] can settle [q]. *)
Definition unaimed (q : ref) (w : world) : Prop :=
  timers_spare q (timers w) /\
  forall p pr, heap w !! p = Some pr ->
    Forall (fun r => reaction_aims q r = false) (resolvedCallbacks pr) /\
    Forall (fun r => reaction_aims q r = false) (rejectedCallbacks pr).

(** From [w] to [w'] nothing was created that can settle [q], an address
    beyond the heap of [w']. *)
Definition spared (q : ref) (w w' : world) : Prop :=
  unaimed q w -> length (heap w') <= q -> unaimed q w'.

(** Every promise that a timer or a queued reaction of [w] can settle has
    been allocated. *)
Definition closed (w : world) : Prop :=
  forall q, length (heap w) <= q -> unaimed q w.

Definition never : ref -> side -> reaction -> Prop := fun _ _ _ => False.

Definition pick {A} (s : side) (hF hR : A) : A :=
  match s with Fulfil => hF | Reject => hR end.

(** The handler that [then(onFulfilled, onRejected)] runs on side [s]. *)
Definition invoked (s : side) (onFulfilled onRejected : jsval) : fn :=
  pick s (as_handler onFulfilled FIdentity) (as_handler onRejected FRethrow).

(** The reactions of the call [p.then(hF, hR)] that returned [q]. *)
Definition link_ok (p q : ref) (hF hR : fn) : ref -> side -> reaction -> Prop :=
  fun p' s r => p' = p /\ r = Reaction s p q (pick s hF hR).

(** [q] was returned by [p.then(hF, hR)], called while [p] was pending; [p]
    is still pending, and only the two reactions of that call, which wait in
    the queues of [p], can settle [q]. *)
Record linked (p q : ref) (hF hR : fn) (w : world) : Prop := Linked {
  linked_ne : p <> q;
  linked_heap : heap_aims_only q (link_ok p q hF hR) w;
  linked_timers : timers_spare q (timers w);
  linked_queued : exists pr,
    heap w !! p = Some pr /\ state pr = PENDING /\
    Reaction Fulfil p q hF ∈ resolvedCallbacks pr /\
    Reaction Reject p q hR ∈ rejectedCallbacks pr;
  linked_pending : state_is q PENDING w = true
}.

(** The timer a capability sets. *)
Definition settle_task (s : side) (p : ref) (a : jsval) : task :=
  match s with Fulfil => TResolve p a | Reject => TReject p a end.

Definition settled_with (s : side) (p : ref) (a : jsval) (w : world) : Prop :=
  match s with Fulfil => fulfilled_with p a w | Reject => rejected_with p a w end.

(** The oldest timer is a capability's, and its promise is pending: the
    next turn settles it. *)
Definition fires (s : side) (p : ref) (a : jsval) (w : world) : Prop :=
  (exists rest, timers w = settle_task s p a :: rest) /\
  state_is p PENDING w = true.

(** What calling a handler of [then] yields; the two arrow functions of
    [resolvePromise] are not handlers a caller can pass. *)
Definition handler_outcome (h : fn) (a : jsval) : option outcome :=
  match h with
  | FUser f => Some (user_fn f a)
  | FIdentity => Some (Return a)
  | FRethrow => Some (Throw a)
  | FAdoptFulfill _ _ | FAdoptReject _ _ => None
  end.

(** A value whose [then] is not callable, or that is no object at all. *)
Definition plain (x : jsval) : bool :=
  match x with
  | VPromise _ | VThrowingThen _ | VThenable _ _ => false
  | _ => true
  end.

(** [settles_sync q x s a]: before it returns, [resolvePromise(q, x, ...)]
    calls the capability of side [s] of [q] with [a], and no capability of
    [q] before that. *)
Inductive settles_sync (q : ref) : jsval -> side -> jsval -> Prop :=
| sync_self : settles_sync q (VPromise q) Reject cycle_error
| sync_plain x : plain x = true -> settles_sync q x Fulfil x
| sync_getter e : settles_sync q (VThrowingThen e) Reject e
| sync_raise body e :
    no_sync body -> settles_sync q (VThenable body (Some e)) Reject e
| sync_fulfil y rest raise s a :
    settles_sync q y s a ->
    settles_sync q (VThenable ((Sync, Fulfil, y) :: rest) raise) s a
| sync_reject r rest raise :
    settles_sync q (VThenable ((Sync, Reject, r) :: rest) raise) Reject r.

Definition outcome_settles (q : ref) (o : outcome) (s : side) (a : jsval) : Prop :=
  match o with
  | Return x => settles_sync q x s a
  | Throw e => s = Reject /\ a = e
  end.

(** ** Worlds used in the closed examples *)

(** After [new Promise(res => res(1))] and one turn. *)
Definition world_settled : world :=
  World [Promise RESOLVED (VNum 1) VUndefined [] []] [] [] [].

(** After [Promise.deferred()]. *)
Definition world_deferred : world := (deferred empty_world).2.


(** After [d = Promise.deferred(); d.resolve(d.promise)]. *)
Definition world_self : world :=
  d_resolve (deferred empty_world).1 (VPromise (d_promise (deferred empty_world).1))
    (deferred empty_world).2.

(** A thenable that calls back three times, one of them later, and raises. *)
Definition bad_thenable : jsval :=
  VThenable [(Sync, Fulfil, VNum 1); (Sync, Reject, VStr "no");
             (Async, Fulfil, VNum 2)] (Some (VStr "late")).

(** ** Exact runs *)

(** What a call of the handler [h] with [a] adds to the trace. *)
Definition logged (h : fn) (a : jsval) : list event :=
  match h with FUser f => [EvCall f a] | _ => [] end.

(** The outcome of a handler settles [promise2] without another party: an
    error raised rejects with it, a value returned that has no callable
    [then] fulfils with it. *)
Definition direct (o : outcome) (s : side) (a : jsval) : Prop :=
  match o with
  | Return x => plain x = true /\ s = Fulfil /\ a = x
  | Throw e => s = Reject /\ a = e
  end.

(** A promise without reactions that was settled on side [s] with [a]. *)
Definition settled_record (s : side) (a : jsval) : promise :=
  match s with
  | Fulfil => Promise RESOLVED a VUndefined [] []
  | Reject => Promise REJECTED VUndefined a [] []
  end.

(** ** Invariants of the heap *)

(** The two queues of promise [p] hold, position by position, the two
    reactions of one call of [p.then]: they belong to [p], one is for
    fulfilment and one for rejection, and both settle the same [promise2]. *)
Definition paired_promise (p : ref) (pr : promise) : Prop :=
  Forall2 (fun rF rR => r_side rF = Fulfil /\ r_side rR = Reject /\
                        r_this rF = p /\ r_this rR = p /\
                        r_promise2 rF = r_promise2 rR)
    (resolvedCallbacks pr) (rejectedCallbacks pr).

Definition paired (h : list promise) : Prop :=
  forall p pr, h !! p = Some pr -> paired_promise p pr.

(** What [then] writes when it queues its two reactions on a pending
    [this]. *)
Definition queued (this promise2 : ref) (hF hR : fn) (pr : promise) : promise :=
  Promise (state pr) (value pr) (reason pr)
    (resolvedCallbacks pr ++ [Reaction Fulfil this promise2 hF])
    (rejectedCallbacks pr ++ [Reaction Reject this promise2 hR]).

(** [w'] has everything [w] has: each promise, with its queues possibly
    longer and, if it was settled, unchanged; the trace, possibly longer;
    the [called] flags that were set. *)
Definition retains (w w' : world) : Prop :=
  (forall p pr, heap w !! p = Some pr ->
     exists pr', heap w' !! p = Some pr' /\
       resolvedCallbacks pr `prefix_of` resolvedCallbacks pr' /\
       rejectedCallbacks pr `prefix_of` rejectedCallbacks pr' /\
       (state pr <> PENDING -> pr' = pr)) /\
  trace w `prefix_of` trace w' /\
  (forall c, called c w = true -> called c w' = true).

(** ** Adopting a promise that was fulfilled with itself *)

(** A timer that fulfils, with [undefined], a promise created after [q]. *)
Definition late_resolve (q : ref) (t : task) : Prop :=
  exists i, t = TResolve i VUndefined /\ q < i.

(** [spinning hp r q w]: the heap begins with [hp], in which [r] is fulfilled
    with itself, followed by the pending promise [q]; the promises after [q]
    have no reactions; and among timers that only settle such promises there
    waits one reaction on [r] whose handler is the first arrow function of
    [resolvePromise] for [q], with its flag not yet set. *)
Definition spinning (hp : list promise) (r q : ref) (w : world) : Prop :=
  exists rest before after j c prr,
    heap w = hp ++ fresh_promise :: rest /\
    q = length hp /\
    Forall (fun pr => resolvedCallbacks pr = [] /\ rejectedCallbacks pr = []) rest /\
    timers w = before
               ++ TReaction (Reaction Fulfil r j (FAdoptFulfill c q)) :: after /\
    Forall (late_resolve q) before /\ Forall (late_resolve q) after /\
    q < j /\ cells w !! c = Some false /\
    hp !! r = Some prr /\ state prr = RESOLVED /\ value prr = VPromise r.

(** ** Chains of any length *)

(** [p.then().then()...then()], with [n] calls of [then] and no handlers. *)
Fixpoint pass_through (p : ref) (n : nat) (w : world) : world :=
  match n with
  | O => w
  | S n => pass_through (then_ p VUndefined VUndefined w).1 n
             (then_ p VUndefined VUndefined w).2
  end.

(** ** The [called] flags that closures hold *)






(** ** Adoption *)



















(** A thenable that later hands on the promise at address 1:
    [{then(res) { setTimeout(() => res(r), 0) }}]. *)
Definition relay : jsval := VThenable [(Async, Fulfil, VPromise 1)] None.

(** After [new Promise(res => res(relay))], one turn,
    [d = Promise.deferred()] and [d.resolve(7)]. *)
Definition world_relay : world :=
  World [Promise RESOLVED relay VUndefined [] []; fresh_promise] []
    [TResolve 1 (VNum 7)] [].

(** ** Basic facts about the store *)

Lemma isFunction_spec v : isFunction v = true <-> exists f, v = VFunction f.
Proof.
  split; [|by intros [f ->]].
  destruct v; try discriminate. eauto.
Qed.


Lemma as_handler_default v dflt : isFunction v = false -> as_handler v dflt = dflt.
Proof. unfold as_handler. by intros ->. Qed.

Lemma state_is_spec p s w :
  state_is p s w = true <-> exists pr, heap w !! p = Some pr /\ state pr = s.
Proof.
  unfold state_is. destruct (heap w !! p) as [pr|].
  - split.
    + intros H. exists pr. split; [done|]. by destruct (state pr), s.
    + intros (pr' & [= <-] & <-). by destruct (state pr).
  - split; [done|]. by intros (pr' & [=] & _).
Qed.

Lemma called_mark c w : c < length (cells w) -> called c (mark c w) = true.
Proof. intros H. unfold called, mark. simpl. by rewrite list_lookup_insert_eq. Qed.

Lemma called_mark_other c c' w : called c w = true -> called c (mark c' w) = true.
Proof.
  unfold called, mark. simpl. intros H.
  destruct (cells w !! c) as [b|] eqn:E; [simpl in H; subst b|done].
  destruct (decide (c' = c)) as [->|Hne].
  - rewrite list_lookup_insert_eq; [done|]. by eapply lookup_lt_Some.
  - rewrite list_lookup_insert_ne; [|done]. by rewrite E.
Qed.

Lemma called_new_cell c w : called c w = true -> called c (new_cell w).2 = true.
Proof.
  unfold called, new_cell. simpl. intros H.
  destruct (cells w !! c) as [b|] eqn:E; [simpl in H; subst b|done].
  by rewrite (lookup_app_l_Some _ _ _ _ E).
Qed.

Lemma called_fresh w : called (new_cell w).1 (new_cell w).2 = false.
Proof. unfold called, new_cell. simpl. by rewrite list_lookup_middle. Qed.


(** ** The framing relation is a preorder and holds of every operation
       that does not settle *)

Lemma same_outcome_refl pr : same_outcome pr pr.
Proof. by repeat split. Qed.

Lemma same_outcome_trans a b c : same_outcome a b -> same_outcome b c -> same_outcome a c.
Proof. unfold same_outcome. intuition congruence. Qed.

Lemma later_promise_refl pr : later_promise pr pr.
Proof. by repeat split. Qed.

Lemma later_promise_trans a b c : later_promise a b -> later_promise b c -> later_promise a c.
Proof.
  intros (S1 & F1 & R1) (S2 & F2 & R2).
  split; [by eapply same_outcome_trans|]. split; by etrans.
Qed.

Lemma grows_same_heap w w' :
  heap w' = heap w ->
  (forall c, called c w = true -> called c w' = true) ->
  timers w `prefix_of` timers w' ->
  trace w `prefix_of` trace w' ->
  grows w w'.
Proof.
  intros Hh Hc Ht Hl. split; [| |done..].
  - intros p pr H. exists pr. rewrite Hh.
    split; [done|]. split; [apply later_promise_refl|done].
  - intros p pr' H1 H2. congruence.
Qed.

Lemma grows_refl w : grows w w.
Proof. by apply grows_same_heap. Qed.

Lemma grows_trans w1 w2 w3 : grows w1 w2 -> grows w2 w3 -> grows w1 w3.
Proof.
  intros [h1 n1 c1 t1 l1] [h2 n2 c2 t2 l2]. split.
  - intros p pr H. destruct (h1 _ _ H) as (pr1 & H1 & S1 & E1).
    destruct (h2 _ _ H1) as (pr2 & H2 & S2 & E2).
    exists pr2. split; [done|]. split; [by eapply later_promise_trans|].
    intros Hs. specialize (E1 Hs). subst pr1. by apply E2.
  - intros p pr3 H3 H1. destruct (heap w2 !! p) as [pr2|] eqn:H2.
    + destruct (h2 _ _ H2) as (pr3' & H3' & [S _] & _).
      assert (pr3' = pr3) as -> by congruence.
      eapply same_outcome_trans; [|exact S]. by eapply n1.
    + by eapply n2.
  - auto.
  - by etrans.
  - by etrans.
Qed.

Lemma quiet_refl w : quiet w w.
Proof. split; [apply grows_refl|done]. Qed.

Lemma quiet_trans w1 w2 w3 : quiet w1 w2 -> quiet w2 w3 -> quiet w1 w3.
Proof.
  intros [g1 e1] [g2 e2]. split; [by eapply grows_trans|congruence].
Qed.

Lemma quiet_grows w w' : quiet w w' -> grows w w'.
Proof. by intros [? _]. Qed.

Lemma quiet_nextTick t w : quiet w (nextTick t w).
Proof.
  split; [|done]. apply grows_same_heap; [done..| |done].
  by apply prefix_app_r.
Qed.

Lemma quiet_new_cell w : quiet w (new_cell w).2.
Proof.
  split; [|done]. apply grows_same_heap; [done| |done..].
  intros c. apply called_new_cell.
Qed.

Lemma quiet_mark c w : quiet w (mark c w).
Proof.
  split; [|done]. apply grows_same_heap; [done| |done..].
  intros c'. apply called_mark_other.
Qed.

Lemma quiet_alloc w : quiet w (alloc w).2.
Proof.
  split; [|done]. split; [| |done..].
  - intros p pr H. exists pr. split; [by apply lookup_app_l_Some|].
    split; [apply later_promise_refl|done].
  - intros p pr' H1 H2. apply lookup_ge_None_1 in H2.
    cbn in H1. apply lookup_snoc_Some in H1 as [[? _]|[_ <-]]; [lia|].
    apply same_outcome_refl.
Qed.

Lemma quiet_push_resolved p r w :
  state_is p PENDING w = true -> quiet w (push_resolved p r w).
Proof.
  intros (pr & Hp & Hs)%state_is_spec. unfold push_resolved. rewrite Hp.
  split; [|done]. split; [| |done..].
  - intros q qr Hq. cbn. destruct (decide (p = q)) as [->|Hne].
    + rewrite list_lookup_insert_eq; [|by eapply lookup_lt_Some].
      eexists. split; [done|]. assert (qr = pr) as -> by congruence.
      split; [|congruence].
      repeat split; cbn; first [done | by apply prefix_app_r].
    + rewrite list_lookup_insert_ne; [|done].
      exists qr. split; [done|]. split; [apply later_promise_refl|done].
  - intros q qr H1 H2. cbn in H1.
    apply mk_is_Some, list_lookup_insert_is_Some in H1 as [? H1]. congruence.
Qed.

Lemma quiet_push_rejected p r w :
  state_is p PENDING w = true -> quiet w (push_rejected p r w).
Proof.
  intros (pr & Hp & Hs)%state_is_spec. unfold push_rejected. rewrite Hp.
  split; [|done]. split; [| |done..].
  - intros q qr Hq. cbn. destruct (decide (p = q)) as [->|Hne].
    + rewrite list_lookup_insert_eq; [|by eapply lookup_lt_Some].
      eexists. split; [done|]. assert (qr = pr) as -> by congruence.
      split; [|congruence].
      repeat split; cbn; first [done | by apply prefix_app_r].
    + rewrite list_lookup_insert_ne; [|done].
      exists qr. split; [done|]. split; [apply later_promise_refl|done].
  - intros q qr H1 H2. cbn in H1.
    apply mk_is_Some, list_lookup_insert_is_Some in H1 as [? H1]. congruence.
Qed.

Lemma state_is_push_resolved p q s r w :
  state_is p s (push_resolved q r w) = state_is p s w.
Proof.
  unfold push_resolved. destruct (heap w !! q) as [qr|] eqn:Hq; [|done].
  unfold state_is. simpl. destruct (decide (q = p)) as [->|Hne].
  - rewrite list_lookup_insert_eq; [|by eapply lookup_lt_Some]. by rewrite Hq.
  - by rewrite list_lookup_insert_ne.
Qed.

Lemma quiet_then this f r w : quiet w (then_ this f r w).2.
Proof.
  unfold then_.
  set (w1 := (alloc w).2). set (p2 := (alloc w).1).
  assert (quiet w w1) as H1 by apply quiet_alloc.
  change (alloc w) with (p2, w1). cbv beta iota.
  set (w2 := if state_is this RESOLVED w1 then _ else w1).
  assert (quiet w1 w2) as H2.
  { subst w2. destruct (state_is this RESOLVED w1);
      [apply quiet_nextTick|apply quiet_refl]. }
  set (w3 := if state_is this REJECTED w2 then _ else w2).
  assert (quiet w2 w3) as H3.
  { subst w3. destruct (state_is this REJECTED w2);
      [apply quiet_nextTick|apply quiet_refl]. }
  simpl. destruct (state_is this PENDING w3) eqn:Hs.
  - eapply quiet_trans; [exact H1|]. eapply quiet_trans; [exact H2|].
    eapply quiet_trans; [exact H3|].
    eapply quiet_trans; [by apply quiet_push_resolved|].
    apply quiet_push_rejected. by rewrite state_is_push_resolved.
  - eapply quiet_trans; [exact H1|]. by eapply quiet_trans.
Qed.

Lemma quiet_resolve p v w : quiet w (resolve p v w).
Proof. apply quiet_nextTick. Qed.

Lemma quiet_reject p r w : quiet w (reject p r w).
Proof. apply quiet_nextTick. Qed.

Lemma quiet_catch c p2 e w : quiet w (catch_ c p2 e w).
Proof.
  unfold catch_. destruct (called c w); [apply quiet_refl|].
  eapply quiet_trans; [apply quiet_mark|apply quiet_reject].
Qed.

(** ** [resolvePromise], one level at a time *)

Lemma resolvePromise_unfold promise2 x w :
  resolvePromise promise2 x w =
  if same_promise promise2 x then reject promise2 cycle_error w
  else
    let '(c, w) := new_cell w in
    if isObject x || isFunction x then
      match x with
      | VThrowingThen e => catch_ c promise2 e w
      | VPromise p =>
          (then_ p (VFunction (FAdoptFulfill c promise2))
                   (VFunction (FAdoptReject c promise2)) w).2
      | VThenable body raise =>
          let w := call_then (FAdoptFulfill c promise2) (FAdoptReject c promise2)
                     body w in
          match raise with
          | Some e => catch_ c promise2 e w
          | None => w
          end
      | _ => resolve promise2 x w
      end
    else resolve promise2 x w.
Proof.
  destruct x; try reflexivity.
  cbn [resolvePromise same_promise new_cell isObject isFunction typeof orb].
  cbv zeta.
  generalize (set_cells (cells w ++ [false]) w). intros w'.
  destruct raise as [e|]; [f_equal|];
    revert w'; induction body as [|[[[] []] v] rest IH]; intros w'; cbn;
    first [done | apply IH].
Qed.

Lemma quiet_call_then_adopt c promise2 body :
  list_all _ (prod_all _ (fun _ => unit) _
                (fun y => forall p2 w, quiet w (resolvePromise p2 y w))) body ->
  forall w, quiet w (call_then (FAdoptFulfill c promise2) (FAdoptReject c promise2)
                       body w).
Proof.
  induction 1 as [|a Ha rest _ IH]; intros w; [apply quiet_refl|].
  destruct Ha as [[t s] _ y IHy].
  destruct t, s; cbn [call_then call_fn snd].
  - eapply quiet_trans; [|apply IH].
    destruct (called c w); [apply quiet_refl|].
    eapply quiet_trans; [apply quiet_mark|apply IHy].
  - eapply quiet_trans; [|apply IH].
    destruct (called c w); [apply quiet_refl|].
    eapply quiet_trans; [apply quiet_mark|apply quiet_reject].
  - eapply quiet_trans; [apply quiet_nextTick|apply IH].
  - eapply quiet_trans; [apply quiet_nextTick|apply IH].
Qed.

(** [resolvePromise] settles nothing and calls no user function: all it does
    is set timers, register callbacks and set [called] flags. *)
Lemma quiet_resolvePromise x : forall promise2 w, quiet w (resolvePromise promise2 x w).
Proof.
  induction x as [| | | | | | | |p|e IHe|body IHbody raise IHraise];
    intros promise2 w; rewrite resolvePromise_unfold;
    destruct (same_promise _ _); try apply quiet_reject;
    cbn [new_cell isObject isFunction typeof orb];
    try (eapply quiet_trans; [apply quiet_new_cell|apply quiet_resolve]).
  - eapply quiet_trans; [apply quiet_new_cell|apply quiet_then].
  - eapply quiet_trans; [apply quiet_new_cell|apply quiet_catch].
  - eapply quiet_trans; [apply quiet_new_cell|]. cbv zeta.
    eapply quiet_trans; [by apply quiet_call_then_adopt|].
    destruct raise; [apply quiet_catch|apply quiet_refl].
Qed.

Lemma grows_call_fn f arg w : grows w (call_fn f arg w).2.
Proof.
  destruct f; cbn [call_fn snd]; try apply grows_refl.
  - apply grows_same_heap; [done..|]. by apply prefix_app_r.
  - destruct (called called0 w); [apply grows_refl|].
    apply quiet_grows. eapply quiet_trans; [apply quiet_mark|apply quiet_resolvePromise].
  - destruct (called called0 w); [apply grows_refl|].
    apply quiet_grows. eapply quiet_trans; [apply quiet_mark|apply quiet_reject].
Qed.

Lemma grows_run_reaction r w : grows w (run_reaction r w).
Proof.
  unfold run_reaction. destruct (heap w !! r_this r) as [this|]; [|apply grows_refl].
  pose proof (grows_call_fn (r_handler r)
                (match r_side r with Fulfil => value this | Reject => reason this end) w) as H.
  destruct (call_fn _ _ w) as [[x|e] w1]; simpl in H.
  - eapply grows_trans; [exact H|]. apply quiet_grows, quiet_resolvePromise.
  - eapply grows_trans; [exact H|]. apply quiet_grows, quiet_reject.
Qed.

Lemma grows_forEach callbacks : forall w, grows w (forEach callbacks w).
Proof.
  induction callbacks as [|r rs IH]; intros w; [apply grows_refl|].
  eapply grows_trans; [apply grows_run_reaction|]. apply (IH (run_reaction r w)).
Qed.

(** ** Settling *)

Lemma quiet_construct ex w : quiet w (construct ex w).2.
Proof.
  unfold construct.
  pose proof (quiet_alloc w) as H. destruct (alloc w) as [this w1]. simpl in H.
  set (w2 := foldl _ w1 _).
  assert (quiet w1 w2) as H2.
  { subst w2. generalize (ex_calls ex). intros l. revert w1 H.
    induction l as [|[s v] l IH]; intros w1 H; [apply quiet_refl|].
    cbn [foldl]. eapply quiet_trans; [|apply IH].
    - destruct s; apply quiet_nextTick.
    - eapply quiet_trans; [exact H|]. destruct s; apply quiet_nextTick. }
  destruct (ex_raise ex); simpl.
  - eapply quiet_trans; [exact H|]. eapply quiet_trans; [exact H2|]. apply quiet_reject.
  - by eapply quiet_trans.
Qed.

Lemma tidy_grows w w' : tidy w -> grows w w' -> tidy w'.
Proof.
  intros Ht [Hh Hn _ _ _] p pr' H'.
  destruct (heap w !! p) as [pr|] eqn:H.
  - destruct (Hh _ _ H) as (pr'' & H'' & ((S1 & S2 & S3) & _) & _).
    assert (pr'' = pr') as -> by congruence.
    specialize (Ht _ _ H). unfold tidy_promise in *. by rewrite S1, S2, S3.
  - destruct (Hn _ _ H' H) as (S1 & S2 & S3).
    unfold tidy_promise. by rewrite S1, S2, S3.
Qed.

(** The closure of a capability does nothing once the promise is settled. *)
Lemma settle_resolved_settled p v w pr :
  heap w !! p = Some pr -> state pr <> PENDING -> settle_resolved p v w = w.
Proof. intros H Hs. unfold settle_resolved. rewrite H. by destruct (state pr). Qed.

Lemma settle_rejected_settled p r w pr :
  heap w !! p = Some pr -> state pr <> PENDING -> settle_rejected p r w = w.
Proof. intros H Hs. unfold settle_rejected. rewrite H. by destruct (state pr). Qed.

(** On a pending promise it writes the outcome and drains one queue. *)
Lemma settle_resolved_pending p v w pr :
  heap w !! p = Some pr -> state pr = PENDING ->
  settle_resolved p v w =
  forEach (resolvedCallbacks pr)
    (set_heap (<[p:=Promise RESOLVED v (reason pr) (resolvedCallbacks pr)
                      (rejectedCallbacks pr)]> (heap w)) w).
Proof. intros H Hs. unfold settle_resolved. by rewrite H, Hs. Qed.

Lemma settle_rejected_pending p r w pr :
  heap w !! p = Some pr -> state pr = PENDING ->
  settle_rejected p r w =
  forEach (rejectedCallbacks pr)
    (set_heap (<[p:=Promise REJECTED (value pr) r (resolvedCallbacks pr)
                      (rejectedCallbacks pr)]> (heap w)) w).
Proof. intros H Hs. unfold settle_rejected. by rewrite H, Hs. Qed.

Lemma stable_grows w w' : grows w w' -> stable w w'.
Proof.
  intros [Hh _ _ _ _] p pr H Hs.
  destruct (Hh _ _ H) as (pr' & H' & _ & E). by rewrite (E Hs) in H'.
Qed.

Lemma stable_trans w1 w2 w3 : stable w1 w2 -> stable w2 w3 -> stable w1 w3.
Proof. intros H1 H2 p pr H Hs. apply H2; [|done]. by apply H1. Qed.

Lemma stable_write p pr' w pr :
  heap w !! p = Some pr -> state pr = PENDING ->
  stable w (set_heap (<[p:=pr']> (heap w)) w).
Proof.
  intros H Hs q qr Hq Hqs. cbn.
  rewrite list_lookup_insert_ne; [done|]. intros ->. congruence.
Qed.

Lemma stable_settle_resolved p v w : stable w (settle_resolved p v w).
Proof.
  unfold settle_resolved. destruct (heap w !! p) as [pr|] eqn:H; [|by intros ?].
  destruct (state pr) eqn:Hs; try by intros ?.
  eapply stable_trans; [by eapply stable_write|].
  apply stable_grows, grows_forEach.
Qed.

Lemma stable_settle_rejected p r w : stable w (settle_rejected p r w).
Proof.
  unfold settle_rejected. destruct (heap w !! p) as [pr|] eqn:H; [|by intros ?].
  destruct (state pr) eqn:Hs; try by intros ?.
  eapply stable_trans; [by eapply stable_write|].
  apply stable_grows, grows_forEach.
Qed.

Lemma stable_run_task t w : stable w (run_task t w).
Proof.
  destruct t; cbn [run_task].
  - apply stable_settle_resolved.
  - apply stable_settle_rejected.
  - apply stable_grows, grows_run_reaction.
  - apply stable_grows, grows_call_fn.
Qed.

Lemma stable_tick w : stable w (tick w).
Proof.
  unfold tick. destruct (timers w) as [|t rest]; [by intros ?|].
  intros p pr H Hs. by apply (stable_run_task t (set_timers rest w)).
Qed.

Lemma stable_ticks n : forall w, stable w (ticks n w).
Proof.
  induction n as [|n IH]; intros w; [by intros ?|].
  cbn [ticks]. eapply stable_trans; [apply stable_tick|apply IH].
Qed.

Lemma tidy_write p pr' w :
  tidy w -> tidy_promise pr' -> tidy (set_heap (<[p:=pr']> (heap w)) w).
Proof.
  intros Ht Hp q qr. cbn. intros [(-> & <- & _)|[_ H]]%list_lookup_insert_Some; [done|].
  by eapply Ht.
Qed.

Lemma tidy_settle_resolved p v w : tidy w -> tidy (settle_resolved p v w).
Proof.
  intros Ht. unfold settle_resolved.
  destruct (heap w !! p) as [pr|] eqn:H; [|done].
  destruct (state pr) eqn:Hs; try done.
  eapply tidy_grows; [|apply grows_forEach].
  apply tidy_write; [done|]. specialize (Ht _ _ H).
  unfold tidy_promise in *. rewrite Hs in Ht. cbn. tauto.
Qed.

Lemma tidy_settle_rejected p r w : tidy w -> tidy (settle_rejected p r w).
Proof.
  intros Ht. unfold settle_rejected.
  destruct (heap w !! p) as [pr|] eqn:H; [|done].
  destruct (state pr) eqn:Hs; try done.
  eapply tidy_grows; [|apply grows_forEach].
  apply tidy_write; [done|]. specialize (Ht _ _ H).
  unfold tidy_promise in *. rewrite Hs in Ht. cbn. tauto.
Qed.

Lemma tidy_tick w : tidy w -> tidy (tick w).
Proof.
  intros Ht. unfold tick. destruct (timers w) as [|t rest]; [done|].
  assert (tidy (set_timers rest w)) as Ht' by exact Ht.
  destruct t; cbn [run_task].
  - by apply tidy_settle_resolved.
  - by apply tidy_settle_rejected.
  - eapply tidy_grows; [exact Ht'|apply grows_run_reaction].
  - eapply tidy_grows; [exact Ht'|apply grows_call_fn].
Qed.

Lemma reachable_tidy w : reachable w -> tidy w.
Proof.
  induction 1 as [|ex w _ IH|p f r w _ IH _ _ _|p v w _ IH _|p r w _ IH _|w _ IH].
  - by intros p pr.
  - eapply tidy_grows; [exact IH|apply quiet_grows, quiet_construct].
  - eapply tidy_grows; [exact IH|apply quiet_grows, quiet_then].
  - exact IH.
  - exact IH.
  - by apply tidy_tick.
Qed.

(** ** The queue discipline *)

Lemma ticks_add a b w : ticks (a + b) w = ticks b (ticks a w).
Proof. revert w. induction a as [|a IH]; intros w; [done|]. cbn. apply IH. Qed.

Lemma tick_head t rest w :
  timers w = t :: rest -> tick w = run_task t (set_timers rest w).
Proof. intros H. unfold tick. by rewrite H. Qed.

Lemma tick_idle w : timers w = [] -> tick w = w.
Proof. intros H. unfold tick. by rewrite H. Qed.

Lemma ticks_idle n w : timers w = [] -> ticks n w = w.
Proof.
  intros H. induction n as [|n IH]; [done|]. cbn. by rewrite tick_idle.
Qed.

Lemma keeps_refl q w : keeps q w w.
Proof. intros pr H. exists pr. split; [done|apply later_promise_refl]. Qed.

Lemma keeps_trans q w1 w2 w3 : keeps q w1 w2 -> keeps q w2 w3 -> keeps q w1 w3.
Proof.
  intros H1 H2 pr H. destruct (H1 _ H) as (pr1 & H1' & L1).
  destruct (H2 _ H1') as (pr2 & H2' & L2).
  exists pr2. split; [done|]. by eapply later_promise_trans.
Qed.

Lemma keeps_grows q w w' : grows w w' -> keeps q w w'.
Proof.
  intros [Hh _ _ _ _] pr H. destruct (Hh _ _ H) as (pr' & H' & L & _). eauto.
Qed.

Lemma keeps_write p q pr' w : p <> q -> keeps q w (set_heap (<[p:=pr']> (heap w)) w).
Proof.
  intros Hne pr H. exists pr. cbn. rewrite list_lookup_insert_ne; [|done].
  split; [done|apply later_promise_refl].
Qed.

Lemma keeps_run_task q t w : settles t <> Some q -> keeps q w (run_task t w).
Proof.
  destruct t as [p v|p r|r|f v]; cbn [run_task settles]; intros Hne.
  - unfold settle_resolved. destruct (heap w !! p) as [pr|]; [|apply keeps_refl].
    destruct (state pr); try apply keeps_refl.
    eapply keeps_trans; [|apply keeps_grows, grows_forEach].
    apply keeps_write. congruence.
  - unfold settle_rejected. destruct (heap w !! p) as [pr|]; [|apply keeps_refl].
    destruct (state pr); try apply keeps_refl.
    eapply keeps_trans; [|apply keeps_grows, grows_forEach].
    apply keeps_write. congruence.
  - apply keeps_grows, grows_run_reaction.
  - apply keeps_grows, grows_call_fn.
Qed.

Lemma timers_run_task t w : timers w `prefix_of` timers (run_task t w).
Proof.
  destruct t as [p v|p r|r|f v]; cbn [run_task].
  - unfold settle_resolved. destruct (heap w !! p) as [pr|]; [|done].
    destruct (state pr); try done.
    apply (grows_timers _ _ (grows_forEach _ (set_heap _ w))).
  - unfold settle_rejected. destruct (heap w !! p) as [pr|]; [|done].
    destruct (state pr); try done.
    apply (grows_timers _ _ (grows_forEach _ (set_heap _ w))).
  - apply grows_timers, grows_run_reaction.
  - apply grows_timers, grows_call_fn.
Qed.

(** Timers fire in the order they were set: after as many turns as there are
    timers ahead of it, a timer is at the head of the queue, and a promise
    that none of the timers ahead settles is still unsettled. *)
Lemma ticks_reach q ts : forall w rest,
  timers w = ts ++ rest -> undisturbed q ts ->
  (exists more, timers (ticks (length ts) w) = rest ++ more) /\
  keeps q w (ticks (length ts) w).
Proof.
  induction ts as [|t ts IH]; intros w rest Ht Hu.
  - split; [exists []; by rewrite app_nil_r|apply keeps_refl].
  - apply Forall_cons in Hu as [Hq Hu]. cbn [length ticks].
    rewrite (tick_head t (ts ++ rest) w Ht).
    destruct (timers_run_task t (set_timers (ts ++ rest) w)) as [more Hm].
    cbn in Hm. rewrite <- app_assoc in Hm.
    destruct (IH _ _ Hm Hu) as [[more' Hm'] Hk]. split.
    + exists (more ++ more'). by rewrite Hm', app_assoc.
    + eapply keeps_trans; [|exact Hk].
      by apply (keeps_run_task q t (set_timers (ts ++ rest) w)).
Qed.

Lemma ticks_timers ts : forall w rest,
  timers w = ts ++ rest ->
  exists more, timers (ticks (length ts) w) = rest ++ more.
Proof.
  induction ts as [|t ts IH]; intros w rest Ht.
  - exists []. by rewrite app_nil_r.
  - cbn [length ticks]. rewrite (tick_head t (ts ++ rest) w Ht).
    destruct (timers_run_task t (set_timers (ts ++ rest) w)) as [more Hm].
    cbn in Hm. rewrite <- app_assoc in Hm.
    destruct (IH _ _ Hm) as [more' Hm'].
    exists (more ++ more'). by rewrite Hm', app_assoc.
Qed.

Lemma state_is_alloc w : state_is (length (heap w)) PENDING (alloc w).2 = true.
Proof.
  apply state_is_spec. exists fresh_promise. split; [|done].
  cbn. by apply list_lookup_middle.
Qed.

Lemma state_is_keeps q s w w' :
  keeps q w w' -> state_is q s w = true -> state_is q s w' = true.
Proof.
  intros Hk (pr & H & Hs)%state_is_spec.
  destruct (Hk _ H) as (pr' & H' & (S1 & _) & _).
  apply state_is_spec. exists pr'. split; [done|congruence].
Qed.

Lemma fulfilled_stable p v w w' : stable w w' -> fulfilled_with p v w -> fulfilled_with p v w'.
Proof.
  intros Hst (pr & H & Hs & Hv). exists pr. split; [|done].
  apply Hst; [done|]. by rewrite Hs.
Qed.

Lemma rejected_stable p r w w' : stable w w' -> rejected_with p r w -> rejected_with p r w'.
Proof.
  intros Hst (pr & H & Hs & Hv). exists pr. split; [|done].
  apply Hst; [done|]. by rewrite Hs.
Qed.

Lemma settle_resolved_fulfils p v w :
  state_is p PENDING w = true -> fulfilled_with p v (settle_resolved p v w).
Proof.
  intros (pr & H & Hs)%state_is_spec. rewrite (settle_resolved_pending _ _ _ _ H Hs).
  eapply fulfilled_stable; [apply stable_grows, grows_forEach|].
  eexists. split; [cbn; apply list_lookup_insert_eq; by eapply lookup_lt_Some|done].
Qed.

Lemma settle_rejected_rejects p r w :
  state_is p PENDING w = true -> rejected_with p r (settle_rejected p r w).
Proof.
  intros (pr & H & Hs)%state_is_spec. rewrite (settle_rejected_pending _ _ _ _ H Hs).
  eapply rejected_stable; [apply stable_grows, grows_forEach|].
  eexists. split; [cbn; apply list_lookup_insert_eq; by eapply lookup_lt_Some|done].
Qed.

(** A capability call takes effect when its timer fires, provided that no
    timer ahead of it settles the promise first. *)
Lemma resolve_timer_fulfils q v ts rest w :
  timers w = ts ++ TResolve q v :: rest -> undisturbed q ts ->
  state_is q PENDING w = true ->
  forall n, fulfilled_with q v (ticks (S (length ts) + n) w).
Proof.
  intros Ht Hu Hp n. rewrite ticks_add.
  eapply fulfilled_stable; [apply stable_ticks|].
  replace (S (length ts)) with (length ts + 1) by lia. rewrite ticks_add.
  destruct (ticks_reach q ts w _ Ht Hu) as [[more Hm] Hk].
  cbn [ticks]. rewrite (tick_head _ _ _ Hm). cbn [run_task].
  apply settle_resolved_fulfils. by apply (state_is_keeps q PENDING w).
Qed.

Lemma reject_timer_rejects q r ts rest w :
  timers w = ts ++ TReject q r :: rest -> undisturbed q ts ->
  state_is q PENDING w = true ->
  forall n, rejected_with q r (ticks (S (length ts) + n) w).
Proof.
  intros Ht Hu Hp n. rewrite ticks_add.
  eapply rejected_stable; [apply stable_ticks|].
  replace (S (length ts)) with (length ts + 1) by lia. rewrite ticks_add.
  destruct (ticks_reach q ts w _ Ht Hu) as [[more Hm] Hk].
  cbn [ticks]. rewrite (tick_head _ _ _ Hm). cbn [run_task].
  apply settle_rejected_rejects. by apply (state_is_keeps q PENDING w).
Qed.

(** ** The [called] flag *)

Lemma called_later_calls c res rej body : forall w,
  called c (later_calls res rej body w) = called c w.
Proof.
  induction body as [|[[[] []] v] rest IH]; intros w; cbn [later_calls];
    [done|by rewrite IH..].
Qed.

Lemma call_then_called c promise2 body : forall w,
  called c w = true ->
  call_then (FAdoptFulfill c promise2) (FAdoptReject c promise2) body w
  = later_calls (FAdoptFulfill c promise2) (FAdoptReject c promise2) body w.
Proof.
  induction body as [|[[[] []] v] rest IH]; intros w Hc;
    cbn [call_then later_calls call_fn snd]; [done|rewrite ?Hc; by apply IH..].
Qed.

Lemma call_then_no_sync res rej body : forall w,
  no_sync body -> call_then res rej body w = later_calls res rej body w.
Proof.
  induction body as [|[[t s] v] rest IH]; intros w Hn; [done|].
  apply Forall_cons in Hn as [Ht Hn]. cbn in Ht. subst t.
  destruct s; cbn [call_then later_calls]; by apply IH.
Qed.

Lemma called_run_task c t w : called c w = true -> called c (run_task t w) = true.
Proof.
  intros Hc. destruct t as [p v|p r|r|f v]; cbn [run_task].
  - unfold settle_resolved. destruct (heap w !! p) as [pr|]; [|done].
    destruct (state pr); try done.
    by apply (grows_cells _ _ (grows_forEach _ (set_heap _ w))).
  - unfold settle_rejected. destruct (heap w !! p) as [pr|]; [|done].
    destruct (state pr); try done.
    by apply (grows_cells _ _ (grows_forEach _ (set_heap _ w))).
  - by apply (grows_cells _ _ (grows_run_reaction r w)).
  - by apply (grows_cells _ _ (grows_call_fn f v w)).
Qed.

Lemma called_ticks c n : forall w, called c w = true -> called c (ticks n w) = true.
Proof.
  induction n as [|n IH]; intros w Hc; [done|]. cbn [ticks]. apply IH.
  unfold tick. destruct (timers w) as [|t rest]; [done|].
  by apply (called_run_task c t (set_timers rest w)).
Qed.

Lemma called_adopt s c promise2 y w :
  c < length (cells w) -> called c (call_fn (adopt s c promise2) y w).2 = true.
Proof.
  intros Hc. destruct s; cbn [adopt call_fn snd];
    destruct (called c w) eqn:E; try done.
  - apply (grows_cells _ _ (quiet_grows _ _ (quiet_resolvePromise y promise2 (mark c w)))).
    by apply called_mark.
  - apply (grows_cells _ _ (quiet_grows _ _ (quiet_reject promise2 y (mark c w)))).
    by apply called_mark.
Qed.

(** ** [resolvePromise] on a foreign thenable *)

Lemma resolvePromise_first_sync promise2 s y rest raise w :
  resolvePromise promise2 (VThenable ((Sync, s, y) :: rest) raise) w
  = later_calls (FAdoptFulfill (new_cell w).1 promise2)
      (FAdoptReject (new_cell w).1 promise2) rest
      (call_fn (adopt s (new_cell w).1 promise2) y (new_cell w).2).2.
Proof.
  set (c := (new_cell w).1). set (w1 := (new_cell w).2).
  assert (c < length (cells w1)) as Hlt.
  { subst c w1. cbn. rewrite length_app. cbn. lia. }
  rewrite resolvePromise_unfold.
  cbn [same_promise isObject isFunction typeof orb].
  change (new_cell w) with (c, w1). cbv beta iota zeta.
  assert (call_then (FAdoptFulfill c promise2) (FAdoptReject c promise2)
            ((Sync, s, y) :: rest) w1
          = later_calls (FAdoptFulfill c promise2) (FAdoptReject c promise2) rest
              (call_fn (adopt s c promise2) y w1).2) as ->.
  { pose proof (called_adopt s c promise2 y w1 Hlt) as Hc.
    destruct s; cbn [call_then adopt] in *; by apply call_then_called. }
  assert (called c (later_calls (FAdoptFulfill c promise2) (FAdoptReject c promise2)
                      rest (call_fn (adopt s c promise2) y w1).2) = true) as Hc.
  { rewrite called_later_calls. by apply called_adopt. }
  destruct raise as [e|]; [|done]. unfold catch_. by rewrite Hc.
Qed.

Lemma resolvePromise_raise promise2 body e w :
  no_sync body ->
  resolvePromise promise2 (VThenable body (Some e)) w
  = reject promise2 e
      (mark (new_cell w).1
         (later_calls (FAdoptFulfill (new_cell w).1 promise2)
            (FAdoptReject (new_cell w).1 promise2) body (new_cell w).2)).
Proof.
  intros Hn. rewrite resolvePromise_unfold.
  cbn [same_promise isObject isFunction typeof orb].
  set (c := (new_cell w).1). set (w1 := (new_cell w).2).
  change (new_cell w) with (c, w1). cbv beta iota zeta.
  assert (called c w1 = false) as Hfresh by apply called_fresh.
  rewrite call_then_no_sync; [|done]. unfold catch_.
  by rewrite called_later_calls, Hfresh.
Qed.

Lemma resolvePromise_getter promise2 e w :
  resolvePromise promise2 (VThrowingThen e) w
  = reject promise2 e (mark (new_cell w).1 (new_cell w).2).
Proof.
  rewrite resolvePromise_unfold.
  cbn [same_promise isObject isFunction typeof orb].
  set (c := (new_cell w).1). set (w1 := (new_cell w).2).
  change (new_cell w) with (c, w1). cbv beta iota zeta.
  assert (called c w1 = false) as Hfresh by apply called_fresh.
  unfold catch_. by rewrite Hfresh.
Qed.

Lemma resolvePromise_plain promise2 x w :
  plain x = true -> resolvePromise promise2 x w = resolve promise2 x (new_cell w).2.
Proof.
  intros Hx. rewrite resolvePromise_unfold. by destruct x.
Qed.

Lemma resolvePromise_self q w :
  resolvePromise q (VPromise q) w = reject q cycle_error w.
Proof. rewrite resolvePromise_unfold. cbn. by rewrite Nat.eqb_refl. Qed.

(** The calls a thenable makes later set timers that settle nothing when
    they are set. *)
Lemma later_calls_spec res rej body : forall w,
  exists fs,
    later_calls res rej body w = set_timers (timers w ++ fs) w /\
    Forall (fun t => settles t = None) fs.
Proof.
  induction body as [|[[[] []] v] rest IH]; intros w; cbn [later_calls].
  - exists []. rewrite app_nil_r. by destruct w.
  - apply IH.
  - apply IH.
  - destruct (IH (nextTick (TForeign res v) w)) as (fs & -> & Hfs).
    exists (TForeign res v :: fs). split; [|by constructor].
    cbn. by rewrite <- app_assoc.
  - destruct (IH (nextTick (TForeign rej v) w)) as (fs & -> & Hfs).
    exists (TForeign rej v :: fs). split; [|by constructor].
    cbn. by rewrite <- app_assoc.
Qed.

Lemma unsettling_undisturbed q fs :
  Forall (fun t => settles t = None) fs -> undisturbed q fs.
Proof. intros H. eapply Forall_impl; [exact H|]. cbn. intros t Ht. by rewrite Ht. Qed.

(** One run of [resolvePromise] on a value that settles synchronously. *)
Lemma resolvePromise_sync q x s a :
  settles_sync q x s a -> forall w,
  exists pre post,
    timers (resolvePromise q x w) = timers w ++ pre ++ settle_task s q a :: post /\
    undisturbed q pre /\
    heap (resolvePromise q x w) = heap w /\
    trace (resolvePromise q x w) = trace w.
Proof.
  induction 1 as [|x Hx|e|body e Hn|y rest raise s a Hy IH|r rest raise]; intros w.
  - rewrite resolvePromise_self. exists [], []. by repeat split; try constructor.
  - rewrite resolvePromise_plain; [|done].
    exists [], []. by repeat split; try constructor.
  - rewrite resolvePromise_getter. exists [], []. by repeat split; try constructor.
  - rewrite resolvePromise_raise; [|done].
    destruct (later_calls_spec (FAdoptFulfill (new_cell w).1 q)
                (FAdoptReject (new_cell w).1 q) body (new_cell w).2) as (fs & -> & Hfs).
    exists fs, []. cbn. rewrite <- app_assoc.
    repeat split; try done. by apply unsettling_undisturbed.
  - rewrite resolvePromise_first_sync. cbn [adopt call_fn snd].
    rewrite (called_fresh w).
    destruct (IH (mark (new_cell w).1 (new_cell w).2)) as (pre & post & Ht & Hu & Hh & Hl).
    destruct (later_calls_spec (FAdoptFulfill (new_cell w).1 q)
                (FAdoptReject (new_cell w).1 q) rest
                (resolvePromise q y (mark (new_cell w).1 (new_cell w).2)))
      as (fs & -> & Hfs).
    exists pre, (post ++ fs). cbn [set_timers timers heap trace]. rewrite Ht.
    repeat split; try done. by rewrite <- !app_assoc.
  - rewrite resolvePromise_first_sync. cbn [adopt call_fn snd].
    rewrite (called_fresh w).
    destruct (later_calls_spec (FAdoptFulfill (new_cell w).1 q)
                (FAdoptReject (new_cell w).1 q) rest
                (reject q r (mark (new_cell w).1 (new_cell w).2)))
      as (fs & -> & Hfs).
    exists [], fs. cbn. rewrite <- app_assoc.
    repeat split; try done. constructor.
Qed.

(** ** [then], case by case *)

Lemma state_is_lookup p s w pr :
  heap w !! p = Some pr ->
  state_is p s w = match state pr, s with
                   | PENDING, PENDING | RESOLVED, RESOLVED
                   | REJECTED, REJECTED => true
                   | _, _ => false
                   end.
Proof. intros H. unfold state_is. by rewrite H. Qed.

Lemma state_is_nextTick p s t w : state_is p s (nextTick t w) = state_is p s w.
Proof. done. Qed.

Lemma lookup_alloc p w pr : heap w !! p = Some pr -> heap (alloc w).2 !! p = Some pr.
Proof. intros H. cbn. by apply lookup_app_l_Some. Qed.

Lemma then_pending this f g w :
  state_is this PENDING w = true ->
  then_ this f g w =
  (length (heap w),
   push_rejected this
     (Reaction Reject this (length (heap w)) (as_handler g FRethrow))
     (push_resolved this
        (Reaction Fulfil this (length (heap w)) (as_handler f FIdentity))
        (alloc w).2)).
Proof.
  intros (pr & H & Hs)%state_is_spec. apply lookup_alloc in H.
  unfold then_. destruct (alloc w) as [p2 w1] eqn:E.
  assert (p2 = length (heap w)) as -> by (by inversion E). cbn [snd] in *.
  by repeat (rewrite ?state_is_nextTick, (state_is_lookup _ _ w1 pr H), Hs;
             cbn match).
Qed.

Lemma then_fulfilled this f g w pr :
  heap w !! this = Some pr -> state pr = RESOLVED ->
  then_ this f g w =
  (length (heap w),
   nextTick (TReaction (Reaction Fulfil this (length (heap w)) (as_handler f FIdentity)))
     (alloc w).2).
Proof.
  intros H Hs. apply lookup_alloc in H.
  unfold then_. destruct (alloc w) as [p2 w1] eqn:E.
  assert (p2 = length (heap w)) as -> by (by inversion E). cbn [snd] in *.
  by repeat (rewrite ?state_is_nextTick, (state_is_lookup _ _ w1 pr H), Hs;
             cbn match).
Qed.

Lemma then_rejected this f g w pr :
  heap w !! this = Some pr -> state pr = REJECTED ->
  then_ this f g w =
  (length (heap w),
   nextTick (TReaction (Reaction Reject this (length (heap w)) (as_handler g FRethrow)))
     (alloc w).2).
Proof.
  intros H Hs. apply lookup_alloc in H.
  unfold then_. destruct (alloc w) as [p2 w1] eqn:E.
  assert (p2 = length (heap w)) as -> by (by inversion E). cbn [snd] in *.
  by repeat (rewrite ?state_is_nextTick, (state_is_lookup _ _ w1 pr H), Hs;
             cbn match).
Qed.

Lemma then_unfold this f g w :
  then_ this f g w =
  (length (heap w),
   match heap (alloc w).2 !! this with
   | Some pr =>
       match state pr with
       | RESOLVED =>
           nextTick (TReaction (Reaction Fulfil this (length (heap w))
                                  (as_handler f FIdentity))) (alloc w).2
       | REJECTED =>
           nextTick (TReaction (Reaction Reject this (length (heap w))
                                  (as_handler g FRethrow))) (alloc w).2
       | PENDING =>
           push_rejected this
             (Reaction Reject this (length (heap w)) (as_handler g FRethrow))
             (push_resolved this
                (Reaction Fulfil this (length (heap w)) (as_handler f FIdentity))
                (alloc w).2)
       end
   | None => (alloc w).2
   end).
Proof.
  unfold then_. destruct (alloc w) as [p2 w1] eqn:E.
  assert (p2 = length (heap w)) as -> by (by inversion E). cbn [snd].
  destruct (heap w1 !! this) as [pr|] eqn:H.
  - destruct (state pr) eqn:Hs;
      by repeat (rewrite ?state_is_nextTick, (state_is_lookup _ _ w1 pr H), Hs;
                 cbn match).
  - assert (forall s, state_is this s w1 = false) as Hn
      by (intros s; unfold state_is; by rewrite H).
    by rewrite !Hn.
Qed.

(** While the promise is pending, [then] only appends to its two queues. *)
Lemma then_pending_spec this f g w pr :
  heap w !! this = Some pr -> state pr = PENDING ->
  let w' := (then_ this f g w).2 in
  heap w' !! this =
    Some (Promise PENDING (value pr) (reason pr)
            (resolvedCallbacks pr
               ++ [Reaction Fulfil this (length (heap w)) (as_handler f FIdentity)])
            (rejectedCallbacks pr
               ++ [Reaction Reject this (length (heap w)) (as_handler g FRethrow)])) /\
  timers w' = timers w /\ trace w' = trace w /\ cells w' = cells w.
Proof.
  intros H Hs. cbn zeta. rewrite then_pending; [|apply state_is_spec; eauto].
  cbn [snd alloc]. unfold push_resolved. cbn [heap set_heap].
  rewrite (lookup_app_l_Some _ _ _ _ H). unfold push_rejected. cbn [heap set_heap].
  assert (this < length (heap w ++ [fresh_promise])) as Hlt.
  { rewrite length_app. apply lookup_lt_Some in H. lia. }
  rewrite list_lookup_insert_eq; [|done]. cbn.
  rewrite list_insert_insert_eq, list_lookup_insert_eq; [|done].
  by rewrite Hs.
Qed.

Lemma register_spec p hs : forall w pr,
  heap w !! p = Some pr -> state pr = PENDING ->
  exists Rf Rr,
    heap (register p hs w) !! p =
      Some (Promise PENDING (value pr) (reason pr)
              (resolvedCallbacks pr ++ Rf) (rejectedCallbacks pr ++ Rr)) /\
    Forall2 (fun h r => r = Reaction Fulfil p (r_promise2 r) (FUser h.1)) hs Rf /\
    Forall2 (fun h r => r = Reaction Reject p (r_promise2 r) (FUser h.2)) hs Rr /\
    timers (register p hs w) = timers w /\ trace (register p hs w) = trace w.
Proof.
  induction hs as [|h hs IH]; intros w pr H Hs.
  - exists [], []. rewrite !app_nil_r. cbn. destruct pr; cbn in *. by subst.
  - cbn [register foldl].
    destruct (then_pending_spec p (VFunction (FUser h.1)) (VFunction (FUser h.2))
                w pr H Hs) as (H' & Ht & Hl & _).
    destruct (IH _ _ H' eq_refl) as (Rf & Rr & H'' & Ff & Fr & Ht' & Hl').
    cbn [value reason resolvedCallbacks rejectedCallbacks] in H''.
    rewrite <- !app_assoc in H''.
    eexists _, _. split; [exact H''|].
    split; [by constructor|]. split; [by constructor|].
    split; unfold register in *; congruence.
Qed.

(** ** What a reaction does *)

Lemma run_reaction_unfold r w this :
  heap w !! r_this r = Some this ->
  run_reaction r w =
  match call_fn (r_handler r) (payload (r_side r) this) w with
  | (Return x, w) => resolvePromise (r_promise2 r) x w
  | (Throw error, w) => reject (r_promise2 r) error w
  end.
Proof. intros H. unfold run_reaction. by rewrite H. Qed.

Lemma trace_run_reaction_user s p q f w this :
  heap w !! p = Some this ->
  trace (run_reaction (Reaction s p q (FUser f)) w)
  = trace w ++ [EvCall f (payload s this)].
Proof.
  intros H. rewrite (run_reaction_unfold _ _ this); [|done].
  cbn [r_handler r_side r_promise2 call_fn].
  destruct (user_fn f (payload s this)) as [x|e].
  - by rewrite (proj2 (quiet_resolvePromise x q _)).
  - done.
Qed.

Lemma forEach_app l1 l2 w : forEach (l1 ++ l2) w = forEach l2 (forEach l1 w).
Proof. apply foldl_app. Qed.

Lemma trace_forEach_users s p hs (pick : fn_id * fn_id -> fn_id) : forall Rs w this,
  Forall2 (fun h r => r = Reaction s p (r_promise2 r) (FUser (pick h))) hs Rs ->
  heap w !! p = Some this -> state this <> PENDING ->
  trace (forEach Rs w) = trace w ++ map (fun h => EvCall (pick h) (payload s this)) hs.
Proof.
  induction hs as [|h hs IH]; intros Rs w this HF H Hs.
  - apply Forall2_nil_inv_l in HF as ->. by rewrite app_nil_r.
  - apply Forall2_cons_inv_l in HF as (r & Rs' & Hr & HF & ->).
    cbn [forEach foldl map]. fold (forEach Rs' (run_reaction r w)).
    rewrite (IH Rs' _ this HF); [| |done].
    + rewrite Hr, (trace_run_reaction_user _ _ _ _ _ this H).
      by rewrite <- app_assoc.
    + by apply (stable_grows _ _ (grows_run_reaction r w)).
Qed.

Lemma ticks_S n w : ticks (S n) w = tick (ticks n w).
Proof. replace (S n) with (n + 1) by lia. by rewrite ticks_add. Qed.

(** When the timer of a capability fires on a pending promise, the handlers
    queued on that side run in queue order. *)
Lemma drain_in_order s p (pick : fn_id * fn_id -> fn_id) hs Rs old extra w pr a :
  heap w !! p = Some pr -> state pr = PENDING ->
  match s with
  | Fulfil => resolvedCallbacks pr
  | Reject => rejectedCallbacks pr
  end = (old ++ Rs) ++ extra ->
  Forall2 (fun h r => r = Reaction s p (r_promise2 r) (FUser (pick h))) hs Rs ->
  exists before after,
    trace (run_task match s with Fulfil => TResolve p a | Reject => TReject p a end w)
    = trace w ++ before ++ map (fun h => EvCall (pick h) a) hs ++ after.
Proof.
  intros H Hs Hq HF.
  set (pr' := match s with
              | Fulfil => Promise RESOLVED a (reason pr) (resolvedCallbacks pr)
                            (rejectedCallbacks pr)
              | Reject => Promise REJECTED (value pr) a (resolvedCallbacks pr)
                            (rejectedCallbacks pr)
              end).
  set (w' := set_heap (<[p:=pr']> (heap w)) w).
  assert (run_task match s with Fulfil => TResolve p a | Reject => TReject p a end w
          = forEach ((old ++ Rs) ++ extra) w') as ->.
  { subst w' pr'. destruct s; cbn [run_task]; rewrite <- Hq.
    - by apply settle_resolved_pending.
    - by apply settle_rejected_pending. }
  assert (heap w' !! p = Some pr') as H'.
  { cbn. apply list_lookup_insert_eq. by eapply lookup_lt_Some. }
  assert (state pr' <> PENDING) as Hs' by (subst pr'; by destruct s).
  assert (payload s pr' = a) as Ha by (subst pr'; by destruct s).
  rewrite !forEach_app.
  destruct (grows_trace _ _ (grows_forEach old w')) as [before Hb].
  pose proof (stable_grows _ _ (grows_forEach old w') _ _ H' Hs') as H''.
  pose proof (trace_forEach_users s p hs pick Rs _ pr' HF H'' Hs') as Hm.
  destruct (grows_trace _ _ (grows_forEach extra (forEach Rs (forEach old w'))))
    as [after Hafter].
  exists before, after. rewrite Hafter, Hm, Hb, Ha. cbn. by rewrite <- !app_assoc.
Qed.

(** ** Operations that cannot settle [q] create nothing that can *)

Section Spares.

Variable q : ref.
Variable ok : ref -> side -> reaction -> Prop.

Lemma no_more (ts : list task) : exists more, ts = ts ++ more /\ timers_spare q more.
Proof. exists []. split; [by rewrite app_nil_r|constructor]. Qed.

Lemma spares_refl w : spares q ok w w.
Proof. intros H. split; [done|apply no_more]. Qed.

Lemma spares_trans w1 w2 w3 : spares q ok w1 w2 -> spares q ok w2 w3 -> spares q ok w1 w3.
Proof.
  intros H1 H2 H. destruct (H1 H) as (H' & m1 & T1 & F1).
  destruct (H2 H') as (H'' & m2 & T2 & F2). split; [done|].
  exists (m1 ++ m2). split; [by rewrite T2, T1, app_assoc|].
  by apply Forall_app.
Qed.

Lemma spares_same_heap w w' more :
  heap w' = heap w -> timers w' = timers w ++ more -> timers_spare q more ->
  spares q ok w w'.
Proof.
  intros Hh Ht Hm [Hlt H]. split; [|eauto].
  split; rewrite Hh; done.
Qed.

Lemma spares_nextTick t w : task_aims q t = false -> spares q ok w (nextTick t w).
Proof.
  intros Ht. apply (spares_same_heap _ _ [t]); [done..|]. by constructor.
Qed.

Lemma spares_new_cell w : spares q ok w (new_cell w).2.
Proof. apply (spares_same_heap _ _ []); [done|by rewrite app_nil_r|constructor]. Qed.

Lemma spares_mark c w : spares q ok w (mark c w).
Proof. apply (spares_same_heap _ _ []); [done|by rewrite app_nil_r|constructor]. Qed.

Lemma spares_alloc w : spares q ok w (alloc w).2.
Proof.
  intros [Hlt H]. split; [|apply no_more].
  split; [cbn; rewrite length_app; lia|].
  intros p pr. cbn. intros [[_ Hp]|[_ <-]]%lookup_snoc_Some; [by apply H|].
  split; constructor.
Qed.

Lemma timers_push_resolved p r w : timers (push_resolved p r w) = timers w.
Proof. unfold push_resolved. by destruct (heap w !! p). Qed.

Lemma timers_push_rejected p r w : timers (push_rejected p r w) = timers w.
Proof. unfold push_rejected. by destruct (heap w !! p). Qed.

Lemma heap_aims_only_push_resolved p r w :
  (reaction_aims q r = true -> ok p Fulfil r) ->
  heap_aims_only q ok w -> heap_aims_only q ok (push_resolved p r w).
Proof.
  intros Hr [Hlt H].
  unfold push_resolved. destruct (heap w !! p) as [pr|] eqn:Hp; [|done].
  split; [cbn; by rewrite length_insert|].
  intros p' pr'. cbn.
  intros [(-> & <- & _)|[_ Hp']]%list_lookup_insert_Some; [|by apply H].
  destruct (H _ _ Hp) as [HF HR]. cbn. split; [|done].
  apply Forall_app. split; [done|]. by constructor.
Qed.

Lemma heap_aims_only_push_rejected p r w :
  (reaction_aims q r = true -> ok p Reject r) ->
  heap_aims_only q ok w -> heap_aims_only q ok (push_rejected p r w).
Proof.
  intros Hr [Hlt H].
  unfold push_rejected. destruct (heap w !! p) as [pr|] eqn:Hp; [|done].
  split; [cbn; by rewrite length_insert|].
  intros p' pr'. cbn.
  intros [(-> & <- & _)|[_ Hp']]%list_lookup_insert_Some; [|by apply H].
  destruct (H _ _ Hp) as [HF HR]. cbn. split; [done|].
  apply Forall_app. split; [done|]. by constructor.
Qed.

Lemma spares_push_resolved p r w :
  reaction_aims q r = false -> spares q ok w (push_resolved p r w).
Proof.
  intros Hr Hw. split; [|rewrite timers_push_resolved; apply no_more].
  apply heap_aims_only_push_resolved; [congruence|done].
Qed.

Lemma spares_push_rejected p r w :
  reaction_aims q r = false -> spares q ok w (push_rejected p r w).
Proof.
  intros Hr Hw. split; [|rewrite timers_push_rejected; apply no_more].
  apply heap_aims_only_push_rejected; [congruence|done].
Qed.

Lemma spares_allocated w w' :
  (q < length (heap w) -> spares q ok w w') -> spares q ok w w'.
Proof. intros H Hw. apply H; [apply Hw|done]. Qed.

(** A promise created now is not [q], which exists already. *)
Lemma spares_then this f g w :
  fn_aims q (as_handler f FIdentity) = false ->
  fn_aims q (as_handler g FRethrow) = false ->
  spares q ok w (then_ this f g w).2.
Proof.
  intros Hf Hg. apply spares_allocated. intros Hlt.
  assert (forall s h, fn_aims q h = false ->
            reaction_aims q (Reaction s this (length (heap w)) h) = false) as Hr.
  { intros s h Hh. unfold reaction_aims. cbn. rewrite Hh, orb_false_r.
    apply Nat.eqb_neq. lia. }
  rewrite then_unfold. cbn [snd].
  eapply spares_trans; [apply spares_alloc|].
  destruct (heap (alloc w).2 !! this) as [pr|]; [|apply spares_refl].
  destruct (state pr).
  - eapply spares_trans; [apply spares_push_resolved|apply spares_push_rejected];
      by apply Hr.
  - apply spares_nextTick. by apply Hr.
  - apply spares_nextTick. by apply Hr.
Qed.

Lemma spares_resolve p v w : p <> q -> spares q ok w (resolve p v w).
Proof. intros Hne. apply spares_nextTick. cbn. by apply Nat.eqb_neq. Qed.

Lemma spares_reject p r w : p <> q -> spares q ok w (reject p r w).
Proof. intros Hne. apply spares_nextTick. cbn. by apply Nat.eqb_neq. Qed.

Lemma spares_catch c promise2 e w : promise2 <> q -> spares q ok w (catch_ c promise2 e w).
Proof.
  intros Hne. unfold catch_. destruct (called c w); [apply spares_refl|].
  eapply spares_trans; [apply spares_mark|by apply spares_reject].
Qed.

Lemma spares_call_then_adopt c promise2 body :
  promise2 <> q ->
  list_all _ (prod_all _ (fun _ => unit) _
                (fun y => forall p2 w, p2 <> q -> spares q ok w (resolvePromise p2 y w)))
    body ->
  forall w, spares q ok w
              (call_then (FAdoptFulfill c promise2) (FAdoptReject c promise2) body w).
Proof.
  intros Hne. induction 1 as [|a Ha rest _ IH]; intros w; [apply spares_refl|].
  destruct Ha as [[t s] _ y IHy].
  assert (Nat.eqb promise2 q = false) as Hq by (by apply Nat.eqb_neq).
  destruct t, s; cbn [call_then call_fn snd].
  - eapply spares_trans; [|apply IH].
    destruct (called c w); [apply spares_refl|].
    eapply spares_trans; [apply spares_mark|by apply IHy].
  - eapply spares_trans; [|apply IH].
    destruct (called c w); [apply spares_refl|].
    eapply spares_trans; [apply spares_mark|by apply spares_reject].
  - eapply spares_trans; [|apply IH]. apply spares_nextTick. exact Hq.
  - eapply spares_trans; [|apply IH]. apply spares_nextTick. exact Hq.
Qed.

Lemma spares_resolvePromise x : forall promise2 w,
  promise2 <> q -> spares q ok w (resolvePromise promise2 x w).
Proof.
  induction x as [| | | | | | | |p|e IHe|body IHbody raise IHraise];
    intros promise2 w Hne; rewrite resolvePromise_unfold;
    destruct (same_promise _ _); try (by apply spares_reject);
    cbn [new_cell isObject isFunction typeof orb];
    try (eapply spares_trans; [apply spares_new_cell|by apply spares_resolve]).
  - eapply spares_trans; [apply spares_new_cell|].
    apply spares_then; cbn; by apply Nat.eqb_neq.
  - eapply spares_trans; [apply spares_new_cell|by apply spares_catch].
  - eapply spares_trans; [apply spares_new_cell|]. cbv zeta.
    eapply spares_trans; [by apply spares_call_then_adopt|].
    destruct raise; [by apply spares_catch|apply spares_refl].
Qed.

Lemma spares_call_fn f arg w : fn_aims q f = false -> spares q ok w (call_fn f arg w).2.
Proof.
  destruct f as [id| | |c p2|c p2]; cbn [call_fn snd fn_aims];
    intros Hf; try apply spares_refl.
  - apply (spares_same_heap _ _ []); [done|by rewrite app_nil_r|constructor].
  - apply Nat.eqb_neq in Hf. destruct (called c w); [apply spares_refl|].
    eapply spares_trans; [apply spares_mark|by apply spares_resolvePromise].
  - apply Nat.eqb_neq in Hf. destruct (called c w); [apply spares_refl|].
    eapply spares_trans; [apply spares_mark|by apply spares_reject].
Qed.

Lemma spares_run_reaction r w : reaction_aims q r = false -> spares q ok w (run_reaction r w).
Proof.
  intros [Hp Hf]%orb_false_elim. apply Nat.eqb_neq in Hp.
  unfold run_reaction. destruct (heap w !! r_this r) as [this|]; [|apply spares_refl].
  pose proof (spares_call_fn (r_handler r)
                (match r_side r with Fulfil => value this | Reject => reason this end)
                w Hf) as H.
  destruct (call_fn _ _ w) as [[x|e] w1]; cbn [snd] in H.
  - eapply spares_trans; [exact H|by apply spares_resolvePromise].
  - eapply spares_trans; [exact H|by apply spares_reject].
Qed.

Lemma spares_forEach rs : forall w,
  Forall (fun r => reaction_aims q r = false) rs -> spares q ok w (forEach rs w).
Proof.
  induction rs as [|r rs IH]; intros w Hrs; [apply spares_refl|].
  apply Forall_cons in Hrs as [Hr Hrs].
  eapply spares_trans; [by apply spares_run_reaction|]. by apply (IH (run_reaction r w)).
Qed.

Lemma heap_aims_only_write p pr s v r w :
  heap w !! p = Some pr -> heap_aims_only q ok w ->
  heap_aims_only q ok
    (set_heap (<[p:=Promise s v r (resolvedCallbacks pr) (rejectedCallbacks pr)]>
                 (heap w)) w).
Proof.
  intros Hp [Hlt H]. split; [cbn; by rewrite length_insert|].
  intros p' pr'. cbn.
  intros [(-> & <- & _)|[_ Hp']]%list_lookup_insert_Some; [|by apply H].
  by apply (H _ _ Hp).
Qed.

Lemma spared_queue p pr s w :
  heap w !! p = Some pr -> heap_aims_only q ok w -> (forall r, ~ ok p s r) ->
  Forall (fun r => reaction_aims q r = false)
    match s with
    | Fulfil => resolvedCallbacks pr
    | Reject => rejectedCallbacks pr
    end.
Proof.
  intros Hp [_ H] Hno. destruct (H _ _ Hp) as [HF HR].
  destruct s; (eapply Forall_impl; [eassumption|]); cbn; intros r Hr;
    destruct (reaction_aims q r); try done; exfalso; by eapply Hno, Hr.
Qed.

Lemma spares_run_task t w :
  task_aims q t = false ->
  (forall p s r, settles t = Some p -> ~ ok p s r) ->
  spares q ok w (run_task t w).
Proof.
  destruct t as [p v|p r|r|f v]; cbn [run_task task_aims settles]; intros Ht Hno.
  - intros Hw. unfold settle_resolved.
    destruct (heap w !! p) as [pr|] eqn:Hp; [|by apply spares_refl].
    destruct (state pr); try by apply spares_refl.
    apply (spares_forEach (resolvedCallbacks pr) (set_heap _ w)).
    + apply (spared_queue p pr Fulfil w); eauto.
    + by apply heap_aims_only_write.
  - intros Hw. unfold settle_rejected.
    destruct (heap w !! p) as [pr|] eqn:Hp; [|by apply spares_refl].
    destruct (state pr); try by apply spares_refl.
    apply (spares_forEach (rejectedCallbacks pr) (set_heap _ w)).
    + apply (spared_queue p pr Reject w); eauto.
    + by apply heap_aims_only_write.
  - by apply spares_run_reaction.
  - by apply spares_call_fn.
Qed.

Lemma ticks_spares ts : forall w rest,
  timers w = ts ++ rest ->
  Forall (fun t => task_aims q t = false /\
                   forall p s r, settles t = Some p -> ~ ok p s r) ts ->
  heap_aims_only q ok w ->
  heap_aims_only q ok (ticks (length ts) w) /\
  exists more, timers (ticks (length ts) w) = rest ++ more /\ timers_spare q more.
Proof.
  induction ts as [|t ts IH]; intros w rest Ht Hts Hw.
  - split; [done|]. cbn in *. rewrite Ht. apply no_more.
  - apply Forall_cons in Hts as [[Hq Hno] Hts]. cbn [length ticks].
    rewrite (tick_head t (ts ++ rest) w Ht).
    destruct (spares_run_task t (set_timers (ts ++ rest) w) Hq Hno Hw)
      as (Hw' & more & Hm & Fm).
    cbn in Hm. rewrite <- app_assoc in Hm.
    destruct (IH _ _ Hm Hts Hw') as (Hw'' & more' & Hm' & Fm').
    split; [done|]. exists (more ++ more').
    split; [by rewrite Hm', app_assoc|by apply Forall_app].
Qed.

End Spares.

Lemma spare_undisturbed q ts : timers_spare q ts -> undisturbed q ts.
Proof.
  intros H. eapply Forall_impl; [exact H|].
  intros [p v|p r|r|f v]; cbn; try done; intros Hq%Nat.eqb_neq; congruence.
Qed.


(** ** One link of a chain *)

Lemma call_fn_handler h a o w :
  handler_outcome h a = Some o ->
  exists w', call_fn h a w = (o, w') /\ heap w' = heap w /\ timers w' = timers w.
Proof.
  destruct h; cbn; intros [= <-]; eauto.
Qed.

Lemma run_reaction_outcome s p q h w this o s' a' :
  heap w !! p = Some this ->
  handler_outcome h (payload s this) = Some o ->
  outcome_settles q o s' a' ->
  exists pre post,
    timers (run_reaction (Reaction s p q h) w)
    = timers w ++ pre ++ settle_task s' q a' :: post /\
    undisturbed q pre.
Proof.
  intros H Ho Hs. rewrite (run_reaction_unfold _ _ this); [|done].
  cbn [r_handler r_side r_promise2].
  destruct (call_fn_handler _ _ _ w Ho) as (w1 & -> & _ & Ht).
  destruct o as [x|e]; cbn in Hs.
  - destruct (resolvePromise_sync q x s' a' Hs w1) as (pre & post & Ht' & Hu & _).
    exists pre, post. by rewrite Ht', Ht.
  - destruct Hs as [-> ->]. exists [], []. cbn. rewrite Ht. split; [done|constructor].
Qed.

Lemma reaction_aims_own s p q h : reaction_aims q (Reaction s p q h) = true.
Proof. unfold reaction_aims. cbn. by rewrite Nat.eqb_refl. Qed.

(** Draining the queue of the settled [p]: whatever else waits there, the
    first capability call on [q] is the one its own reaction makes. *)
Lemma forEach_fires p q hF hR s a o s' a' L : forall X this,
  heap_aims_only q (link_ok p q hF hR) X ->
  heap X !! p = Some this -> state this <> PENDING -> payload s this = a ->
  handler_outcome (pick s hF hR) a = Some o -> outcome_settles q o s' a' ->
  Forall (fun r => reaction_aims q r = true -> r = Reaction s p q (pick s hF hR)) L ->
  Reaction s p q (pick s hF hR) ∈ L ->
  exists pre post,
    timers (forEach L X) = timers X ++ pre ++ settle_task s' q a' :: post /\
    undisturbed q pre.
Proof.
  induction L as [|r L IH]; intros X this HX Hp Hst Ha Ho Hs HL Hin.
  - by apply elem_of_nil in Hin.
  - apply Forall_cons in HL as [Hr HL].
    change (forEach (r :: L) X) with (forEach L (run_reaction r X)).
    destruct (reaction_aims q r) eqn:Hq.
    + rewrite (Hr eq_refl). subst a.
      destruct (run_reaction_outcome s p q _ X this o s' a' Hp Ho Hs)
        as (pre & post & Ht & Hu).
      destruct (grows_timers _ _ (grows_forEach L
                  (run_reaction (Reaction s p q (pick s hF hR)) X))) as [more Hm].
      exists pre, (post ++ more). split; [|done].
      rewrite Hm, Ht. by rewrite <- !app_assoc.
    + apply elem_of_cons in Hin as [Heq|Hin].
      { rewrite <- Heq, reaction_aims_own in Hq. discriminate. }
      destruct (spares_run_reaction q _ r X Hq HX) as (HX' & more & Hm & Fm).
      pose proof (stable_grows _ _ (grows_run_reaction r X) _ _ Hp Hst) as Hp'.
      destruct (IH _ this HX' Hp' Hst Ha Ho Hs HL Hin) as (pre & post & Ht & Hu).
      exists (more ++ pre), post. split.
      * rewrite Ht, Hm. by rewrite <- !app_assoc.
      * apply Forall_app. split; [by apply spare_undisturbed|done].
Qed.

Lemma settle_task_run s p a w pr :
  heap w !! p = Some pr -> state pr = PENDING ->
  run_task (settle_task s p a) w =
  forEach match s with
          | Fulfil => resolvedCallbacks pr
          | Reject => rejectedCallbacks pr
          end
    (set_heap (<[p:=match s with
                    | Fulfil => Promise RESOLVED a (reason pr)
                                  (resolvedCallbacks pr) (rejectedCallbacks pr)
                    | Reject => Promise REJECTED (value pr) a
                                  (resolvedCallbacks pr) (rejectedCallbacks pr)
                    end]> (heap w)) w).
Proof.
  intros H Hs. destruct s; cbn [settle_task run_task].
  - by apply settle_resolved_pending.
  - by apply settle_rejected_pending.
Qed.

Lemma settles_settle_task s p a : settles (settle_task s p a) = Some p.
Proof. by destruct s. Qed.

(** When the timer that settles [p] is the oldest, the turn that fires it
    makes the handler's verdict the first capability call on [q]; that call's
    own timer will find [q] pending. *)
Lemma link_fires p q hF hR s a o s' a' w :
  linked p q hF hR w -> fires s p a w ->
  handler_outcome (pick s hF hR) a = Some o -> outcome_settles q o s' a' ->
  exists N, fires s' q a' (ticks (S N) w).
Proof.
  intros [Hne Hh Ht (pr & Hp & Hs & HinF & HinR) Hq] [[rest0 Hw] _] Ho Hos.
  rewrite Hw in Ht. apply Forall_cons in Ht as [_ Hrest0].
  set (W0 := set_timers rest0 w).
  assert (tick w = run_task (settle_task s p a) W0) as Htick by (by apply tick_head).
  set (pr' := match s with
              | Fulfil => Promise RESOLVED a (reason pr)
                            (resolvedCallbacks pr) (rejectedCallbacks pr)
              | Reject => Promise REJECTED (value pr) a
                            (resolvedCallbacks pr) (rejectedCallbacks pr)
              end).
  set (W' := set_heap (<[p:=pr']> (heap W0)) W0).
  assert (heap W' !! p = Some pr') as Hp'.
  { cbn. apply list_lookup_insert_eq. by eapply lookup_lt_Some. }
  assert (state pr' <> PENDING) as Hs' by (subst pr'; by destruct s).
  assert (payload s pr' = a) as Ha by (subst pr'; by destruct s).
  assert (heap_aims_only q (link_ok p q hF hR) W') as HW'.
  { subst W' pr'. destruct s; by apply (heap_aims_only_write q _ p pr _ _ _ W0). }
  destruct (forEach_fires p q hF hR s a o s' a'
              match s with
              | Fulfil => resolvedCallbacks pr
              | Reject => rejectedCallbacks pr
              end W' pr' HW' Hp' Hs' Ha Ho Hos) as (pre & post & Htm & Hu).
  { destruct Hh as [_ Hh]. destruct (Hh _ _ Hp) as [HF HR].
    destruct s; (eapply Forall_impl; [eassumption|]); cbn; by intros r Hr [_ ->]%Hr. }
  { by destruct s. }
  assert (tick w = forEach match s with
                           | Fulfil => resolvedCallbacks pr
                           | Reject => rejectedCallbacks pr
                           end W') as Htick'.
  { rewrite Htick. by apply settle_task_run. }
  rewrite <- Htick' in Htm. change (timers W') with rest0 in Htm.
  assert (state_is q PENDING (tick w) = true) as Hq'.
  { rewrite Htick. apply (state_is_keeps q PENDING W0); [|done].
    apply keeps_run_task. rewrite settles_settle_task. congruence. }
  rewrite app_assoc in Htm.
  destruct (ticks_reach q (rest0 ++ pre) (tick w) _ Htm) as [[more Hm] Hk].
  { apply Forall_app. split; [by apply spare_undisturbed|done]. }
  exists (length (rest0 ++ pre)). split; [by eexists|].
  by apply (state_is_keeps q PENDING (tick w)).
Qed.

Lemma fires_settles s p a w : fires s p a w -> forall n, settled_with s p a (ticks (S n) w).
Proof.
  intros [[rest Hw] Hp] n. destruct s.
  - apply (resolve_timer_fulfils p a [] rest w Hw); [constructor|done].
  - apply (reject_timer_rejects p a [] rest w Hw); [constructor|done].
Qed.

Lemma capability_fires s p a w :
  state_is p PENDING w = true -> undisturbed p (timers w) ->
  fires s p a (ticks (length (timers w)) (capability s p a w)).
Proof.
  intros Hp Hu.
  assert (timers (capability s p a w) = timers w ++ [settle_task s p a]) as Ht
    by (by destruct s).
  destruct (ticks_reach p (timers w) _ _ Ht Hu) as [[more Hm] Hk].
  split; [by eexists|]. apply (state_is_keeps p PENDING (capability s p a w)); [done|].
  by destruct s.
Qed.

(** ** Links are made by [then] and last while the parent is pending *)

Lemma state_is_push_rejected p q s r w :
  state_is p s (push_rejected q r w) = state_is p s w.
Proof.
  unfold push_rejected. destruct (heap w !! q) as [qr|] eqn:Hq; [|done].
  unfold state_is. simpl. destruct (decide (q = p)) as [->|Hne].
  - rewrite list_lookup_insert_eq; [|by eapply lookup_lt_Some]. by rewrite Hq.
  - by rewrite list_lookup_insert_ne.
Qed.

Lemma pending_allocated p w : state_is p PENDING w = true -> p < length (heap w).
Proof. intros (pr & H & _)%state_is_spec. by eapply lookup_lt_Some. Qed.

Lemma heap_aims_only_alloc q ok w :
  unaimed q w -> q <= length (heap w) -> heap_aims_only q ok (alloc w).2.
Proof.
  intros [_ H] Hq. split; [cbn; rewrite length_app; cbn; lia|].
  intros p pr. cbn. intros [[_ Hp]|[_ <-]]%lookup_snoc_Some.
  - destruct (H _ _ Hp) as [HF HR].
    split; (eapply Forall_impl; [eassumption|]); cbn; congruence.
  - split; constructor.
Qed.

Lemma linked_then p f g w :
  unaimed (length (heap w)) w -> state_is p PENDING w = true ->
  linked p (length (heap w)) (as_handler f FIdentity) (as_handler g FRethrow)
    (then_ p f g w).2.
Proof.
  intros Hun Hp. pose proof (pending_allocated _ _ Hp) as Hlt.
  destruct (proj1 (state_is_spec _ _ _) Hp) as (pr & H & Hs).
  destruct (then_pending_spec p f g w pr H Hs) as (H' & Ht & _ & _).
  rewrite then_pending in *; [|done..]. cbn [snd] in *.
  set (q := length (heap w)) in *.
  set (hF := as_handler f FIdentity) in *. set (hR := as_handler g FRethrow) in *.
  split.
  - lia.
  - apply heap_aims_only_push_rejected; [by intros _|].
    apply heap_aims_only_push_resolved; [by intros _|].
    by apply heap_aims_only_alloc.
  - rewrite Ht. apply Hun.
  - eexists. split; [exact H'|]. split; [done|]. cbn.
    split; apply elem_of_app; right; by apply list_elem_of_singleton.
  - rewrite state_is_push_rejected, state_is_push_resolved. apply state_is_alloc.
Qed.

Lemma linked_grows p q hF hR w w' :
  linked p q hF hR w -> spares q (link_ok p q hF hR) w w' -> grows w w' ->
  linked p q hF hR w'.
Proof.
  intros [Hne Hh Ht (pr & Hp & Hs & HinF & HinR) Hq] Hsp Hg.
  destruct (Hsp Hh) as (Hh' & more & Hm & Fm). split; [done|done| | |].
  - rewrite Hm. by apply Forall_app.
  - destruct (grows_heap _ _ Hg _ _ Hp) as (pr' & Hp' & ((S1 & _) & PF & PR) & _).
    exists pr'. split; [done|]. split; [congruence|].
    split; by eapply elem_of_prefix.
  - apply (state_is_keeps q PENDING w); [by apply keeps_grows|done].
Qed.

Lemma linked_then_other p q hF hR this f g w :
  linked p q hF hR w ->
  fn_aims q (as_handler f FIdentity) = false ->
  fn_aims q (as_handler g FRethrow) = false ->
  linked p q hF hR (then_ this f g w).2.
Proof.
  intros Hl Hf Hg. eapply linked_grows; [exact Hl| |apply quiet_grows, quiet_then].
  by apply spares_then.
Qed.

Lemma linked_capability p q hF hR s p' a w :
  linked p q hF hR w -> p' <> q -> linked p q hF hR (capability s p' a w).
Proof.
  intros Hl Hne. eapply linked_grows; [exact Hl| |].
  - destruct s; [by apply spares_resolve|by apply spares_reject].
  - destruct s; apply quiet_grows, quiet_nextTick.
Qed.

Lemma allocated_run_task p t w :
  is_Some (heap w !! p) -> is_Some (heap (run_task t w) !! p).
Proof.
  intros [pr Hp].
  assert (forall w', grows w w' -> is_Some (heap w' !! p)) as Hg.
  { intros w' Hw'. destruct (grows_heap _ _ Hw' _ _ Hp) as (pr' & Hp' & _). eauto. }
  assert (forall p' pr' rs, is_Some (heap (forEach rs
            (set_heap (<[p':=pr']> (heap w)) w)) !! p)) as Hw.
  { intros p' pr' rs.
    assert (is_Some (heap (set_heap (<[p':=pr']> (heap w)) w) !! p)) as [pr'' Hp''].
    { cbn. apply list_lookup_insert_is_Some. eauto. }
    destruct (grows_heap _ _ (grows_forEach rs _) _ _ Hp'') as (? & ? & _). eauto. }
  destruct t as [p' v|p' r|r|f v]; cbn [run_task].
  - unfold settle_resolved. destruct (heap w !! p') as [pr'|]; [|eauto].
    destruct (state pr'); eauto.
  - unfold settle_rejected. destruct (heap w !! p') as [pr'|]; [|eauto].
    destruct (state pr'); eauto.
  - apply Hg, grows_run_reaction.
  - apply Hg, grows_call_fn.
Qed.

Lemma allocated_tick p w : is_Some (heap w !! p) -> is_Some (heap (tick w) !! p).
Proof.
  intros H. unfold tick. destruct (timers w) as [|t rest]; [done|].
  by apply (allocated_run_task p t (set_timers rest w)).
Qed.

(** Settled is for ever, so pending now means pending before. *)
Lemma pending_before p n w :
  is_Some (heap w !! p) -> state_is p PENDING (ticks n w) = true ->
  state_is p PENDING w = true.
Proof.
  intros [pr Hp] (pr' & Hp' & Hs')%state_is_spec.
  apply state_is_spec. exists pr. split; [done|].
  destruct (state pr) eqn:Hs; [done|..];
    assert (state pr <> PENDING) as Hne by (by rewrite Hs);
    pose proof (stable_ticks n w p pr Hp Hne); congruence.
Qed.

Lemma linked_tick p q hF hR w :
  linked p q hF hR w -> state_is p PENDING (tick w) = true ->
  linked p q hF hR (tick w).
Proof.
  intros Hl Hp'. unfold tick in *. destruct (timers w) as [|t rest] eqn:Hw; [done|].
  destruct Hl as [Hne Hh Ht (pr & Hp & Hs & HinF & HinR) Hq].
  rewrite Hw in Ht. apply Forall_cons in Ht as [Hqt Hrest].
  set (W0 := set_timers rest w) in *.
  assert (settles t <> Some p) as Hnp.
  { intros Hsp. destruct t as [p0 v|p0 r| |]; try discriminate;
      injection Hsp as ->; cbn [run_task] in Hp'.
    - destruct (settle_resolved_fulfils p v W0) as (pr1 & H1 & S1 & _);
        [apply state_is_spec; eauto|].
      apply state_is_spec in Hp' as (pr2 & H2 & S2). congruence.
    - destruct (settle_rejected_rejects p r W0) as (pr1 & H1 & S1 & _);
        [apply state_is_spec; eauto|].
      apply state_is_spec in Hp' as (pr2 & H2 & S2). congruence. }
  destruct (spares_run_task q (link_ok p q hF hR) t W0 Hqt) as (Hh' & more & Hm & Fm);
    [by intros p0 s r Hs0 [-> _]|done|].
  split; [done|done| | |].
  - rewrite Hm. by apply Forall_app.
  - destruct (keeps_run_task p t W0 Hnp pr Hp) as (pr' & Hpr' & (S1 & _) & PF & PR).
    exists pr'. split; [done|]. split; [congruence|].
    split; by eapply elem_of_prefix.
  - apply (state_is_keeps q PENDING W0); [|done]. apply keeps_run_task.
    destruct t as [p0 v|p0 r| |]; cbn in *; try done;
      apply Nat.eqb_neq in Hqt; congruence.
Qed.

Lemma linked_ticks p q hF hR n : forall w,
  linked p q hF hR w -> state_is p PENDING (ticks n w) = true ->
  linked p q hF hR (ticks n w).
Proof.
  induction n as [|n IH]; intros w Hl Hp; [done|]. cbn [ticks] in *.
  apply IH; [|done]. apply linked_tick; [done|].
  apply (pending_before p n); [|done]. apply allocated_tick.
  destruct Hl as [_ _ _ (pr & Hpr & _) _]. eauto.
Qed.

(** ** Addresses not yet allocated *)

Lemma unaimed_alloc q w : unaimed q w -> unaimed q (alloc w).2.
Proof.
  intros [Ht H]. split; [done|]. intros p pr. cbn.
  intros [[_ Hp]|[_ <-]]%lookup_snoc_Some; [by apply (H p)|]. split; constructor.
Qed.

Lemma unaimed_nextTick q t w :
  task_aims q t = false -> unaimed q w -> unaimed q (nextTick t w).
Proof.
  intros Hq [Ht H]. split; [|done]. cbn. apply Forall_app. split; [done|].
  by constructor.
Qed.

Lemma unaimed_push_resolved q p r w :
  reaction_aims q r = false -> unaimed q w -> unaimed q (push_resolved p r w).
Proof.
  intros Hr [Ht H]. split; [by rewrite timers_push_resolved|].
  unfold push_resolved. destruct (heap w !! p) as [pr|] eqn:Hp; [|done].
  intros p' pr'. cbn.
  intros [(-> & <- & _)|[_ Hp']]%list_lookup_insert_Some; [|by apply (H p')].
  destruct (H _ _ Hp) as [HF HR]. cbn. split; [|done].
  apply Forall_app. split; [done|]. by constructor.
Qed.

Lemma unaimed_push_rejected q p r w :
  reaction_aims q r = false -> unaimed q w -> unaimed q (push_rejected p r w).
Proof.
  intros Hr [Ht H]. split; [by rewrite timers_push_rejected|].
  unfold push_rejected. destruct (heap w !! p) as [pr|] eqn:Hp; [|done].
  intros p' pr'. cbn.
  intros [(-> & <- & _)|[_ Hp']]%list_lookup_insert_Some; [|by apply (H p')].
  destruct (H _ _ Hp) as [HF HR]. cbn. split; [done|].
  apply Forall_app. split; [done|]. by constructor.
Qed.

Lemma unaimed_then q this f g w :
  unaimed q w -> q <> length (heap w) ->
  fn_aims q (as_handler f FIdentity) = false ->
  fn_aims q (as_handler g FRethrow) = false ->
  unaimed q (then_ this f g w).2.
Proof.
  intros Hw Hne Hf Hg.
  assert (forall s h, fn_aims q h = false ->
            reaction_aims q (Reaction s this (length (heap w)) h) = false) as Hr.
  { intros s h Hh. unfold reaction_aims. cbn. rewrite Hh, orb_false_r.
    apply Nat.eqb_neq. lia. }
  rewrite then_unfold. cbn [snd]. apply unaimed_alloc in Hw.
  destruct (heap (alloc w).2 !! this) as [pr|]; [|done].
  destruct (state pr).
  - apply unaimed_push_rejected; [by apply Hr|].
    apply unaimed_push_resolved; [by apply Hr|done].
  - apply unaimed_nextTick; [by apply Hr|done].
  - apply unaimed_nextTick; [by apply Hr|done].
Qed.

Lemma length_heap_push_resolved p r w :
  length (heap (push_resolved p r w)) = length (heap w).
Proof.
  unfold push_resolved. destruct (heap w !! p); [|done]. cbn. apply length_insert.
Qed.

Lemma length_heap_push_rejected p r w :
  length (heap (push_rejected p r w)) = length (heap w).
Proof.
  unfold push_rejected. destruct (heap w !! p); [|done]. cbn. apply length_insert.
Qed.

Lemma length_heap_then this f g w :
  length (heap (then_ this f g w).2) = S (length (heap w)).
Proof.
  rewrite then_unfold. cbn [snd].
  assert (length (heap (alloc w).2) = S (length (heap w))) as Ha.
  { cbn. rewrite length_app. cbn. lia. }
  destruct (heap (alloc w).2 !! this) as [pr|]; [|exact Ha].
  destruct (state pr); [|exact Ha..].
  by rewrite length_heap_push_rejected, length_heap_push_resolved.
Qed.

Lemma closed_empty : closed empty_world.
Proof. intros q _. split; [constructor|]. by intros p pr. Qed.

Lemma closed_then this f g w :
  closed w ->
  (forall q, fn_aims q (as_handler f FIdentity) = false) ->
  (forall q, fn_aims q (as_handler g FRethrow) = false) ->
  closed (then_ this f g w).2.
Proof.
  intros Hw Hf Hg q Hq. rewrite length_heap_then in Hq.
  apply unaimed_then; [apply Hw; lia|lia|done..].
Qed.

Lemma closed_capability s p a w :
  closed w -> p < length (heap w) -> closed (capability s p a w).
Proof.
  intros Hw Hp q Hq.
  assert (heap (capability s p a w) = heap w) as Hh by (by destruct s).
  rewrite Hh in Hq. destruct (Hw q Hq) as [Ht H].
  assert (task_aims q (settle_task s p a) = false) as Hta.
  { destruct s; cbn; apply Nat.eqb_neq; lia. }
  destruct s; by apply unaimed_nextTick.
Qed.

Lemma capabilities_spec this q cs : forall w,
  heap (foldl (fun w c => capability c.1 this c.2 w) w cs) = heap w /\
  (unaimed q w -> this <> q ->
   unaimed q (foldl (fun w c => capability c.1 this c.2 w) w cs)).
Proof.
  induction cs as [|[s v] cs IH]; intros w; [done|]. cbn [foldl fst snd].
  destruct (IH (capability s this v w)) as [Hh Hu]. split.
  - rewrite Hh. by destruct s.
  - intros Hw Hne. apply Hu; [|done].
    destruct s; apply unaimed_nextTick; try done; cbn; by apply Nat.eqb_neq.
Qed.

Lemma closed_construct ex w : closed w -> closed (construct ex w).2.
Proof.
  intros Hw q. unfold construct. cbn [alloc].
  set (this := length (heap w)). set (w0 := set_heap (heap w ++ [fresh_promise]) w).
  destruct (capabilities_spec this q (ex_calls ex) w0) as [Hh Hu].
  assert (length (heap w0) = S this) as Hlen.
  { subst w0 this. cbn. rewrite length_app. cbn. lia. }
  assert (S this <= q ->
          unaimed q (foldl (fun w c => capability c.1 this c.2 w) w0 (ex_calls ex)))
    as Hfold.
  { intros Hq. apply Hu; [|lia]. apply (unaimed_alloc q w). apply Hw.
    subst this. lia. }
  destruct (ex_raise ex) as [e|]; cbn [snd]; intros Hq.
  - change (heap (reject this e ?w1)) with (heap w1) in Hq.
    rewrite Hh, Hlen in Hq. apply unaimed_nextTick; [|by apply Hfold].
    cbn. apply Nat.eqb_neq. lia.
  - rewrite Hh, Hlen in Hq. by apply Hfold.
Qed.

(** ** Closed worlds stay closed *)

Lemma grows_length w w' : grows w w' -> length (heap w) <= length (heap w').
Proof.
  intros Hg. destruct (decide (length (heap w) <= length (heap w'))); [done|].
  destruct (lookup_lt_is_Some_2 (heap w) (length (heap w'))) as [pr Hp]; [lia|].
  destruct (grows_heap _ _ Hg _ _ Hp) as (pr' & Hp' & _).
  apply lookup_lt_Some in Hp'. lia.
Qed.

Lemma quiet_call_then c promise2 body : forall w,
  quiet w (call_then (FAdoptFulfill c promise2) (FAdoptReject c promise2) body w).
Proof.
  induction body as [|[[[] []] y] rest IH]; intros w; cbn [call_then call_fn snd];
    [apply quiet_refl|..]; (eapply quiet_trans; [|apply IH]).
  - destruct (called c w); [apply quiet_refl|].
    eapply quiet_trans; [apply quiet_mark|apply quiet_resolvePromise].
  - destruct (called c w); [apply quiet_refl|].
    eapply quiet_trans; [apply quiet_mark|apply quiet_reject].
  - apply quiet_nextTick.
  - apply quiet_nextTick.
Qed.

Section Spared.

Variable q : ref.

Lemma spared_refl w : spared q w w.
Proof. by intros H _. Qed.

Lemma spared_trans w1 w2 w3 :
  spared q w1 w2 -> spared q w2 w3 -> grows w2 w3 -> spared q w1 w3.
Proof.
  intros H1 H2 Hg Hu Hq. apply H2; [|done]. apply H1; [done|].
  apply grows_length in Hg. lia.
Qed.

Lemma spared_same w w' :
  heap w' = heap w -> timers w' = timers w -> spared q w w'.
Proof. intros Hh Ht [Hu1 Hu2] _. split; [by rewrite Ht|by rewrite Hh]. Qed.

Lemma spared_nextTick t w : task_aims q t = false -> spared q w (nextTick t w).
Proof. intros Ht Hu _. by apply unaimed_nextTick. Qed.

Lemma spared_then this f g w :
  fn_aims q (as_handler f FIdentity) = false ->
  fn_aims q (as_handler g FRethrow) = false ->
  spared q w (then_ this f g w).2.
Proof.
  intros Hf Hg Hu Hq. rewrite length_heap_then in Hq.
  apply unaimed_then; [done|lia|done..].
Qed.

Lemma spared_catch c promise2 e w : promise2 <> q -> spared q w (catch_ c promise2 e w).
Proof.
  intros Hne. unfold catch_. destruct (called c w); [apply spared_refl|].
  intros Hu _. apply unaimed_nextTick; [cbn; by apply Nat.eqb_neq|done].
Qed.

Lemma spared_call_then_adopt c promise2 body :
  promise2 <> q ->
  list_all _ (prod_all _ (fun _ => unit) _
                (fun y => forall p2 w, p2 <> q -> spared q w (resolvePromise p2 y w)))
    body ->
  forall w, spared q w
              (call_then (FAdoptFulfill c promise2) (FAdoptReject c promise2) body w).
Proof.
  intros Hne. induction 1 as [|a Ha rest _ IH]; intros w; [apply spared_refl|].
  destruct Ha as [[t s] _ y IHy].
  assert (Nat.eqb promise2 q = false) as Hq by (by apply Nat.eqb_neq).
  destruct t, s; cbn [call_then call_fn snd];
    (eapply spared_trans; [|apply IH|apply quiet_grows, quiet_call_then]).
  - destruct (called c w); [apply spared_refl|].
    eapply spared_trans; [apply (spared_same w (mark c w)); done|by apply IHy|].
    apply quiet_grows, quiet_resolvePromise.
  - destruct (called c w); [apply spared_refl|].
    intros Hu _. apply unaimed_nextTick; [exact Hq|done].
  - by apply spared_nextTick.
  - by apply spared_nextTick.
Qed.

Lemma spared_resolvePromise x : forall promise2 w,
  promise2 <> q -> spared q w (resolvePromise promise2 x w).
Proof.
  assert (forall p v w, p <> q -> spared q w (resolve p v (new_cell w).2)) as Hres.
  { intros p v w Hne Hu _. apply unaimed_nextTick; [cbn; by apply Nat.eqb_neq|done]. }
  induction x as [| | | | | | | |p|e IHe|body IHbody raise IHraise];
    intros promise2 w Hne; rewrite resolvePromise_unfold;
    destruct (same_promise _ _);
    try (intros Hu _; apply unaimed_nextTick; [cbn; by apply Nat.eqb_neq|done]);
    cbn [new_cell isObject isFunction typeof orb]; try (by apply Hres).
  - eapply spared_trans; [apply (spared_same w (new_cell w).2); done| |].
    + apply spared_then; cbn; by apply Nat.eqb_neq.
    + apply quiet_grows, quiet_then.
  - eapply spared_trans; [apply (spared_same w (new_cell w).2); done| |].
    + by apply spared_catch.
    + apply quiet_grows, quiet_catch.
  - cbv zeta.
    eapply spared_trans; [apply (spared_same w (new_cell w).2); done| |].
    + eapply spared_trans; [by apply spared_call_then_adopt| |].
      * destruct raise; [by apply spared_catch|apply spared_refl].
      * destruct raise; [apply quiet_grows, quiet_catch|apply grows_refl].
    + eapply grows_trans; [apply quiet_grows, quiet_call_then|].
      destruct raise; [apply quiet_grows, quiet_catch|apply grows_refl].
Qed.

Lemma spared_call_fn f arg w : fn_aims q f = false -> spared q w (call_fn f arg w).2.
Proof.
  destruct f as [id| | |c p2|c p2]; cbn [call_fn snd fn_aims];
    intros Hf; try apply spared_refl.
  - by apply spared_same.
  - apply Nat.eqb_neq in Hf. destruct (called c w); [apply spared_refl|].
    eapply spared_trans; [apply (spared_same w (mark c w)); done| |].
    + by apply spared_resolvePromise.
    + apply quiet_grows, quiet_resolvePromise.
  - destruct (called c w); [apply spared_refl|].
    intros Hu _. apply unaimed_nextTick; [exact Hf|done].
Qed.

Lemma spared_run_reaction r w : reaction_aims q r = false -> spared q w (run_reaction r w).
Proof.
  intros [Hp Hf]%orb_false_elim. apply Nat.eqb_neq in Hp.
  unfold run_reaction. destruct (heap w !! r_this r) as [this|]; [|apply spared_refl].
  pose proof (spared_call_fn (r_handler r)
                (match r_side r with Fulfil => value this | Reject => reason this end)
                w Hf) as H.
  destruct (call_fn _ _ w) as [[x|e] w1]; cbn [snd] in H.
  - eapply spared_trans; [exact H|by apply spared_resolvePromise|].
    apply quiet_grows, quiet_resolvePromise.
  - eapply spared_trans; [exact H| |apply quiet_grows, quiet_reject].
    intros Hu _. apply unaimed_nextTick; [cbn; by apply Nat.eqb_neq|done].
Qed.

Lemma spared_forEach rs : forall w,
  Forall (fun r => reaction_aims q r = false) rs -> spared q w (forEach rs w).
Proof.
  induction rs as [|r rs IH]; intros w Hrs; [apply spared_refl|].
  apply Forall_cons in Hrs as [Hr Hrs].
  eapply spared_trans; [by apply spared_run_reaction| |].
  - by apply (IH (run_reaction r w)).
  - apply (grows_forEach rs (run_reaction r w)).
Qed.

Lemma unaimed_write p pr s v r w :
  heap w !! p = Some pr -> unaimed q w ->
  unaimed q (set_heap (<[p:=Promise s v r (resolvedCallbacks pr)
                               (rejectedCallbacks pr)]> (heap w)) w).
Proof.
  intros Hp [Ht H]. split; [done|]. intros p' pr'. cbn.
  intros [(-> & <- & _)|[_ Hp']]%list_lookup_insert_Some.
  - exact (H p' pr Hp).
  - exact (H p' pr' Hp').
Qed.

Lemma spared_run_task t w : task_aims q t = false -> spared q w (run_task t w).
Proof.
  destruct t as [p v|p r|r|f v]; cbn [run_task task_aims]; intros Ht.
  - unfold settle_resolved.
    destruct (heap w !! p) as [pr|] eqn:Hp; [|by apply spared_refl].
    destruct (state pr); try by apply spared_refl.
    intros Hu Hq.
    apply (spared_forEach (resolvedCallbacks pr) (set_heap _ w)); [|by apply unaimed_write|done].
    destruct Hu as [_ Hu]. by apply (Hu p pr).
  - unfold settle_rejected.
    destruct (heap w !! p) as [pr|] eqn:Hp; [|by apply spared_refl].
    destruct (state pr); try by apply spared_refl.
    intros Hu Hq.
    apply (spared_forEach (rejectedCallbacks pr) (set_heap _ w)); [|by apply unaimed_write|done].
    destruct Hu as [_ Hu]. by apply (Hu p pr).
  - by apply spared_run_reaction.
  - by apply spared_call_fn.
Qed.

End Spared.

Lemma length_heap_run_task t w : length (heap w) <= length (heap (run_task t w)).
Proof.
  assert (forall p pr rs, length (heap w) <=
            length (heap (forEach rs (set_heap (<[p:=pr]> (heap w)) w)))) as Hw.
  { intros p pr rs.
    pose proof (grows_length _ _ (grows_forEach rs (set_heap (<[p:=pr]> (heap w)) w))) as H.
    cbn in H. by rewrite length_insert in H. }
  destruct t as [p v|p r|r|f v]; cbn [run_task].
  - unfold settle_resolved. destruct (heap w !! p) as [pr|]; [|done].
    destruct (state pr); first [done | apply Hw].
  - unfold settle_rejected. destruct (heap w !! p) as [pr|]; [|done].
    destruct (state pr); first [done | apply Hw].
  - apply grows_length, grows_run_reaction.
  - apply grows_length, grows_call_fn.
Qed.

Lemma closed_tick w : closed w -> closed (tick w).
Proof.
  intros Hc. unfold tick. destruct (timers w) as [|t rest] eqn:Ht; [done|].
  intros q Hq.
  pose proof (length_heap_run_task t (set_timers rest w)) as Hlen. cbn [heap set_timers] in Hlen.
  destruct (Hc q) as [Hts Hh]; [lia|]. rewrite Ht in Hts.
  apply Forall_cons in Hts as [Hqt Hrest].
  apply spared_run_task; [done| |done]. by split.
Qed.

Lemma caller_value_aims q v dflt :
  caller_value v = true -> fn_aims q dflt = false -> fn_aims q (as_handler v dflt) = false.
Proof.
  intros Hv Hd. unfold as_handler. destruct (isFunction v); [|done].
  destruct v as [| | | | | | |[]| | |]; try done.
Qed.

Lemma reachable_closed w : reachable w -> closed w.
Proof.
  induction 1 as [|ex w _ IH|p f r w _ IH Hp Hf Hr|p v w _ IH Hp|p r w _ IH Hp|w _ IH].
  - apply closed_empty.
  - by apply closed_construct.
  - apply closed_then; [done|..]; intros q; by apply caller_value_aims.
  - by apply (closed_capability Fulfil).
  - by apply (closed_capability Reject).
  - by apply closed_tick.
Qed.

(** ** A link made on a settled promise *)

Lemma settled_with_spec s p a w :
  settled_with s p a w <->
  exists pr, heap w !! p = Some pr /\ payload s pr = a /\
             state pr = match s with Fulfil => RESOLVED | Reject => REJECTED end.
Proof.
  destruct s; cbn; unfold fulfilled_with, rejected_with; split;
    intros (pr & H & H1 & H2); exists pr; by repeat split.
Qed.

Lemma then_settled s p a f g w :
  settled_with s p a w ->
  then_ p f g w =
  (length (heap w),
   nextTick (TReaction (Reaction s p (length (heap w))
                          (pick s (as_handler f FIdentity) (as_handler g FRethrow))))
     (alloc w).2).
Proof.
  intros (pr & H & _ & Hs)%settled_with_spec.
  destruct s; [by eapply then_fulfilled|by eapply then_rejected].
Qed.

Lemma then_settled_fires s p a f g w o s' a' :
  settled_with s p a w -> unaimed (length (heap w)) w ->
  handler_outcome (pick s (as_handler f FIdentity) (as_handler g FRethrow)) a = Some o ->
  outcome_settles (length (heap w)) o s' a' ->
  exists N, fires s' (length (heap w)) a' (ticks N (then_ p f g w).2).
Proof.
  intros Hset Hun Ho Hos. rewrite (then_settled s p a); [|done]. cbn [snd].
  apply settled_with_spec in Hset as (pr & Hp & Ha & Hs).
  set (q := length (heap w)) in *.
  set (R := Reaction s p q _).
  set (w1 := nextTick (TReaction R) (alloc w).2).
  assert (timers w1 = timers w ++ [TReaction R]) as Ht by done.
  assert (state_is q PENDING w1 = true) as Hq by apply state_is_alloc.
  assert (heap w1 !! p = Some pr) as Hp1 by exact (lookup_alloc _ _ _ Hp).
  assert (state pr <> PENDING) as Hne by (rewrite Hs; by destruct s).
  destruct Hun as [Hsp Hheap].
  destruct (ticks_spares q never (timers w) w1 _ Ht) as (HW & more & Hm & Fm).
  { eapply Forall_impl; [exact Hsp|]. cbn. intros t Hta. split; [done|].
    by intros p0 s0 r0 _ []. }
  { apply (heap_aims_only_alloc q never w); [by split|done]. }
  destruct (ticks_reach q (timers w) w1 _ Ht (spare_undisturbed _ _ Hsp)) as [_ Hk].
  set (W := ticks (length (timers w)) w1) in *.
  pose proof (stable_ticks (length (timers w)) w1 p pr Hp1 Hne) as HpW.
  fold W in HpW.
  assert (tick W = run_reaction R (set_timers more W)) as Htick
    by exact (tick_head (TReaction R) more W Hm).
  destruct (run_reaction_outcome s p q
              (pick s (as_handler f FIdentity) (as_handler g FRethrow))
              (set_timers more W) pr o s' a' HpW)
    as (pre & post & Htm & Hu); [by rewrite Ha|done|].
  fold R in Htm.
  rewrite <- Htick in Htm. cbn [timers set_timers] in Htm.
  assert (state_is q PENDING (tick W) = true) as Hq'.
  { rewrite Htick. apply (state_is_keeps q PENDING (set_timers more W)).
    - apply keeps_grows, grows_run_reaction.
    - by apply (state_is_keeps q PENDING w1). }
  rewrite app_assoc in Htm.
  destruct (ticks_reach q (more ++ pre) (tick W) _ Htm) as [[more' Hm'] Hk'].
  { apply Forall_app. split; [by apply spare_undisturbed|done]. }
  exists (length (timers w) + S (length (more ++ pre))).
  rewrite ticks_add. cbn [ticks]. fold W.
  split; [by eexists|]. by apply (state_is_keeps q PENDING (tick W)).
Qed.

(** ** Chains *)

Lemma timers_capability s p a w :
  timers (capability s p a w) = timers w ++ [settle_task s p a].
Proof. by destruct s. Qed.

Lemma state_is_capability q st s p a w :
  state_is q st (capability s p a w) = state_is q st w.
Proof. by destruct s. Qed.

Lemma construct_call s a w :
  construct (Executor [(s, a)] None) w
  = (length (heap w), capability s (length (heap w)) a (alloc w).2).
Proof. done. Qed.

Lemma queued_fires s p a ts rest w :
  timers w = ts ++ settle_task s p a :: rest -> undisturbed p ts ->
  state_is p PENDING w = true ->
  fires s p a (ticks (length ts) w).
Proof.
  intros Ht Hu Hp. destruct (ticks_reach p ts w _ Ht Hu) as [[more Hm] Hk].
  split; [by eexists|]. by apply (state_is_keeps p PENDING w).
Qed.

Lemma settled_with_later s p a n m w :
  (forall k, settled_with s p a (ticks (S n + k) w)) -> n < m ->
  settled_with s p a (ticks m w).
Proof.
  intros H Hlt. replace m with (S n + (m - S n)) by lia. apply H.
Qed.

Lemma fires_settles_from s p a n w :
  fires s p a (ticks n w) -> forall k, settled_with s p a (ticks (S n + k) w).
Proof.
  intros Hf k. replace (S n + k) with (n + S k) by lia. rewrite ticks_add.
  by apply fires_settles.
Qed.

(** One link: when [p] is about to be settled, the promise returned by
    [then] is settled as the handler's outcome says. *)
Lemma chain1 p q hF hR s a o s' a' n w :
  linked p q hF hR w -> fires s p a (ticks n w) ->
  handler_outcome (pick s hF hR) a = Some o -> outcome_settles q o s' a' ->
  exists n', n < n' /\ fires s' q a' (ticks n' w).
Proof.
  intros Hl Hf Ho Hos.
  assert (linked p q hF hR (ticks n w)) as Hl' by (apply linked_ticks; [done|apply Hf]).
  destruct (link_fires p q hF hR s a o s' a' _ Hl' Hf Ho Hos) as [N HN].
  exists (n + S N). split; [lia|]. by rewrite ticks_add.
Qed.

Lemma fn_aims_as_handler_user q f dflt :
  fn_aims q dflt = false -> fn_aims q (as_handler (VFunction (FUser f)) dflt) = false.
Proof. done. Qed.

Lemma fn_aims_as_handler_default q v dflt :
  isFunction v = false -> fn_aims q dflt = false -> fn_aims q (as_handler v dflt) = false.
Proof. intros Hv Hd. by rewrite as_handler_default. Qed.

Lemma fst_then this f g w : (then_ this f g w).1 = length (heap w).
Proof. by rewrite then_unfold. Qed.

Lemma timers_then_pending this f g w :
  state_is this PENDING w = true -> timers (then_ this f g w).2 = timers w.
Proof.
  intros (pr & H & Hs)%state_is_spec.
  by destruct (then_pending_spec this f g w pr H Hs) as (_ & Ht & _).
Qed.

Lemma state_is_then p s this f g w :
  state_is p s w = true -> state_is p s (then_ this f g w).2 = true.
Proof. apply state_is_keeps, keeps_grows, quiet_grows, quiet_then. Qed.

(** The promise returned by [then] is settled according to what its handler
    does, whether the parent is settled already or settled later. *)
Lemma then_outcome s p a f g o s' a' w :
  closed w ->
  fn_aims (length (heap w)) (as_handler f FIdentity) = false ->
  fn_aims (length (heap w)) (as_handler g FRethrow) = false ->
  handler_outcome (pick s (as_handler f FIdentity) (as_handler g FRethrow)) a = Some o ->
  outcome_settles (length (heap w)) o s' a' ->
  (settled_with s p a w ->
   exists N, forall n,
     settled_with s' (length (heap w)) a' (ticks (N + n) (then_ p f g w).2)) /\
  (state_is p PENDING w = true -> undisturbed p (timers w) ->
   exists N, forall n,
     settled_with s p a (ticks (N + n) (capability s p a (then_ p f g w).2)) /\
     settled_with s' (length (heap w)) a'
       (ticks (N + n) (capability s p a (then_ p f g w).2))).
Proof.
  intros Hc Hf Hg Ho Hos. split.
  - intros Hset.
    destruct (then_settled_fires s p a f g w o s' a' Hset (Hc _ (le_n _)) Ho Hos)
      as [N HN].
    exists (S N). intros n. by apply fires_settles_from.
  - intros Hp Hu. set (W := capability s p a (then_ p f g w).2).
    assert (linked p (length (heap w)) (as_handler f FIdentity)
              (as_handler g FRethrow) W) as Hl.
    { apply linked_capability; [apply linked_then; [apply Hc|]; done|].
      apply pending_allocated in Hp. lia. }
    assert (fires s p a (ticks (length (timers w)) W)) as Hfire.
    { apply (queued_fires s p a (timers w) []); [|done|].
      - subst W. by rewrite timers_capability, timers_then_pending.
      - subst W. rewrite state_is_capability. by apply state_is_then. }
    destruct (chain1 _ _ _ _ s a o s' a' _ W Hl Hfire Ho Hos) as (n' & Hlt & Hfire').
    exists (S n'). intros n. split.
    + apply (settled_with_later s p a (length (timers w))); [|lia].
      by apply fires_settles_from.
    + by apply fires_settles_from.
Qed.

(** Two links made in one turn on a pending promise. *)
Lemma links2 p f1 g1 f2 g2 w :
  closed w -> state_is p PENDING w = true ->
  (forall q, fn_aims q (as_handler f1 FIdentity) = false) ->
  (forall q, fn_aims q (as_handler g1 FRethrow) = false) ->
  (forall q, fn_aims q (as_handler f2 FIdentity) = false) ->
  (forall q, fn_aims q (as_handler g2 FRethrow) = false) ->
  let q1 := length (heap w) in
  let q2 := S (length (heap w)) in
  let w2 := (then_ q1 f2 g2 (then_ p f1 g1 w).2).2 in
  linked p q1 (as_handler f1 FIdentity) (as_handler g1 FRethrow) w2 /\
  linked q1 q2 (as_handler f2 FIdentity) (as_handler g2 FRethrow) w2 /\
  timers w2 = timers w /\ state_is p PENDING w2 = true.
Proof.
  intros Hc Hp Hf1 Hg1 Hf2 Hg2. cbn zeta.
  pose proof (linked_then p f1 g1 w (Hc _ (le_n _)) Hp) as Hl1.
  pose proof (closed_then p f1 g1 w Hc Hf1 Hg1) as Hc1.
  pose proof (linked_pending _ _ _ _ _ Hl1) as Hq1.
  pose proof (linked_then (length (heap w)) f2 g2 _ (Hc1 _ (le_n _)) Hq1) as Hl2.
  rewrite length_heap_then in Hl2.
  split; [by apply linked_then_other|]. split; [done|]. split.
  - rewrite timers_then_pending; [|done]. by apply timers_then_pending.
  - by apply state_is_then, state_is_then.
Qed.

Lemma chain2 p q1 q2 h1F h1R h2F h2R s a o1 s1 a1 o2 s2 a2 n w :
  linked p q1 h1F h1R w -> linked q1 q2 h2F h2R w ->
  fires s p a (ticks n w) ->
  handler_outcome (pick s h1F h1R) a = Some o1 -> outcome_settles q1 o1 s1 a1 ->
  handler_outcome (pick s1 h2F h2R) a1 = Some o2 -> outcome_settles q2 o2 s2 a2 ->
  exists N, forall k,
    settled_with s p a (ticks (N + k) w) /\
    settled_with s1 q1 a1 (ticks (N + k) w) /\
    settled_with s2 q2 a2 (ticks (N + k) w).
Proof.
  intros Hl1 Hl2 Hfire Ho1 Hos1 Ho2 Hos2.
  destruct (chain1 _ _ _ _ s a o1 s1 a1 _ w Hl1 Hfire Ho1 Hos1) as (n1 & Hlt1 & Hfire1).
  destruct (chain1 _ _ _ _ s1 a1 o2 s2 a2 _ w Hl2 Hfire1 Ho2 Hos2)
    as (n2 & Hlt2 & Hfire2).
  exists (S n2). intros k. split; [|split].
  - apply (settled_with_later s p a n); [|lia]. by apply fires_settles_from.
  - apply (settled_with_later s1 q1 a1 n1); [|lia]. by apply fires_settles_from.
  - by apply fires_settles_from.
Qed.

(** ** Properties of the library *)

(** C2, amended.  Resolving a deferred promise with itself fulfils it with
    itself: the capability does not look at the value.  The cycle check is
    made where [then] resolves [promise2]: if the handler that [then] runs
    returns [promise2] itself, [promise2] is from some turn on rejected with
    the cycle error. *)
Theorem self_resolution_rejected_in_then s p a onFulfilled onRejected w :
  reachable w ->
  caller_value onFulfilled = true -> caller_value onRejected = true ->
  let promise2 := (then_ p onFulfilled onRejected w).1 in
  let w1 := (then_ p onFulfilled onRejected w).2 in
  handler_outcome (invoked s onFulfilled onRejected) a
    = Some (Return (VPromise promise2)) ->
  (settled_with s p a w ->
   exists N, forall n, rejected_with promise2 cycle_error (ticks (N + n) w1)) /\
  (state_is p PENDING w = true -> undisturbed p (timers w) ->
   exists N, forall n,
     rejected_with promise2 cycle_error (ticks (N + n) (capability s p a w1))) /\
  (forall n,
     fulfilled_with (d_promise (deferred w).1) (VPromise (d_promise (deferred w).1))
       (ticks (S (length (timers w)) + n)
          (d_resolve (deferred w).1 (VPromise (d_promise (deferred w).1))
             (deferred w).2))).
Proof.
  intros Hr Hf Hg. pose proof (reachable_closed w Hr) as Hc.
  cbn zeta. rewrite !fst_then. intros Ho.
  destruct (then_outcome s p a onFulfilled onRejected
              (Return (VPromise (length (heap w)))) Reject cycle_error w Hc)
    as [H1 H2]; [by apply caller_value_aims..|done|apply sync_self|].
  split; [exact H1|]. split.
  - intros Hp Hu. destruct (H2 Hp Hu) as [N HN]. exists N. intros n. apply HN.
  - intros n.
    change (d_promise (deferred w).1) with (length (heap w)).
    change (d_resolve (deferred w).1 (VPromise (length (heap w))) (deferred w).2)
      with (resolve (length (heap w)) (VPromise (length (heap w))) (alloc w).2).
    apply (resolve_timer_fulfils _ _ (timers w) []).
    + done.
    + apply spare_undisturbed, (Hc _ (le_n _)).
    + apply state_is_alloc.
Qed.

(** C3.  Once a promise has left PENDING, calling [resolve] or [reject] on it
    again changes nothing, however long the event loop runs afterwards: the
    closure such a call schedules is a no-op, the promise keeps its state and
    the value or reason it was first settled with, and it never holds both a
    value and a reason. *)
Theorem settled_promise_is_final w p pr :
  reachable w -> heap w !! p = Some pr -> state pr <> PENDING ->
  (forall v n, heap (ticks n (resolve p v w)) !! p = Some pr) /\
  (forall r n, heap (ticks n (reject p r w)) !! p = Some pr) /\
  (forall v w', heap w' !! p = Some pr -> run_task (TResolve p v) w' = w') /\
  (forall r w', heap w' !! p = Some pr -> run_task (TReject p r) w' = w') /\
  (value pr = VUndefined \/ reason pr = VUndefined).
Proof.
  intros Hr H Hs. repeat split.
  - intros v n. by apply (stable_ticks n (resolve p v w)).
  - intros r n. by apply (stable_ticks n (reject p r w)).
  - intros v w' H'. by eapply settle_resolved_settled.
  - intros r w' H'. by eapply settle_rejected_settled.
  - pose proof (reachable_tidy w Hr p pr H) as Ht. unfold tidy_promise in Ht.
    destruct (state pr); tauto.
Qed.

(** C4.  Let [p] be pending and let [then] be called on it with the handler
    pairs [hs], one call after the other.  Neither these calls nor the call
    of a capability that follows runs anything: the trace is as before and
    [p] is still pending when the capability returns.  The handlers run in
    the turn in which the capability's timer fires, which comes after the
    timers already set, and there they are called in the order of
    registration, each with the value (or the reason) [p] is settled with. *)
Theorem handlers_run_in_registration_order w p (hs : list (fn_id * fn_id)) :
  state_is p PENDING w = true -> undisturbed p (timers w) ->
  let w1 := register p hs w in
  let k := length (timers w) in
  trace w1 = trace w /\ timers w1 = timers w /\
  (forall v, let w2 := resolve p v w1 in
     trace w2 = trace w /\ state_is p PENDING w2 = true /\
     fulfilled_with p v (ticks (S k) w2) /\
     exists before after,
       trace (ticks (S k) w2)
       = trace (ticks k w2) ++ before ++ map (fun h => EvCall h.1 v) hs ++ after) /\
  (forall r, let w2 := reject p r w1 in
     trace w2 = trace w /\ state_is p PENDING w2 = true /\
     rejected_with p r (ticks (S k) w2) /\
     exists before after,
       trace (ticks (S k) w2)
       = trace (ticks k w2) ++ before ++ map (fun h => EvCall h.2 r) hs ++ after).
Proof.
  intros Hp Hu. cbn zeta.
  destruct (proj1 (state_is_spec _ _ _) Hp) as (pr & H & Hs).
  destruct (register_spec p hs w pr H Hs) as (Rf & Rr & H1 & Ff & Fr & Ht & Hl).
  set (w1 := register p hs w) in *.
  assert (state_is p PENDING w1 = true) as Hp1 by (apply state_is_spec; eauto).
  split; [done|]. split; [done|]. split.
  - intros v. split; [done|]. split; [done|].
    assert (timers (resolve p v w1) = timers w ++ [TResolve p v]) as Ht2
      by (cbn; by rewrite Ht).
    split.
    { pose proof (resolve_timer_fulfils p v (timers w) [] _ Ht2 Hu Hp1 0) as Hf.
      by rewrite Nat.add_0_r in Hf. }
    destruct (ticks_reach p (timers w) _ _ Ht2 Hu) as [[more Hm] Hk].
    destruct (Hk _ H1) as (prW & HW & (S1 & _ & _) & [extra Hq] & _).
    cbn [state resolvedCallbacks] in S1, Hq.
    rewrite ticks_S, (tick_head _ _ _ Hm).
    by apply (drain_in_order Fulfil p fst hs Rf (resolvedCallbacks pr) extra
                (set_timers more _) prW v).
  - intros r. split; [done|]. split; [done|].
    assert (timers (reject p r w1) = timers w ++ [TReject p r]) as Ht2
      by (cbn; by rewrite Ht).
    split.
    { pose proof (reject_timer_rejects p r (timers w) [] _ Ht2 Hu Hp1 0) as Hf.
      by rewrite Nat.add_0_r in Hf. }
    destruct (ticks_reach p (timers w) _ _ Ht2 Hu) as [[more Hm] Hk].
    destruct (Hk _ H1) as (prW & HW & (S1 & _ & _) & _ & [extra Hq]).
    cbn [state rejectedCallbacks] in S1, Hq.
    rewrite ticks_S, (tick_head _ _ _ Hm).
    by apply (drain_in_order Reject p snd hs Rr (rejectedCallbacks pr) extra
                (set_timers more _) prW r).
Qed.

(** C5.  Each run of [resolvePromise] has one [called] flag [c], shared by
    the two callbacks it hands to a thenable and by its [catch] clause.
    (1) If the thenable's first act is a synchronous call of either callback,
    the whole run amounts to that call: the synchronous calls that follow and
    an error raised at the end do nothing, and the calls it makes in later
    turns only set timers.  (2, 3) An error raised by [then], or by reading
    [then], when no callback has been called rejects [promise2] with it.
    (4) A call of either callback sets the flag; (5) once the flag is set it
    stays set, and every call of either callback, whether made in the same
    turn or from a timer, and the [catch] clause leave the world as it is. *)
Theorem guard_flag_first_call_wins promise2 w :
  let c := (new_cell w).1 in
  let w1 := (new_cell w).2 in
  let res := FAdoptFulfill c promise2 in
  let rej := FAdoptReject c promise2 in
  (forall s y rest raise,
     resolvePromise promise2 (VThenable ((Sync, s, y) :: rest) raise) w
     = later_calls res rej rest (call_fn (adopt s c promise2) y w1).2) /\
  (forall body e, no_sync body ->
     resolvePromise promise2 (VThenable body (Some e)) w
     = reject promise2 e (mark c (later_calls res rej body w1))) /\
  (forall e,
     resolvePromise promise2 (VThrowingThen e) w = reject promise2 e (mark c w1)) /\
  (forall s y w', c < length (cells w') ->
     called c (call_fn (adopt s c promise2) y w').2 = true) /\
  (forall w', called c w' = true ->
     (forall n, called c (ticks n w') = true) /\
     (forall s y, call_fn (adopt s c promise2) y w' = (Return VUndefined, w')) /\
     (forall s y, run_task (TForeign (adopt s c promise2) y) w' = w') /\
     (forall e, catch_ c promise2 e w' = w')).
Proof.
  cbn zeta. repeat split.
  - intros s y rest raise. apply resolvePromise_first_sync.
  - intros body e Hn. by apply resolvePromise_raise.
  - intros e. apply resolvePromise_getter.
  - intros s y w' Hc. by apply called_adopt.
  - intros n. by apply called_ticks.
  - intros s y. destruct s; cbn [adopt call_fn]; by rewrite H.
  - intros s y. destruct s; cbn [adopt run_task call_fn snd]; by rewrite H.
  - intros e. unfold catch_. by rewrite H.
Qed.

(** C6.  Let [then] be called on [p], and let the handler it runs on side
    [s] raise [error] when handed the payload [a].  Then [promise2], the
    promise [then] returns, is rejected with exactly [error]: (1) when [p] is
    already settled with [a] on side [s]; (2) when [p] is pending and is
    settled afterwards by its capability.  In case (2), if [.then(null, m)]
    is chained on [promise2] in the same turn, where [m] returns the message
    of the error object, the promise so obtained is fulfilled with the
    message; and (3) the same holds when that second [then] is called in any
    later world in which [promise2] is rejected.  All this holds from some
    turn on, for ever. *)
Theorem handler_error_rejects s p a onFulfilled onRejected error w :
  reachable w ->
  caller_value onFulfilled = true -> caller_value onRejected = true ->
  handler_outcome (invoked s onFulfilled onRejected) a = Some (Throw error) ->
  let promise2 := (then_ p onFulfilled onRejected w).1 in
  let w1 := (then_ p onFulfilled onRejected w).2 in
  (settled_with s p a w ->
   exists N, forall n, rejected_with promise2 error (ticks (N + n) w1)) /\
  (state_is p PENDING w = true -> undisturbed p (timers w) ->
   (exists N, forall n,
      rejected_with promise2 error (ticks (N + n) (capability s p a w1))) /\
   (forall m name message,
      error = VError name message -> user_fn m error = Return (VStr message) ->
      let promise3 := (then_ promise2 VNull (VFunction (FUser m)) w1).1 in
      let w2 := (then_ promise2 VNull (VFunction (FUser m)) w1).2 in
      exists N, forall n,
        rejected_with promise2 error (ticks (N + n) (capability s p a w2)) /\
        fulfilled_with promise3 (VStr message)
          (ticks (N + n) (capability s p a w2)))) /\
  (forall m name message W,
     error = VError name message -> user_fn m error = Return (VStr message) ->
     reachable W -> rejected_with promise2 error W ->
     exists N, forall n,
       fulfilled_with (then_ promise2 VNull (VFunction (FUser m)) W).1 (VStr message)
         (ticks (N + n) (then_ promise2 VNull (VFunction (FUser m)) W).2)).
Proof.
  intros Hr Hf Hg Ho. pose proof (reachable_closed w Hr) as Hc.
  cbn zeta. rewrite !fst_then.
  destruct (then_outcome s p a onFulfilled onRejected (Throw error) Reject error
              w Hc) as [H1 H2]; [by apply caller_value_aims..|done|done|].
  split; [exact H1|]. split.
  - intros Hp Hu. split.
    + destruct (H2 Hp Hu) as [N HN]. exists N. intros n. apply HN.
    + intros m name message Herr Hm.
      destruct (links2 p onFulfilled onRejected VNull (VFunction (FUser m)) w Hc Hp)
        as (Hl1 & Hl2 & Ht & Hp2);
        try (intros q; by apply caller_value_aims).
      rewrite !fst_then, length_heap_then.
      set (w2 := (then_ (length (heap w)) VNull (VFunction (FUser m))
                    (then_ p onFulfilled onRejected w).2).2) in *.
      pose proof (pending_allocated _ _ Hp) as Hlt.
      destruct (chain2 p (length (heap w)) (S (length (heap w)))
                  (as_handler onFulfilled FIdentity) (as_handler onRejected FRethrow)
                  (as_handler VNull FIdentity)
                  (as_handler (VFunction (FUser m)) FRethrow) s a
                  (Throw error) Reject error (Return (VStr message)) Fulfil
                  (VStr message) (length (timers w)) (capability s p a w2))
        as [N HN].
      * apply linked_capability; [done|lia].
      * apply linked_capability; [done|lia].
      * apply (queued_fires s p a (timers w) []); [|done|].
        -- by rewrite timers_capability, Ht.
        -- by rewrite state_is_capability.
      * exact Ho.
      * by split.
      * cbn. by rewrite Hm.
      * by apply sync_plain.
      * exists N. intros n. destruct (HN n) as (_ & Hq1 & Hq2). by split.
  - intros m name message W Herr Hm HrW Hrej. rewrite ?fst_then.
    destruct (then_outcome Reject (length (heap w)) error VNull (VFunction (FUser m))
                (Return (VStr message)) Fulfil (VStr message) W
                (reachable_closed W HrW) eq_refl eq_refl)
      as [H3 _].
    + cbn. by rewrite Hm.
    + by apply sync_plain.
    + destruct (H3 Hrej) as [N HN]. exists N. intros n. apply HN.
Qed.

(** C7.  An executor that raises before calling a capability leaves the
    world exactly as one that calls [reject] with the error and returns: the
    promise is pending when the constructor returns and is rejected with the
    raised error once the timer set by [reject] has fired, after the timers
    set before it. *)
Theorem executor_error_rejects w error :
  reachable w ->
  let this := (construct (Executor [] (Some error)) w).1 in
  let w' := (construct (Executor [] (Some error)) w).2 in
  construct (Executor [] (Some error)) w
    = construct (Executor [(Reject, error)] None) w /\
  state_is this PENDING w' = true /\
  forall n, rejected_with this error (ticks (S (length (timers w)) + n) w').
Proof.
  intros Hr. cbn zeta.
  assert (undisturbed (length (heap w)) (timers w)) as Hu.
  { apply spare_undisturbed, (reachable_closed w Hr _ (le_n _)). }
  split; [done|]. split.
  - apply (state_is_keeps _ _ (alloc w).2); [|apply state_is_alloc].
    apply keeps_grows, quiet_grows, quiet_reject.
  - apply (reject_timer_rejects _ _ (timers w) []); [done|done|].
    apply (state_is_keeps _ _ (alloc w).2); [|apply state_is_alloc].
    apply keeps_grows, quiet_grows, quiet_reject.
Qed.

(** C8.  A handler that is missing is replaced by [(v) => v], respectively
    by [(e) => { throw e }].  Hence in [new Promise(res => res(v)).then()
    .then(f)], with [v] not an object with a [then] and [f] returning its
    argument, both promises returned by [then] are fulfilled with [v] from
    some turn on; and in [new Promise((_, rej) => rej(e)).then().then()] both
    are rejected with [e], whatever [e] is. *)
Theorem missing_handlers_pass_through w :
  reachable w ->
  as_handler VUndefined FIdentity = FIdentity /\
  as_handler VUndefined FRethrow = FRethrow /\
  (forall v w', call_fn FIdentity v w' = (Return v, w')) /\
  (forall e w', call_fn FRethrow e w' = (Throw e, w')) /\
  (forall v f, plain v = true -> user_fn f v = Return v ->
     let p := (construct (Executor [(Fulfil, v)] None) w).1 in
     let w0 := (construct (Executor [(Fulfil, v)] None) w).2 in
     let q1 := (then_ p VUndefined VUndefined w0).1 in
     let w1 := (then_ p VUndefined VUndefined w0).2 in
     let q2 := (then_ q1 (VFunction (FUser f)) VUndefined w1).1 in
     let w2 := (then_ q1 (VFunction (FUser f)) VUndefined w1).2 in
     exists N, forall n,
       fulfilled_with p v (ticks (N + n) w2) /\
       fulfilled_with q1 v (ticks (N + n) w2) /\
       fulfilled_with q2 v (ticks (N + n) w2)) /\
  (forall e,
     let p := (construct (Executor [(Reject, e)] None) w).1 in
     let w0 := (construct (Executor [(Reject, e)] None) w).2 in
     let q1 := (then_ p VUndefined VUndefined w0).1 in
     let w1 := (then_ p VUndefined VUndefined w0).2 in
     let q2 := (then_ q1 VUndefined VUndefined w1).1 in
     let w2 := (then_ q1 VUndefined VUndefined w1).2 in
     exists N, forall n,
       rejected_with p e (ticks (N + n) w2) /\
       rejected_with q1 e (ticks (N + n) w2) /\
       rejected_with q2 e (ticks (N + n) w2)).
Proof.
  intros Hr. pose proof (reachable_closed w Hr) as Hc.
  split; [done|]. split; [done|]. split; [done|]. split; [done|].
  assert (forall s a, let w0 := (construct (Executor [(s, a)] None) w).2 in
            closed w0 /\ state_is (length (heap w)) PENDING w0 = true /\
            timers w0 = timers w ++ [settle_task s (length (heap w)) a]) as Hcons.
  { intros s a. cbn zeta. split; [by apply closed_construct|].
    rewrite construct_call. cbn [snd]. split.
    - rewrite state_is_capability. apply state_is_alloc.
    - exact (timers_capability s _ a (alloc w).2). }
  assert (undisturbed (length (heap w)) (timers w)) as Hu.
  { apply spare_undisturbed, (Hc _ (le_n _)). }
  split.
  - intros v f Hv Hf. cbn zeta.
    destruct (Hcons Fulfil v) as (Hc0 & Hp0 & Ht0).
    change (construct (Executor [(Fulfil, v)] None) w).1 with (length (heap w)).
    set (w0 := (construct (Executor [(Fulfil, v)] None) w).2) in *.
    rewrite !fst_then, length_heap_then.
    destruct (links2 (length (heap w)) VUndefined VUndefined (VFunction (FUser f))
                VUndefined w0 Hc0 Hp0) as (Hl1 & Hl2 & Ht & Hp2); try done.
    eapply (chain2 _ _ _ _ _ _ _ Fulfil v (Return v) Fulfil v (Return v) Fulfil v
              (length (timers w))); [exact Hl1|exact Hl2| |done| |..].
    + apply (queued_fires Fulfil _ v (timers w) []); [|done|done].
      by rewrite Ht, Ht0.
    + by apply sync_plain.
    + cbn. by rewrite Hf.
    + by apply sync_plain.
  - intros e. cbn zeta.
    destruct (Hcons Reject e) as (Hc0 & Hp0 & Ht0).
    change (construct (Executor [(Reject, e)] None) w).1 with (length (heap w)).
    set (w0 := (construct (Executor [(Reject, e)] None) w).2) in *.
    rewrite !fst_then, length_heap_then.
    destruct (links2 (length (heap w)) VUndefined VUndefined VUndefined
                VUndefined w0 Hc0 Hp0) as (Hl1 & Hl2 & Ht & Hp2); try done.
    eapply (chain2 _ _ _ _ _ _ _ Reject e (Throw e) Reject e (Throw e) Reject e
              (length (timers w))); [exact Hl1|exact Hl2| |done..].
    apply (queued_fires Reject _ e (timers w) []); [|done|done].
    by rewrite Ht, Ht0.
Qed.

Lemma settle_task_settled s q a w pr :
  heap w !! q = Some pr -> state pr <> PENDING -> run_task (settle_task s q a) w = w.
Proof.
  intros H Hs. destruct s; cbn [settle_task run_task];
    [by eapply settle_resolved_settled|by eapply settle_rejected_settled].
Qed.

(** Two calls of capabilities of one pending promise in one turn: the first
    decides, the timer of the second does nothing. *)
Lemma first_capability_wins s1 a1 s2 a2 q w :
  undisturbed q (timers w) -> state_is q PENDING w = true ->
  let w' := capability s2 q a2 (capability s1 q a1 w) in
  let k := length (timers w) in
  state_is q PENDING w' = true /\
  (forall n, settled_with s1 q a1 (ticks (S k + n) w')) /\
  exists rest, timers (ticks (S k) w') = settle_task s2 q a2 :: rest /\
               tick (ticks (S k) w') = set_timers rest (ticks (S k) w').
Proof.
  intros Hu Hp. cbn zeta.
  set (w' := capability s2 q a2 (capability s1 q a1 w)).
  assert (state_is q PENDING w' = true) as Hp'
    by (unfold w'; by rewrite !state_is_capability).
  assert (timers w' = timers w ++ settle_task s1 q a1 :: [settle_task s2 q a2]) as Ht.
  { unfold w'. by rewrite !timers_capability, <- app_assoc. }
  assert (forall n, settled_with s1 q a1 (ticks (S (length (timers w)) + n) w')) as Hf.
  { apply fires_settles_from.
    by apply (queued_fires s1 q a1 (timers w) [settle_task s2 q a2]). }
  split; [done|]. split; [done|].
  assert (timers w' = (timers w ++ [settle_task s1 q a1]) ++ [settle_task s2 q a2])
    as Ht' by (by rewrite Ht, <- app_assoc).
  destruct (ticks_timers _ _ _ Ht') as [more Hm].
  rewrite length_app, Nat.add_comm in Hm. cbn [length Nat.add] in Hm.
  exists more. split; [done|].
  rewrite (tick_head _ _ _ Hm).
  pose proof (Hf 0) as (pr & H & Ha & Hs)%settled_with_spec.
  rewrite Nat.add_0_r in H.
  apply (settle_task_settled _ _ _ _ pr); [exact H|]. rewrite Hs. by destruct s1.
Qed.

(** C9.  [deferred] hands out a fresh pending promise together with its two
    capabilities, and either capability settles the promise from outside:
    after [resolve] alone the promise is fulfilled with the value given, after
    [reject] alone it is rejected with the reason given, each once its timer
    has fired and for ever.  The first call wins, in either order: calling
    [resolve] and then [reject] leaves the promise pending for the rest of the
    turn, fulfils it with the value given to [resolve] once that timer has
    fired, and the turn in which the timer of [reject] fires does nothing but
    remove that timer; calling [reject] and then [resolve] rejects it with the
    reason given to [reject], and the timer of [resolve] does nothing. *)
Theorem deferred_first_call_wins w v r :
  reachable w ->
  let d := (deferred w).1 in
  let w' := d_reject d r (d_resolve d v (deferred w).2) in
  let k := length (timers w) in
  d_promise d = length (heap w) /\
  state_is (d_promise d) PENDING w' = true /\
  (forall n, fulfilled_with (d_promise d) v (ticks (S k + n) w')) /\
  (exists rest, timers (ticks (S k) w') = TReject (d_promise d) r :: rest /\
                tick (ticks (S k) w') = set_timers rest (ticks (S k) w')) /\
  state_is (d_promise d) PENDING (deferred w).2 = true /\
  (forall n, fulfilled_with (d_promise d) v
               (ticks (S k + n) (d_resolve d v (deferred w).2))) /\
  (forall n, rejected_with (d_promise d) r
               (ticks (S k + n) (d_reject d r (deferred w).2))) /\
  let w'' := d_resolve d v (d_reject d r (deferred w).2) in
  state_is (d_promise d) PENDING w'' = true /\
  (forall n, rejected_with (d_promise d) r (ticks (S k + n) w'')) /\
  exists rest, timers (ticks (S k) w'') = TResolve (d_promise d) v :: rest /\
               tick (ticks (S k) w'') = set_timers rest (ticks (S k) w'').
Proof.
  intros Hr. cbn zeta.
  assert (undisturbed (length (heap w)) (timers w)) as Hu.
  { apply spare_undisturbed, (reachable_closed w Hr _ (le_n _)). }
  set (q := length (heap w)).
  change (d_promise (deferred w).1) with q.
  change (deferred w).2 with (alloc w).2.
  change (d_resolve (deferred w).1) with (capability Fulfil q).
  change (d_reject (deferred w).1) with (capability Reject q).
  assert (state_is q PENDING (alloc w).2 = true) as Hp by apply state_is_alloc.
  change (timers w) with (timers (alloc w).2) in Hu |- *.
  destruct (first_capability_wins Fulfil v Reject r q (alloc w).2 Hu Hp)
    as (H1 & H2 & H3).
  destruct (first_capability_wins Reject r Fulfil v q (alloc w).2 Hu Hp)
    as (H4 & H5 & H6).
  split; [done|]. split; [exact H1|]. split; [exact H2|]. split; [exact H3|].
  split; [exact Hp|]. split; [|split].
  - apply (fires_settles_from Fulfil). by apply capability_fires.
  - apply (fires_settles_from Reject). by apply capability_fires.
  - split; [exact H4|]. split; [exact H5|exact H6].
Qed.

(** C10.  [then] keeps an argument only if it is a function; anything else
    is replaced by the default handler of its position: the identity for
    [onFulfilled], which returns its argument, and the re-raise for
    [onRejected], which raises its argument.  So a call with non-function
    arguments is the same as the call with no arguments, and it returns
    ([then_] is a total function).  What it installs are the reactions with
    these two handlers: on a fulfilled promise a timer for the identity, on a
    rejected promise a timer for the re-raise, on a pending promise the two
    reactions at the end of its queues.  Hence the promise it returns is
    settled like the promise it was called on: fulfilled with the same value
    (one without a callable [then]), or rejected with the same reason. *)
Theorem non_function_handlers_default this onFulfilled onRejected w :
  isFunction onFulfilled = false -> isFunction onRejected = false ->
  as_handler onFulfilled FIdentity = FIdentity /\
  as_handler onRejected FRethrow = FRethrow /\
  then_ this onFulfilled onRejected w = then_ this VUndefined VUndefined w /\
  let promise2 := (then_ this onFulfilled onRejected w).1 in
  let w' := (then_ this onFulfilled onRejected w).2 in
  (forall v W, call_fn FIdentity v W = (Return v, W)) /\
  (forall e W, call_fn FRethrow e W = (Throw e, W)) /\
  (forall v, fulfilled_with this v w ->
     timers w' = timers w ++ [TReaction (Reaction Fulfil this promise2 FIdentity)]) /\
  (forall e, rejected_with this e w ->
     timers w' = timers w ++ [TReaction (Reaction Reject this promise2 FRethrow)]) /\
  (forall pr, heap w !! this = Some pr -> state pr = PENDING ->
     timers w' = timers w /\
     heap w' !! this
     = Some (Promise PENDING (value pr) (reason pr)
               (resolvedCallbacks pr ++ [Reaction Fulfil this promise2 FIdentity])
               (rejectedCallbacks pr ++ [Reaction Reject this promise2 FRethrow]))) /\
  (reachable w ->
   (forall v, plain v = true ->
      (fulfilled_with this v w ->
       exists N, forall n, fulfilled_with promise2 v (ticks (N + n) w')) /\
      (state_is this PENDING w = true -> undisturbed this (timers w) ->
       exists N, forall n,
         fulfilled_with promise2 v (ticks (N + n) (resolve this v w')))) /\
   (forall e,
      (rejected_with this e w ->
       exists N, forall n, rejected_with promise2 e (ticks (N + n) w')) /\
      (state_is this PENDING w = true -> undisturbed this (timers w) ->
       exists N, forall n,
         rejected_with promise2 e (ticks (N + n) (reject this e w'))))).
Proof.
  intros H1 H2. split; [by apply as_handler_default|].
  split; [by apply as_handler_default|].
  assert (then_ this onFulfilled onRejected w = then_ this VUndefined VUndefined w)
    as Heq by (unfold then_; by rewrite !as_handler_default).
  split; [exact Heq|]. cbn zeta. rewrite Heq, fst_then.
  split; [done|]. split; [done|]. split; [|split; [|split]].
  - intros v Hv. by rewrite (then_settled Fulfil this v).
  - intros e He. by rewrite (then_settled Reject this e).
  - intros pr Hp Hs.
    destruct (then_pending_spec this VUndefined VUndefined w pr Hp Hs)
      as (Hh & Ht & _). by split.
  - intros Hr. pose proof (reachable_closed w Hr) as Hc. split.
    + intros v Hv.
      destruct (then_outcome Fulfil this v VUndefined VUndefined (Return v)
                  Fulfil v w Hc eq_refl eq_refl eq_refl (sync_plain _ v Hv))
        as [Ha Hb].
      split; [exact Ha|]. intros Hp Hu.
      destruct (Hb Hp Hu) as [N HN]. exists N. intros n. apply HN.
    + intros e.
      destruct (then_outcome Reject this e VUndefined VUndefined (Throw e)
                  Reject e w Hc eq_refl eq_refl eq_refl (conj eq_refl eq_refl))
        as [Ha Hb].
      split; [exact Ha|]. intros Hp Hu.
      destruct (Hb Hp Hu) as [N HN]. exists N. intros n. apply HN.
Qed.

(** ** Further properties: what the operations do at the call site *)

Lemma lookup_push_resolved_ne p q r w :
  p <> q -> heap (push_resolved q r w) !! p = heap w !! p.
Proof.
  intros Hne. unfold push_resolved. destruct (heap w !! q); [|done].
  cbn. by rewrite list_lookup_insert_ne.
Qed.

Lemma lookup_push_rejected_ne p q r w :
  p <> q -> heap (push_rejected q r w) !! p = heap w !! p.
Proof.
  intros Hne. unfold push_rejected. destruct (heap w !! q); [|done].
  cbn. by rewrite list_lookup_insert_ne.
Qed.

Lemma then_heap_other this f g w p :
  p <> this -> p < length (heap w) ->
  heap (then_ this f g w).2 !! p = heap w !! p.
Proof.
  intros Hne Hlt. rewrite then_unfold. cbn [snd].
  assert (heap (alloc w).2 !! p = heap w !! p) as Hp by (cbn; by rewrite lookup_app_l).
  destruct (heap (alloc w).2 !! this) as [pr0|]; [|done].
  destruct (state pr0); [|done..].
  by rewrite lookup_push_rejected_ne, lookup_push_resolved_ne.
Qed.

Lemma cells_push_resolved p r w : cells (push_resolved p r w) = cells w.
Proof. unfold push_resolved. by destruct (heap w !! p). Qed.

Lemma cells_push_rejected p r w : cells (push_rejected p r w) = cells w.
Proof. unfold push_rejected. by destruct (heap w !! p). Qed.

Lemma cells_then this f g w : cells (then_ this f g w).2 = cells w.
Proof.
  rewrite then_unfold. cbn [snd].
  destruct (heap (alloc w).2 !! this) as [pr0|]; [|done].
  destruct (state pr0); [|done..].
  by rewrite cells_push_rejected, cells_push_resolved.
Qed.

(** X1.  [then] runs nothing and settles nothing before it returns, whatever
    the state of the promise it is called on.  It returns a promise at a new
    address, which is pending; the trace and the [called] flags are as
    before; every promise that existed keeps its state, value and reason, and
    every promise other than [this] is untouched altogether.  If [this] is
    pending no timer is set, and if [this] is settled exactly one timer is
    appended: the one that will call the handler of the side [this] is
    settled on. *)
Theorem then_only_schedules this onFulfilled onRejected w :
  let promise2 := (then_ this onFulfilled onRejected w).1 in
  let w' := (then_ this onFulfilled onRejected w).2 in
  promise2 = length (heap w) /\
  length (heap w') = S (length (heap w)) /\
  state_is promise2 PENDING w' = true /\
  trace w' = trace w /\ cells w' = cells w /\
  (forall p pr, heap w !! p = Some pr ->
     exists pr', heap w' !! p = Some pr' /\ same_outcome pr pr' /\
                 (p <> this -> pr' = pr) /\ (state pr <> PENDING -> pr' = pr)) /\
  (state_is this PENDING w = true -> timers w' = timers w) /\
  (forall s a, settled_with s this a w ->
     timers w' = timers w
       ++ [TReaction (Reaction s this promise2 (invoked s onFulfilled onRejected))]).
Proof.
  cbn zeta. rewrite fst_then.
  destruct (quiet_then this onFulfilled onRejected w) as [Hg Ht].
  split; [done|]. split; [apply length_heap_then|]. split.
  { rewrite then_unfold. cbn [snd].
    destruct (heap (alloc w).2 !! this) as [pr0|]; [|apply state_is_alloc].
    destruct (state pr0);
      rewrite ?state_is_push_rejected, ?state_is_push_resolved, ?state_is_nextTick;
      apply state_is_alloc. }
  split; [done|]. split; [apply cells_then|]. split.
  { intros p pr Hp. destruct (grows_heap _ _ Hg p pr Hp) as (pr' & Hp' & Hl & Hs).
    exists pr'. split; [done|]. split; [apply Hl|]. split; [|done].
    intros Hne. rewrite then_heap_other in Hp'; [congruence|done|].
    by eapply lookup_lt_Some. }
  split.
  - apply timers_then_pending.
  - intros s a Hs. by rewrite (then_settled s this a).
Qed.

Lemma timers_capabilities this cs : forall w,
  timers (foldl (fun w c => capability c.1 this c.2 w) w cs)
  = timers w ++ map (fun c => settle_task c.1 this c.2) cs.
Proof.
  induction cs as [|c cs IH]; intros w; cbn [foldl map].
  - by rewrite app_nil_r.
  - rewrite IH, timers_capability, <- app_assoc. done.
Qed.

Lemma state_is_capabilities q st this cs : forall w,
  state_is q st (foldl (fun w c => capability c.1 this c.2 w) w cs) = state_is q st w.
Proof.
  induction cs as [|c cs IH]; intros w; cbn [foldl]; [done|].
  by rewrite IH, state_is_capability.
Qed.

Lemma timers_construct ex w :
  timers (construct ex w).2
  = timers w ++ map (fun c => settle_task c.1 (length (heap w)) c.2) (ex_calls ex)
      ++ match ex_raise ex with
         | Some error => [TReject (length (heap w)) error]
         | None => []
         end.
Proof.
  unfold construct. destruct (alloc w) as [this w1] eqn:E.
  assert (this = length (heap w) /\ timers w1 = timers w) as [-> Ht]
    by (by inversion E).
  destruct (ex_raise ex); cbn [snd reject nextTick set_timers timers];
    rewrite timers_capabilities, Ht; by rewrite <- ?app_assoc, ?app_nil_r.
Qed.

Lemma state_is_construct q st ex w :
  state_is q st (construct ex w).2 = state_is q st (alloc w).2.
Proof.
  unfold construct. destruct (alloc w) as [this w1]. cbn [snd].
  destruct (ex_raise ex); cbn [snd]; unfold reject;
    by rewrite ?state_is_nextTick, state_is_capabilities.
Qed.

Lemma fst_construct ex w : (construct ex w).1 = length (heap w).
Proof. unfold construct. cbn. by destruct (ex_raise ex). Qed.

(** X2.  The capability that an executor calls first decides: the promise is
    pending when the constructor returns, is settled with the argument of
    that first call once its timer has fired, and stays so.  Neither the
    capability calls the executor makes afterwards nor an error it raises
    after the first call change that: such an error is lost. *)
Theorem executor_first_call_wins s a calls raise w :
  reachable w ->
  let this := (construct (Executor ((s, a) :: calls) raise) w).1 in
  let w' := (construct (Executor ((s, a) :: calls) raise) w).2 in
  this = length (heap w) /\
  state_is this PENDING w' = true /\ trace w' = trace w /\
  forall n, settled_with s this a (ticks (S (length (timers w)) + n) w').
Proof.
  intros Hr. cbn zeta.
  rewrite fst_construct.
  set (ex := Executor ((s, a) :: calls) raise).
  split; [done|]. split; [|split].
  - rewrite state_is_construct. apply state_is_alloc.
  - apply quiet_construct.
  - apply fires_settles_from.
    pose proof (timers_construct ex w) as Ht. cbn [ex ex_calls map] in Ht.
    rewrite <- app_comm_cons in Ht.
    eapply (queued_fires s _ a (timers w)); [exact Ht| |].
    + apply spare_undisturbed, (reachable_closed w Hr _ (le_n _)).
    + rewrite state_is_construct. apply state_is_alloc.
Qed.

(** ** Further properties: promises that nothing settles *)

Lemma unaimed_heap_aims_only q w :
  unaimed q w -> q < length (heap w) -> heap_aims_only q never w.
Proof.
  intros [_ Hh] Hlt. split; [done|]. intros p pr Hp.
  destruct (Hh p pr Hp) as [H1 H2].
  split; eapply Forall_impl; eauto; cbn; intros r Hr; congruence.
Qed.

Lemma heap_aims_only_unaimed q w :
  heap_aims_only q never w -> timers_spare q (timers w) -> unaimed q w.
Proof.
  intros [_ Hh] Ht. split; [done|]. intros p pr Hp.
  destruct (Hh p pr Hp) as [H1 H2].
  split; eapply Forall_impl; eauto; cbn; intros r Hr;
    destruct (reaction_aims q r); [by destruct Hr|done|by destruct Hr|done].
Qed.

Lemma task_aims_settles q t : task_aims q t = false -> settles t <> Some q.
Proof.
  destruct t as [p v|p r| |]; cbn; try done;
    intros H%Nat.eqb_neq; congruence.
Qed.

Lemma unaimed_tick q w :
  unaimed q w -> state_is q PENDING w = true ->
  unaimed q (tick w) /\ state_is q PENDING (tick w) = true.
Proof.
  intros Hu Hp. unfold tick. destruct (timers w) as [|t rest] eqn:Ht; [done|].
  pose proof (pending_allocated _ _ Hp) as Hlt.
  destruct Hu as [Hts Hh]. rewrite Ht in Hts.
  apply Forall_cons in Hts as [Haim Hrest].
  set (w' := set_timers rest w).
  assert (unaimed q w') as Hu' by (by split).
  destruct (spares_run_task q never t w' Haim) as (Hh' & more & Hm & Hmore).
  { intros p s r _ []. }
  { by apply unaimed_heap_aims_only. }
  split.
  - apply heap_aims_only_unaimed; [done|]. rewrite Hm. by apply Forall_app.
  - apply (state_is_keeps q PENDING w'); [|done].
    by apply keeps_run_task, task_aims_settles.
Qed.

Lemma unaimed_ticks q n : forall w,
  unaimed q w -> state_is q PENDING w = true ->
  unaimed q (ticks n w) /\ state_is q PENDING (ticks n w) = true.
Proof.
  induction n as [|n IH]; intros w Hu Hp; [done|]. cbn [ticks].
  destruct (unaimed_tick q w Hu Hp). by apply IH.
Qed.

(** X3.  A promise whose capabilities are never called is never settled:
    after [Promise.deferred()] and a call of [then] on the new promise, both
    the promise and the one returned by [then] are pending in every later
    turn of the event loop, whatever else the loop is running. *)
Theorem unsettled_stays_pending onFulfilled onRejected w :
  reachable w ->
  caller_value onFulfilled = true -> caller_value onRejected = true ->
  let p := d_promise (deferred w).1 in
  let promise2 := (then_ p onFulfilled onRejected (deferred w).2).1 in
  let w1 := (then_ p onFulfilled onRejected (deferred w).2).2 in
  forall n, state_is p PENDING (ticks n w1) = true /\
            state_is promise2 PENDING (ticks n w1) = true.
Proof.
  intros Hr Hf Hg. cbn zeta.
  change (d_promise (deferred w).1) with (length (heap w)).
  change (deferred w).2 with (alloc w).2.
  pose proof (reachable_closed w Hr) as Hc.
  set (p := length (heap w)). set (w0 := (alloc w).2).
  assert (closed w0) as Hc0 by apply (closed_construct (Executor [] None) w Hc).
  assert (state_is p PENDING w0 = true) as Hp0 by apply state_is_alloc.
  pose proof (linked_then p onFulfilled onRejected w0 (Hc0 _ (le_n _)) Hp0) as Hl.
  rewrite fst_then.
  assert (unaimed p (then_ p onFulfilled onRejected w0).2) as Hu.
  { apply unaimed_then; [|subst w0; cbn; rewrite length_app; cbn; lia
                         |by apply caller_value_aims..].
    apply unaimed_alloc, Hc. done. }
  intros n.
  destruct (unaimed_ticks p n _ Hu
              (state_is_then p PENDING p onFulfilled onRejected w0 Hp0)) as [_ Hp].
  split; [done|].
  apply (linked_pending p _ _ _ _ (linked_ticks _ _ _ _ n _ Hl Hp)).
Qed.

(** ** Further properties: several reactions on one promise *)

(** X4.  The promises returned by two calls of [then] on the same pending
    promise are settled independently of each other: when the promise is
    settled, each of the two is settled as the outcome of its own handler
    says ([outcome_settles]: rejected with the error the handler raises,
    fulfilled with the plain value it returns, ...).  In particular an
    error raised by the first handler neither stops the second handler nor
    reaches the second promise. *)
Theorem sibling_reactions_independent s p a f1 g1 f2 g2 o1 s1 a1 o2 s2 a2 w :
  reachable w ->
  caller_value f1 = true -> caller_value g1 = true ->
  caller_value f2 = true -> caller_value g2 = true ->
  state_is p PENDING w = true -> undisturbed p (timers w) ->
  let q1 := (then_ p f1 g1 w).1 in
  let w1 := (then_ p f1 g1 w).2 in
  let q2 := (then_ p f2 g2 w1).1 in
  let w2 := (then_ p f2 g2 w1).2 in
  handler_outcome (invoked s f1 g1) a = Some o1 -> outcome_settles q1 o1 s1 a1 ->
  handler_outcome (invoked s f2 g2) a = Some o2 -> outcome_settles q2 o2 s2 a2 ->
  q1 <> q2 /\
  exists N, forall n,
    settled_with s p a (ticks (N + n) (capability s p a w2)) /\
    settled_with s1 q1 a1 (ticks (N + n) (capability s p a w2)) /\
    settled_with s2 q2 a2 (ticks (N + n) (capability s p a w2)).
Proof.
  intros Hr Hf1 Hg1 Hf2 Hg2 Hp Hu. cbn zeta. rewrite !fst_then, length_heap_then.
  intros Ho1 Hos1 Ho2 Hos2. split; [lia|].
  pose proof (reachable_closed w Hr) as Hc.
  pose proof (linked_then p f1 g1 w (Hc _ (le_n _)) Hp) as Hl1.
  set (w1 := (then_ p f1 g1 w).2) in *.
  assert (closed w1) as Hc1
    by (apply closed_then; [done|intros q; by apply caller_value_aims..]).
  assert (state_is p PENDING w1 = true) as Hp1 by by apply state_is_then.
  pose proof (linked_then p f2 g2 w1 (Hc1 _ (le_n _)) Hp1) as Hl2.
  apply (linked_then_other _ _ _ _ p f2 g2) in Hl1; [|by apply caller_value_aims..].
  unfold w1 in Hl2 at 1. rewrite length_heap_then in Hl2.
  set (w2 := (then_ p f2 g2 w1).2) in *.
  pose proof (pending_allocated _ _ Hp) as Hlt.
  set (W := capability s p a w2).
  assert (fires s p a (ticks (length (timers w)) W)) as Hfire.
  { apply (queued_fires s p a (timers w) []); [|done|].
    - subst W w2 w1. by rewrite timers_capability, !timers_then_pending.
    - subst W w2. rewrite state_is_capability. by apply state_is_then. }
  destruct (chain1 p _ _ _ s a o1 s1 a1 _ W
              (linked_capability _ _ _ _ s p a _ Hl1 ltac:(lia)) Hfire Ho1 Hos1)
    as (n1 & Hlt1 & Hfire1).
  destruct (chain1 p _ _ _ s a o2 s2 a2 _ W
              (linked_capability _ _ _ _ s p a _ Hl2 ltac:(lia)) Hfire Ho2 Hos2)
    as (n2 & Hlt2 & Hfire2).
  exists (S (n1 + n2)). intros n. split; [|split].
  - apply (settled_with_later s p a (length (timers w))); [|lia].
    by apply fires_settles_from.
  - apply (settled_with_later s1 _ a1 n1); [|lia]. by apply fires_settles_from.
  - apply (settled_with_later s2 _ a2 n2); [|lia]. by apply fires_settles_from.
Qed.

Lemma settled_with_stable s p a w w' :
  stable w w' -> settled_with s p a w -> settled_with s p a w'.
Proof. destruct s; [apply fulfilled_stable|apply rejected_stable]. Qed.

Lemma register_settled s p a hs : forall w,
  settled_with s p a w ->
  trace (register p hs w) = trace w /\
  exists rs : list (ref * fn_id),
    rs.*2 = map (fun h => pick s h.1 h.2) hs /\
    timers (register p hs w)
    = timers w ++ map (fun r => TReaction (Reaction s p r.1 (FUser r.2))) rs.
Proof.
  induction hs as [|h hs IH]; intros w Hs.
  - split; [done|]. exists []. by rewrite app_nil_r.
  - cbn [register foldl].
    set (w1 := (then_ p (VFunction (FUser h.1)) (VFunction (FUser h.2)) w).2).
    assert (quiet w w1) as [Hg Ht] by apply quiet_then.
    destruct (IH w1) as (Ht' & rs & Hrs & Htm).
    { eapply settled_with_stable; [|done]. by apply stable_grows. }
    fold (register p hs w1). split; [congruence|].
    exists ((length (heap w), pick s h.1 h.2) :: rs). split.
    + cbn. by rewrite Hrs.
    + rewrite Htm. unfold w1. rewrite (then_settled s p a); [|done]. cbn.
      rewrite <- app_assoc. by destruct s.
Qed.

Lemma run_user_reactions s p a : forall (rs : list (ref * fn_id)) w rest,
  settled_with s p a w ->
  timers w = map (fun r => TReaction (Reaction s p r.1 (FUser r.2))) rs ++ rest ->
  trace (ticks (length rs) w) = trace w ++ map (fun r => EvCall r.2 a) rs /\
  exists more, timers (ticks (length rs) w) = rest ++ more.
Proof.
  induction rs as [|[q f] rs IH]; intros w rest Hs Ht.
  - cbn. rewrite app_nil_r. split; [done|]. exists []. by rewrite app_nil_r.
  - cbn [length ticks map fst snd] in *. rewrite <- app_comm_cons in Ht.
    pose proof (tick_head _ _ _ Ht) as Htick.
    pose proof Hs as (pr & Hp & Ha & Hst)%settled_with_spec.
    destruct (timers_run_task (TReaction (Reaction s p q (FUser f)))
                (set_timers (map (fun r => TReaction (Reaction s p r.1 (FUser r.2))) rs
                               ++ rest) w)) as [more Hm].
    rewrite <- Htick in Hm. cbn [timers set_timers] in Hm.
    destruct (IH (tick w) (rest ++ more)) as (Htr & more' & Hm').
    + eapply settled_with_stable; [apply stable_tick|done].
    + by rewrite Hm, <- app_assoc.
    + split.
      * rewrite Htr, Htick. cbn [run_task fst snd].
        rewrite (trace_run_reaction_user s p q f _ pr); [|done].
        cbn [trace set_timers]. by rewrite Ha, <- app_assoc.
      * exists (more ++ more'). by rewrite Hm', <- app_assoc.
Qed.

(** X5.  Handlers attached to a promise that is already settled are called
    in the order of the [then] calls, one per turn of the event loop: let
    [then] be called on [p], settled on side [s] with [a], once for each
    pair of [hs] in one turn.  These calls run nothing.  When the timers set
    before have fired, each following turn calls exactly the next handler of
    side [s] with [a]; the handlers of the other side are not called. *)
Theorem settled_handlers_run_in_call_order s p a (hs : list (fn_id * fn_id)) w :
  settled_with s p a w ->
  let w1 := register p hs w in
  let k := length (timers w) in
  trace w1 = trace w /\
  forall i, i <= length hs ->
    trace (ticks (k + i) w1)
    = trace (ticks k w1) ++ map (fun h => EvCall (pick s h.1 h.2) a) (take i hs).
Proof.
  intros Hs. cbn zeta.
  destruct (register_settled s p a hs w Hs) as (Htr & rs & Hrs & Htm).
  split; [done|]. intros i Hi.
  destruct (ticks_timers _ _ _ Htm) as [more Hm].
  rewrite ticks_add.
  set (W := ticks (length (timers w)) (register p hs w)) in *.
  assert (settled_with s p a W) as HsW.
  { eapply settled_with_stable; [apply stable_ticks|].
    eapply settled_with_stable; [|done].
    clear. revert w. induction hs as [|h hs IH]; intros w; [by intros ? ?|].
    cbn [register foldl]. eapply stable_trans; [|apply IH].
    apply stable_grows, quiet_grows, quiet_then. }
  assert (length rs = length hs) as Hlen.
  { by rewrite <- (length_fmap snd rs), Hrs, length_map. }
  rewrite <- (take_drop i rs), map_app, <- app_assoc in Hm.
  destruct (run_user_reactions s p a (take i rs) W _ HsW Hm) as [Hrun _].
  rewrite length_take, min_l in Hrun by lia. rewrite Hrun. f_equal.
  rewrite <- (map_map snd (fun f => EvCall f a)).
  change (map snd (take i rs)) with ((take i rs).*2).
  rewrite fmap_take, Hrs. change (take i (map ?f hs)) with (take i (f <$> hs)).
  rewrite <- fmap_take. by rewrite map_map.
Qed.

(** ** Further properties: exact runs from an idle event loop *)

Lemma call_fn_logged h a o w :
  handler_outcome h a = Some o ->
  call_fn h a w = (o, set_trace (trace w ++ logged h a) w).
Proof.
  destruct w as [hp c ts tr].
  destruct h; cbn; intros [= <-]; by rewrite ?app_nil_r.
Qed.

Lemma settle_fresh s a hp c ts tr :
  run_task (settle_task s (length hp) a) (World (hp ++ [fresh_promise]) c ts tr)
  = World (hp ++ [settled_record s a]) c ts tr.
Proof.
  rewrite (settle_task_run s _ a _ fresh_promise);
    [|cbn; by rewrite list_lookup_middle|done].
  destruct s; cbn; unfold set_heap; cbn;
    by rewrite insert_app_r_alt, Nat.sub_diag by lia.
Qed.

Lemma settled_with_snoc s a hp c ts tr :
  settled_with s (length hp) a (World (hp ++ [settled_record s a]) c ts tr).
Proof.
  apply settled_with_spec. exists (settled_record s a).
  cbn. rewrite list_lookup_middle; [|done]. by destruct s.
Qed.

Lemma direct_resolvePromise q o s' a' w :
  direct o s' a' ->
  match o with
  | Return x => resolvePromise q x w
  | Throw error => reject q error w
  end
  = nextTick (settle_task s' q a')
      match o with Return _ => (new_cell w).2 | Throw _ => w end.
Proof.
  destruct o as [x|e]; cbn.
  - intros (Hx & -> & ->). by rewrite resolvePromise_plain.
  - by intros [-> ->].
Qed.

(** From an idle loop, [then] on a settled promise takes two turns. *)
Lemma settled_then_run s p a f g o s' a' w :
  timers w = [] -> settled_with s p a w ->
  handler_outcome (invoked s f g) a = Some o -> direct o s' a' ->
  tick (then_ p f g w).2
  = World (heap w ++ [fresh_promise])
      (cells w ++ match o with Return _ => [false] | Throw _ => [] end)
      [settle_task s' (length (heap w)) a']
      (trace w ++ logged (invoked s f g) a) /\
  ticks 2 (then_ p f g w).2
  = World (heap w ++ [settled_record s' a'])
      (cells w ++ match o with Return _ => [false] | Throw _ => [] end)
      [] (trace w ++ logged (invoked s f g) a).
Proof.
  intros Ht Hs Ho Hd. rewrite (then_settled s p a); [|done]. cbn [snd].
  apply settled_with_spec in Hs as (pr & Hp & Ha & Hst).
  destruct w as [hp c ts tr]. cbn in Ht, Hp. subst ts.
  assert (tick (nextTick (TReaction (Reaction s p (length hp) (invoked s f g)))
                  (alloc (World hp c [] tr)).2)
          = World (hp ++ [fresh_promise])
              (c ++ match o with Return _ => [false] | Throw _ => [] end)
              [settle_task s' (length hp) a']
              (tr ++ logged (invoked s f g) a)) as Htick.
  { cbn [tick nextTick alloc snd timers set_timers set_heap heap cells trace app
           run_task].
    rewrite (run_reaction_unfold _ _ pr); [|cbn; by apply lookup_app_l_Some].
    cbn [r_handler r_side r_promise2]. rewrite Ha.
    rewrite (call_fn_logged _ _ o); [|done].
    rewrite (direct_resolvePromise _ _ s' a'); [|done].
    destruct o; cbn; by rewrite ?app_nil_r. }
  split; [exact Htick|].
  cbn [ticks]. unfold invoked in Htick |- *. cbn [heap] in Htick |- *.
  rewrite Htick. unfold tick, set_timers. cbn [timers heap cells trace].
  by rewrite settle_fresh.
Qed.

Lemma take_heap_snoc (hp : list promise) pr : take (length hp) (hp ++ [pr]) = hp.
Proof. by rewrite take_app_length. Qed.

(** X6.  Let the event loop be idle, let [p] be settled on side [s] with
    [a], and let the handler that [then] selects for that side raise an
    error or return a value without a callable [then].  Then the first turn
    calls that handler once with [a] and nothing else (the handler of the
    other side is not called), leaving [promise2] pending; the second turn
    settles [promise2] accordingly; after it the loop is idle again, so
    nothing changes any more.  No promise that existed before is touched. *)
Theorem settled_then_takes_two_turns s p a onFulfilled onRejected o s' a' w :
  timers w = [] -> settled_with s p a w ->
  handler_outcome (invoked s onFulfilled onRejected) a = Some o ->
  direct o s' a' ->
  let promise2 := (then_ p onFulfilled onRejected w).1 in
  let w1 := (then_ p onFulfilled onRejected w).2 in
  trace (tick w1) = trace w ++ logged (invoked s onFulfilled onRejected) a /\
  state_is promise2 PENDING (tick w1) = true /\
  forall n,
    settled_with s' promise2 a' (ticks (2 + n) w1) /\
    timers (ticks (2 + n) w1) = [] /\
    trace (ticks (2 + n) w1)
    = trace w ++ logged (invoked s onFulfilled onRejected) a /\
    take (length (heap w)) (heap (ticks (2 + n) w1)) = heap w.
Proof.
  intros Ht Hs Ho Hd. cbn zeta. rewrite fst_then.
  destruct (settled_then_run s p a onFulfilled onRejected o s' a' w Ht Hs Ho Hd)
    as [H1 H2].
  rewrite H1. split; [done|]. split.
  { unfold state_is. cbn. by rewrite list_lookup_middle. }
  intros n. rewrite ticks_add, H2, ticks_idle by done. cbn [heap timers trace].
  split; [apply settled_with_snoc|]. split; [done|]. split; [done|].
  apply take_heap_snoc.
Qed.

Lemma settle_middle s a h1 h2 c ts tr :
  run_task (settle_task s (length h1) a) (World (h1 ++ fresh_promise :: h2) c ts tr)
  = World (h1 ++ settled_record s a :: h2) c ts tr.
Proof.
  rewrite (settle_task_run s _ a _ fresh_promise);
    [|cbn; by rewrite list_lookup_middle|done].
  destruct s; cbn; unfold set_heap; cbn;
    by rewrite insert_app_r_alt, Nat.sub_diag by lia.
Qed.

Lemma resolvePromise_promise q r w :
  r <> q ->
  resolvePromise q (VPromise r) w
  = (then_ r (VFunction (FAdoptFulfill (length (cells w)) q))
       (VFunction (FAdoptReject (length (cells w)) q)) (new_cell w).2).2.
Proof.
  intros Hne. rewrite resolvePromise_unfold. cbn.
  by rewrite (proj2 (Nat.eqb_neq q r)) by done.
Qed.

Lemma called_snoc_false hp c ts tr :
  called (length c) (World hp (c ++ [false]) ts tr) = false.
Proof. unfold called. cbn. by rewrite list_lookup_middle. Qed.

Lemma mark_snoc hp c ts tr :
  mark (length c) (World hp (c ++ [false]) ts tr) = World hp (c ++ [true]) ts tr.
Proof.
  unfold mark, set_cells. cbn.
  by rewrite insert_app_r_alt, Nat.sub_diag by lia.
Qed.

Lemma tick_cons hp c t ts tr :
  tick (World hp c (t :: ts) tr) = run_task t (World hp c ts tr).
Proof. done. Qed.

Ltac world_step :=
  unfold resolve, reject, nextTick, alloc, new_cell, set_heap, set_cells,
    set_timers, set_trace;
  cbn [heap cells timers trace fst snd app].

(** From an idle loop: a handler returns a settled promise of the library. *)
Lemma adopt_settled_run s p a f g r s2 a2 w :
  timers w = [] -> settled_with s p a w ->
  handler_outcome (invoked s f g) a = Some (Return (VPromise r)) ->
  settled_with s2 r a2 w -> (s2 = Fulfil -> plain a2 = true) ->
  ticks 3 (then_ p f g w).2
  = World (heap w ++ [settled_record s2 a2; fresh_promise])
      (cells w ++ true :: match s2 with Fulfil => [false; false] | Reject => [false] end)
      [TResolve (S (length (heap w))) VUndefined]
      (trace w ++ logged (invoked s f g) a).
Proof.
  intros Ht Hs Ho Hs2 Hpl. rewrite (then_settled s p a); [|done]. cbn [snd].
  apply settled_with_spec in Hs as (pr & Hp & Ha & Hst).
  assert (r <> length (heap w)) as Hne.
  { pose proof Hs2 as (pr2 & Hr & _)%settled_with_spec.
    apply lookup_lt_Some in Hr. lia. }
  destruct w as [hp c ts tr]. cbn in Ht, Hp, Hne, Hs2 |- *. subst ts.
  set (h := invoked s f g) in *.
  world_step. rewrite tick_cons. cbn [run_task].
  rewrite (run_reaction_unfold _ _ pr); [|cbn; by apply lookup_app_l_Some].
  cbn [r_handler r_side r_promise2]. rewrite Ha.
  rewrite (call_fn_logged _ _ _ _ Ho).
  rewrite resolvePromise_promise by done.
  world_step.
  assert (settled_with s2 r a2
            (World (hp ++ [fresh_promise]) (c ++ [false]) [] (tr ++ logged h a)))
    as Hs2W.
  { apply settled_with_spec in Hs2 as (pr2 & Hr & Ha2 & Hst2).
    apply settled_with_spec. exists pr2. split; [|done].
    by apply lookup_app_l_Some. }
  rewrite (then_settled s2 r a2 _ _ _ Hs2W). cbn [snd].
  apply settled_with_spec in Hs2W as (pr2 & Hr & Ha2 & Hst2).
  world_step. rewrite tick_cons. cbn [run_task].
  rewrite (run_reaction_unfold _ _ pr2);
    [|cbn; by apply lookup_app_l_Some].
  cbn [r_handler r_side r_promise2]. rewrite Ha2.
  replace (as_handler (VFunction (FAdoptFulfill (length c) (length hp))) FIdentity)
    with (FAdoptFulfill (length c) (length hp)) by done.
  replace (as_handler (VFunction (FAdoptReject (length c) (length hp))) FRethrow)
    with (FAdoptReject (length c) (length hp)) by done.
  rewrite length_app. cbn [length]. rewrite Nat.add_1_r.
  destruct s2; cbn [pick call_fn called cells].
  - rewrite called_snoc_false, mark_snoc.
    rewrite (resolvePromise_plain _ VUndefined) by done.
    rewrite (resolvePromise_plain _ a2) by auto.
    world_step. rewrite tick_cons.
    rewrite <- !app_assoc. cbn [app].
    exact (settle_middle Fulfil a2 hp [fresh_promise] _ _ _).
  - rewrite called_snoc_false, mark_snoc.
    rewrite (resolvePromise_plain _ VUndefined) by done.
    world_step. rewrite tick_cons.
    rewrite <- !app_assoc. cbn [app].
    exact (settle_middle Reject a2 hp [fresh_promise] _ _ _).
Qed.

(** X7.  Let the event loop be idle and let the handler that [then] runs
    return a promise [r] of this library that is already settled, on side
    [s2] with [a2] (a value without a callable [then] if [r] is fulfilled).
    Then [promise2] is settled like [r], with the same [a2], from the third
    turn on.  The adoption calls [r.then] with the two arrow functions of
    [resolvePromise]: this creates one promise more, which nobody holds, and
    the fourth turn fulfils it with [undefined], after which the loop is idle.
    No function of the caller other than the handler is called, and no
    promise that existed before is touched. *)
Theorem settled_promise_adopted s p a onFulfilled onRejected r s2 a2 w :
  timers w = [] -> settled_with s p a w ->
  handler_outcome (invoked s onFulfilled onRejected) a = Some (Return (VPromise r)) ->
  settled_with s2 r a2 w -> (s2 = Fulfil -> plain a2 = true) ->
  let promise2 := (then_ p onFulfilled onRejected w).1 in
  let w1 := (then_ p onFulfilled onRejected w).2 in
  forall n,
    settled_with s2 promise2 a2 (ticks (3 + n) w1) /\
    trace (ticks (3 + n) w1)
    = trace w ++ logged (invoked s onFulfilled onRejected) a /\
    take (length (heap w)) (heap (ticks (3 + n) w1)) = heap w /\
    length (heap (ticks (3 + n) w1)) = 2 + length (heap w) /\
    fulfilled_with (S promise2) VUndefined (ticks (4 + n) w1) /\
    timers (ticks (4 + n) w1) = [].
Proof.
  intros Ht Hs Ho Hs2 Hpl. cbn zeta. rewrite fst_then.
  pose proof (adopt_settled_run s p a onFulfilled onRejected r s2 a2 w
                Ht Hs Ho Hs2 Hpl) as H3.
  set (w1 := (then_ p onFulfilled onRejected w).2) in *.
  assert (ticks 4 w1
          = World (heap w ++ [settled_record s2 a2; settled_record Fulfil VUndefined])
              (cells w ++ true :: match s2 with
                                  | Fulfil => [false; false]
                                  | Reject => [false]
                                  end)
              [] (trace w ++ logged (invoked s onFulfilled onRejected) a)) as H4.
  { change 4 with (3 + 1). rewrite ticks_add, H3. cbn [ticks]. rewrite tick_cons.
    pose proof (settle_middle Fulfil VUndefined (heap w ++ [settled_record s2 a2]) [])
      as Hm.
    rewrite length_app, Nat.add_1_r, <- !app_assoc in Hm. apply Hm. }
  assert (forall n, ticks (4 + n) w1 = ticks 4 w1) as Hidle.
  { intros n. rewrite ticks_add. apply ticks_idle. by rewrite H4. }
  assert (forall n, ticks (3 + n) w1 = ticks 3 w1 \/ ticks (3 + n) w1 = ticks 4 w1)
    as Hcase.
  { intros [|n]; [left; by rewrite Nat.add_0_r|right].
    replace (3 + S n) with (4 + n) by lia. apply Hidle. }
  intros n. rewrite Hidle.
  assert (fulfilled_with (S (length (heap w))) VUndefined (ticks 4 w1) /\
          timers (ticks 4 w1) = []) as [Hq' Hti].
  { rewrite H4. split; [|done]. exists (settled_record Fulfil VUndefined).
    cbn. split; [|done].
    by rewrite (lookup_app_r (heap w)), Nat.sub_succ_l, Nat.sub_diag by lia. }
  assert (forall W,
            W = ticks 3 w1 \/ W = ticks 4 w1 ->
            settled_with s2 (length (heap w)) a2 W /\
            trace W = trace w ++ logged (invoked s onFulfilled onRejected) a /\
            take (length (heap w)) (heap W) = heap w /\
            length (heap W) = 2 + length (heap w)) as Hboth.
  { intros W [-> | ->]; [rewrite H3|rewrite H4]; cbn [heap trace];
      (split;
       [apply settled_with_spec; exists (settled_record s2 a2); cbn;
        rewrite list_lookup_middle; [|done]; by destruct s2
       |split; [done|split;
                 [by rewrite take_app_length|rewrite length_app; cbn; lia]]]). }
  destruct (Hboth _ (Hcase n)) as (? & ? & ? & ?). by repeat split.
Qed.

Lemma settle_second s a hp y h2 c ts tr :
  run_task (settle_task s (S (length hp)) a)
    (World (hp ++ y :: fresh_promise :: h2) c ts tr)
  = World (hp ++ y :: settled_record s a :: h2) c ts tr.
Proof.
  pose proof (settle_middle s a (hp ++ [y]) h2 c ts tr) as H.
  by rewrite length_app, Nat.add_1_r, <- !app_assoc in H.
Qed.

Lemma settle_third s a hp y z h2 c ts tr :
  run_task (settle_task s (S (S (length hp))) a)
    (World (hp ++ y :: z :: fresh_promise :: h2) c ts tr)
  = World (hp ++ y :: z :: settled_record s a :: h2) c ts tr.
Proof.
  pose proof (settle_second s a (hp ++ [y]) z h2 c ts tr) as H.
  by rewrite length_app, Nat.add_1_r, <- !app_assoc in H.
Qed.

Lemma push_both_fresh hp h2 c ts tr rF rR :
  push_rejected (length hp) rR
    (push_resolved (length hp) rF (World (hp ++ fresh_promise :: h2) c ts tr))
  = World (hp ++ Promise PENDING VUndefined VUndefined [rF] [rR] :: h2) c ts tr.
Proof.
  unfold push_resolved. cbn [heap]. rewrite list_lookup_middle by done.
  unfold set_heap. cbn [heap cells timers trace].
  rewrite insert_app_r_alt, Nat.sub_diag by lia. cbn [insert list_insert].
  unfold push_rejected. cbn [heap]. rewrite list_lookup_middle by done.
  unfold set_heap. cbn [heap cells timers trace].
  by rewrite insert_app_r_alt, Nat.sub_diag by lia.
Qed.

(** From an idle loop: a handler returns a pending promise of the library,
    here the promise of a new deferred. *)
Lemma adopt_pending_run_1 s p a f g w :
  timers w = [] -> settled_with s p a w ->
  handler_outcome (invoked s f g) a = Some (Return (VPromise (length (heap w)))) ->
  tick (then_ p f g (deferred w).2).2
  = World (heap w
             ++ [Promise PENDING VUndefined VUndefined
                   [Reaction Fulfil (length (heap w)) (S (S (length (heap w))))
                      (FAdoptFulfill (length (cells w)) (S (length (heap w))))]
                   [Reaction Reject (length (heap w)) (S (S (length (heap w))))
                      (FAdoptReject (length (cells w)) (S (length (heap w))))];
                 fresh_promise; fresh_promise])
      (cells w ++ [false]) [] (trace w ++ logged (invoked s f g) a).
Proof.
  intros Ht Hs Ho.
  change (deferred w).2 with (alloc w).2.
  assert (settled_with s p a (alloc w).2) as Hs0.
  { eapply settled_with_stable; [|done]. apply stable_grows, quiet_grows, quiet_alloc. }
  rewrite (then_settled s p a _ _ _ Hs0). cbn [snd].
  apply settled_with_spec in Hs as (pr & Hp & Ha & Hst).
  destruct w as [hp c ts tr]. cbn in Ht, Hp |- *. subst ts.
  set (h := invoked s f g) in *.
  world_step. rewrite tick_cons. cbn [run_task].
  rewrite (run_reaction_unfold _ _ pr);
    [|cbn; by apply lookup_app_l_Some, lookup_app_l_Some].
  cbn [r_handler r_side r_promise2]. rewrite Ha.
  rewrite (call_fn_logged _ _ _ _ Ho).
  rewrite resolvePromise_promise by (rewrite length_app; cbn; lia).
  world_step.
  rewrite then_pending.
  2:{ unfold state_is. cbn. rewrite <- app_assoc. cbn [app].
      by rewrite list_lookup_middle. }
  world_step. rewrite <- !app_assoc. cbn [app].
  rewrite push_both_fresh.
  rewrite !length_app. cbn [length]. rewrite !Nat.add_1_r.
  replace (length hp + 2) with (S (S (length hp))) by lia. done.
Qed.

Lemma adopt_pending_run_2 s2 a2 hp c tr :
  (s2 = Fulfil -> plain a2 = true) ->
  let rF := Reaction Fulfil (length hp) (S (S (length hp)))
              (FAdoptFulfill (length c) (S (length hp))) in
  let rR := Reaction Reject (length hp) (S (S (length hp)))
              (FAdoptReject (length c) (S (length hp))) in
  ticks 2 (capability s2 (length hp) a2
             (World (hp ++ [Promise PENDING VUndefined VUndefined [rF] [rR];
                            fresh_promise; fresh_promise])
                (c ++ [false]) [] tr))
  = World (hp ++ [match s2 with
                  | Fulfil => Promise RESOLVED a2 VUndefined [rF] [rR]
                  | Reject => Promise REJECTED VUndefined a2 [rF] [rR]
                  end;
                  settled_record s2 a2; fresh_promise])
      (c ++ true :: match s2 with Fulfil => [false; false] | Reject => [false] end)
      [TResolve (S (S (length hp))) VUndefined] tr.
Proof.
  intros Hpl. cbn zeta.
  set (rF := Reaction Fulfil _ _ _). set (rR := Reaction Reject _ _ _).
  set (pr := Promise PENDING VUndefined VUndefined [rF] [rR]).
  assert (capability s2 (length hp) a2
            (World (hp ++ [pr; fresh_promise; fresh_promise]) (c ++ [false]) [] tr)
          = World (hp ++ [pr; fresh_promise; fresh_promise]) (c ++ [false])
              [settle_task s2 (length hp) a2] tr) as -> by by destruct s2.
  cbn [ticks]. rewrite tick_cons.
  rewrite (settle_task_run s2 _ a2 _ pr); [|cbn; by rewrite list_lookup_middle|done].
  unfold set_heap. cbn [heap cells timers trace].
  rewrite insert_app_r_alt, Nat.sub_diag by lia. cbn [insert list_insert].
  destruct s2; cbn [pr resolvedCallbacks rejectedCallbacks value reason forEach foldl].
  - rewrite (run_reaction_unfold _ _ (Promise RESOLVED a2 VUndefined [rF] [rR]));
      [|cbn; by rewrite list_lookup_middle].
    cbn [rF r_handler r_side r_promise2 payload value call_fn].
    rewrite called_snoc_false, mark_snoc.
    rewrite (resolvePromise_plain _ VUndefined) by done.
    rewrite (resolvePromise_plain _ a2) by auto.
    world_step. rewrite tick_cons. rewrite <- !app_assoc. cbn [app].
    exact (settle_second Fulfil a2 hp _ [fresh_promise] _ _ _).
  - rewrite (run_reaction_unfold _ _ (Promise REJECTED VUndefined a2 [rF] [rR]));
      [|cbn; by rewrite list_lookup_middle].
    cbn [rR r_handler r_side r_promise2 payload reason call_fn].
    rewrite called_snoc_false, mark_snoc.
    rewrite (resolvePromise_plain _ VUndefined) by done.
    world_step. rewrite tick_cons. rewrite <- !app_assoc. cbn [app].
    exact (settle_second Reject a2 hp _ [fresh_promise] _ _ _).
Qed.

(** X8.  Let the event loop be idle and let the handler that [then] runs
    return a pending promise [r] of this library, here the promise of a new
    deferred.  The turn that runs the handler registers the two arrow
    functions of [resolvePromise] on [r] and sets no timer: [promise2] and
    [r] are pending and the loop is idle, for ever if [r] is never settled.
    When a capability of [r] is called afterwards, with a value without a
    callable [then] or with a reason, [promise2] is settled like [r], with
    the same [a2], from the second turn after that call on; no function of
    the caller is called on the way. *)
Theorem pending_promise_adopted s p a onFulfilled onRejected s2 a2 w :
  timers w = [] -> settled_with s p a w ->
  let r := d_promise (deferred w).1 in
  let promise2 := (then_ p onFulfilled onRejected (deferred w).2).1 in
  let w1 := (then_ p onFulfilled onRejected (deferred w).2).2 in
  handler_outcome (invoked s onFulfilled onRejected) a = Some (Return (VPromise r)) ->
  (s2 = Fulfil -> plain a2 = true) ->
  (forall n,
     state_is r PENDING (ticks (1 + n) w1) = true /\
     state_is promise2 PENDING (ticks (1 + n) w1) = true /\
     timers (ticks (1 + n) w1) = []) /\
  (forall n,
     let W := ticks (2 + n) (capability s2 r a2 (tick w1)) in
     settled_with s2 r a2 W /\ settled_with s2 promise2 a2 W /\
     trace W = trace w ++ logged (invoked s onFulfilled onRejected) a).
Proof.
  intros Ht Hs. cbn zeta. rewrite fst_then.
  change (d_promise (deferred w).1) with (length (heap w)).
  replace (length (heap (deferred w).2)) with (S (length (heap w)))
    by (cbn; rewrite length_app; cbn; lia).
  intros Ho Hpl.
  pose proof (adopt_pending_run_1 s p a onFulfilled onRejected w Ht Hs Ho) as H1.
  set (w1 := (then_ p onFulfilled onRejected (deferred w).2).2) in *.
  set (h := invoked s onFulfilled onRejected) in *.
  split.
  - intros n. change (ticks (1 + n) w1) with (ticks n (tick w1)).
    rewrite H1, ticks_idle by done.
    unfold state_is. cbn [heap timers].
    rewrite list_lookup_middle by done.
    rewrite (lookup_app_r (heap w)), Nat.sub_succ_l, Nat.sub_diag by lia. done.
  - intros n. cbn zeta. rewrite H1, ticks_add.
    rewrite (adopt_pending_run_2 s2 a2 (heap w) (cells w) _ Hpl).
    set (W2 := World _ _ _ _).
    assert (forall W, W = W2 \/ W = tick W2 ->
              settled_with s2 (length (heap w)) a2 W /\
              settled_with s2 (S (length (heap w))) a2 W /\
              trace W = trace w ++ logged h a) as Hboth.
    { intros W [-> | ->]; [unfold W2|unfold W2; rewrite tick_cons;
                            change (TResolve ?q ?v) with (settle_task Fulfil q v);
                            rewrite settle_third];
        (split; [|split; [|done]]); apply settled_with_spec.
      all: cbn [heap].
      1,3: eexists; split; [by apply list_lookup_middle|by destruct s2].
      all: exists (settled_record s2 a2);
        (split; [by rewrite (lookup_app_r (heap w)), Nat.sub_succ_l, Nat.sub_diag by lia
                |by destruct s2]). }
    apply Hboth. destruct n as [|n]; [by left|right]. cbn [ticks].
    apply ticks_idle. unfold W2. rewrite tick_cons.
    change (TResolve ?q ?v) with (settle_task Fulfil q v).
    by rewrite settle_third.
Qed.






(** ** Further properties: a thenable that never calls back *)




(** ** Further properties: invariants of the heap *)

Lemma push_both this rF rR w pr :
  heap w !! this = Some pr ->
  heap (push_rejected this rR (push_resolved this rF w))
  = <[this := Promise (state pr) (value pr) (reason pr)
                (resolvedCallbacks pr ++ [rF]) (rejectedCallbacks pr ++ [rR])]> (heap w).
Proof.
  intros Hp. unfold push_resolved. rewrite Hp.
  unfold push_rejected. cbn [heap set_heap].
  rewrite list_lookup_insert_eq by (by eapply lookup_lt_Some).
  cbn. by rewrite list_insert_insert_eq.
Qed.

Section HeapInvariant.

Variable P : list promise -> Prop.
Hypothesis P_alloc : forall h, P h -> P (h ++ [fresh_promise]).
Hypothesis P_queue : forall h this hF hR pr,
  (h ++ [fresh_promise]) !! this = Some pr -> state pr = PENDING -> P h ->
  P (<[this := queued this (length h) hF hR pr]> (h ++ [fresh_promise])).
Hypothesis P_settle : forall h p pr st v r,
  h !! p = Some pr -> P h ->
  P (<[p := Promise st v r (resolvedCallbacks pr) (rejectedCallbacks pr)]> h).

Lemma inv_then this f g w : P (heap w) -> P (heap (then_ this f g w).2).
Proof.
  intros H. rewrite then_unfold. cbn [snd].
  assert (P (heap (alloc w).2)) as Ha by (by apply P_alloc).
  destruct (heap (alloc w).2 !! this) as [pr0|] eqn:H0; [|done].
  destruct (state pr0) eqn:Hs; [|done..].
  rewrite (push_both _ _ _ _ pr0 H0). by apply (P_queue (heap w) this).
Qed.

Lemma inv_call_then c promise2 body :
  list_all _ (prod_all _ (fun _ => unit) _
                (fun y => forall p2 w, P (heap w) -> P (heap (resolvePromise p2 y w))))
    body ->
  forall w, P (heap w) ->
    P (heap (call_then (FAdoptFulfill c promise2) (FAdoptReject c promise2) body w)).
Proof.
  induction 1 as [|a Ha rest _ IH]; intros w Hw; [done|].
  destruct Ha as [[t s] _ y IHy].
  destruct t, s; cbn [call_then call_fn snd]; apply IH; try done.
  - destruct (called c w); [done|]. by apply IHy.
  - by destruct (called c w).
Qed.

Lemma inv_resolvePromise x : forall promise2 w,
  P (heap w) -> P (heap (resolvePromise promise2 x w)).
Proof.
  induction x as [| | | | | | | |p|e IHe|body IHbody raise IHraise];
    intros promise2 w Hw; rewrite resolvePromise_unfold;
    destruct (same_promise _ _); try done;
    cbn [new_cell isObject isFunction typeof orb]; try done.
  - by apply inv_then.
  - unfold catch_. by destruct (called _ _).
  - cbv zeta.
    assert (P (heap (call_then (FAdoptFulfill (length (cells w)) promise2)
                       (FAdoptReject (length (cells w)) promise2) body
                       (set_cells (cells w ++ [false]) w)))) as Hb
      by (by apply inv_call_then).
    destruct raise; [|done]. unfold catch_. by destruct (called _ _).
Qed.

Lemma inv_call_fn f arg w : P (heap w) -> P (heap (call_fn f arg w).2).
Proof.
  intros Hw. destruct f; cbn [call_fn snd]; try done.
  - destruct (called called0 w); [done|]. by apply inv_resolvePromise.
  - by destruct (called called0 w).
Qed.

Lemma inv_run_reaction r w : P (heap w) -> P (heap (run_reaction r w)).
Proof.
  intros Hw. unfold run_reaction. destruct (heap w !! r_this r) as [this|]; [|done].
  pose proof (inv_call_fn (r_handler r)
                (match r_side r with Fulfil => value this | Reject => reason this end)
                w Hw) as H.
  destruct (call_fn _ _ w) as [[x|e] w1]; cbn [snd] in H; [|done].
  by apply inv_resolvePromise.
Qed.

Lemma inv_forEach callbacks : forall w,
  P (heap w) -> P (heap (forEach callbacks w)).
Proof.
  induction callbacks as [|r rs IH]; intros w Hw; [done|].
  cbn [forEach foldl]. by apply IH, inv_run_reaction.
Qed.

Lemma inv_run_task t w : P (heap w) -> P (heap (run_task t w)).
Proof.
  intros Hw. destruct t as [p v|p r|r|f v]; cbn [run_task].
  - unfold settle_resolved. destruct (heap w !! p) as [pr|] eqn:Hp; [|done].
    destruct (state pr); try done. apply inv_forEach. by apply P_settle.
  - unfold settle_rejected. destruct (heap w !! p) as [pr|] eqn:Hp; [|done].
    destruct (state pr); try done. apply inv_forEach. by apply P_settle.
  - by apply inv_run_reaction.
  - by apply inv_call_fn.
Qed.

Lemma inv_tick w : P (heap w) -> P (heap (tick w)).
Proof.
  intros Hw. unfold tick. destruct (timers w); [done|]. by apply inv_run_task.
Qed.

Lemma inv_reachable w : P [] -> reachable w -> P (heap w).
Proof.
  intros H0. induction 1 as [|ex w _ IH|p f r w _ IH _ _ _|p v w _ IH _
                            |p r w _ IH _|w _ IH]; try done.
  - unfold construct. cbn.
    assert (forall this cs W,
              heap (foldl (fun w c => capability c.1 this c.2 w) W cs) = heap W)
      as Hcs.
    { intros this cs W. apply (capabilities_spec _ 0). }
    destruct (ex_raise ex); cbn; rewrite Hcs; by apply P_alloc.
  - by apply inv_then.
  - by apply inv_tick.
Qed.

End HeapInvariant.

Lemma paired_alloc h : paired h -> paired (h ++ [fresh_promise]).
Proof.
  intros H p pr [[_ Hp]|[_ <-]]%lookup_snoc_Some; [by eapply H|constructor].
Qed.

Lemma paired_queue h this promise2 hF hR pr :
  h !! this = Some pr -> state pr = PENDING -> paired h ->
  paired (<[this := queued this promise2 hF hR pr]> h).
Proof.
  intros Hp _ H p pr' [(-> & <- & _)|[Hne Hp']]%list_lookup_insert_Some.
  - apply Forall2_app; [by apply H|]. by repeat constructor.
  - by eapply H.
Qed.

Lemma paired_settle h p pr st v r :
  h !! p = Some pr -> paired h ->
  paired (<[p := Promise st v r (resolvedCallbacks pr) (rejectedCallbacks pr)]> h).
Proof.
  intros Hp H p' pr' [(-> & <- & _)|[Hne Hp']]%list_lookup_insert_Some.
  - exact (H p' pr Hp).
  - by eapply H.
Qed.

(** X11.  In every world a program can bring about, the two queues of a
    promise go together: they have the same length, and the entries at one
    position are the two reactions of one call of [then] on this very
    promise, one for fulfilment and one for rejection, both for the same
    [promise2].  (The queues are only ever appended to, by [then], one entry
    each.) *)
Theorem queues_are_paired w p pr :
  reachable w -> heap w !! p = Some pr ->
  length (resolvedCallbacks pr) = length (rejectedCallbacks pr) /\
  forall i rF rR,
    resolvedCallbacks pr !! i = Some rF -> rejectedCallbacks pr !! i = Some rR ->
    r_side rF = Fulfil /\ r_side rR = Reject /\
    r_this rF = p /\ r_this rR = p /\ r_promise2 rF = r_promise2 rR.
Proof.
  intros Hr Hp.
  assert (paired (heap w)) as H.
  { apply (inv_reachable paired paired_alloc); [|exact paired_settle| |done].
    - intros h this hF hR pr0 H0 Hs Hh.
      by apply (paired_queue _ this), paired_alloc.
    - by intros ? ?. }
  specialize (H p pr Hp). split.
  - by eapply Forall2_length.
  - intros i rF rR HF HR. by apply (Forall2_lookup_lr _ _ _ _ _ _ H HF HR).
Qed.

(** ** Further properties: nothing is taken back *)

Lemma retains_refl w : retains w w.
Proof. split; [|done]. intros p pr Hp. by exists pr. Qed.

Lemma retains_trans w1 w2 w3 : retains w1 w2 -> retains w2 w3 -> retains w1 w3.
Proof.
  intros (H1 & T1 & C1) (H2 & T2 & C2). split; [|split].
  - intros p pr Hp. destruct (H1 p pr Hp) as (pr1 & Hp1 & F1 & R1 & S1).
    destruct (H2 p pr1 Hp1) as (pr2 & Hp2 & F2 & R2 & S2).
    exists pr2. split; [done|]. split; [by etrans|]. split; [by etrans|].
    intros Hs. rewrite <- (S1 Hs). apply S2. by rewrite (S1 Hs).
  - by etrans.
  - auto.
Qed.

Lemma grows_retains w w' : grows w w' -> retains w w'.
Proof.
  intros [Hh _ Hc _ Ht]. split; [|done]. intros p pr Hp.
  destruct (Hh p pr Hp) as (pr' & Hp' & (_ & HF & HR) & Hs). by exists pr'.
Qed.

Lemma retains_settle p pr st v r w :
  heap w !! p = Some pr -> state pr = PENDING ->
  retains w (set_heap (<[p := Promise st v r (resolvedCallbacks pr)
                                (rejectedCallbacks pr)]> (heap w)) w).
Proof.
  intros Hp Hs. split; [|done]. intros q qr Hq. cbn.
  destruct (decide (p = q)) as [->|Hne].
  - rewrite list_lookup_insert_eq by (by eapply lookup_lt_Some).
    eexists. split; [done|]. assert (qr = pr) as -> by congruence. by cbn.
  - rewrite list_lookup_insert_ne by done. by exists qr.
Qed.

Lemma retains_run_task t w : retains w (run_task t w).
Proof.
  destruct t as [p v|p r|r|f v]; cbn [run_task].
  - unfold settle_resolved. destruct (heap w !! p) as [pr|] eqn:Hp;
      [|apply retains_refl].
    destruct (state pr) eqn:Hs; try apply retains_refl.
    eapply retains_trans; [by apply retains_settle|apply grows_retains, grows_forEach].
  - unfold settle_rejected. destruct (heap w !! p) as [pr|] eqn:Hp;
      [|apply retains_refl].
    destruct (state pr) eqn:Hs; try apply retains_refl.
    eapply retains_trans; [by apply retains_settle|apply grows_retains, grows_forEach].
  - apply grows_retains, grows_run_reaction.
  - apply grows_retains, grows_call_fn.
Qed.

Lemma retains_tick w : retains w (tick w).
Proof.
  unfold tick. destruct (timers w) as [|t rest]; [apply retains_refl|].
  eapply retains_trans; [|apply retains_run_task]. split; [|done].
  intros p pr Hp. by exists pr.
Qed.

(** X12.  The event loop takes nothing back.  After any number of turns
    every promise is still there; its queues of reactions still begin with
    the reactions they held, also after the promise was settled and the
    reactions have run (the queues are never emptied); a promise that was
    settled is unchanged in every field; what was in the trace is still
    its beginning; and a [called] flag that was set is still set. *)
Theorem event_loop_retains n : forall w, retains w (ticks n w).
Proof.
  induction n as [|n IH]; intros w; [apply retains_refl|]. cbn [ticks].
  eapply retains_trans; [apply retains_tick|apply IH].
Qed.

(** ** Further properties: exact runs, continued *)

(** From an idle loop: [new Promise(ex).then(f, g)], where the executor
    calls one capability. *)
Lemma constructed_then_run s a f g o s' a' w :
  timers w = [] ->
  handler_outcome (invoked s f g) a = Some o -> direct o s' a' ->
  let rF := Reaction Fulfil (length (heap w)) (S (length (heap w)))
              (as_handler f FIdentity) in
  let rR := Reaction Reject (length (heap w)) (S (length (heap w)))
              (as_handler g FRethrow) in
  let this := match s with
              | Fulfil => Promise RESOLVED a VUndefined [rF] [rR]
              | Reject => Promise REJECTED VUndefined a [rF] [rR]
              end in
  tick (then_ (length (heap w)) f g (construct (Executor [(s, a)] None) w).2).2
  = World (heap w ++ [this; fresh_promise])
      (cells w ++ match o with Return _ => [false] | Throw _ => [] end)
      [settle_task s' (S (length (heap w))) a']
      (trace w ++ logged (invoked s f g) a).
Proof.
  intros Ht Ho Hd. cbn zeta. rewrite construct_call. cbn [snd].
  rewrite then_pending
    by (rewrite state_is_capability; apply state_is_alloc).
  destruct w as [hp c ts tr]. cbn in Ht. subst ts.
  set (h := invoked s f g) in *. world_step.
  assert (capability s (length hp) a (World (hp ++ [fresh_promise]) c [] tr)
          = World (hp ++ [fresh_promise]) c [settle_task s (length hp) a] tr) as ->
    by by destruct s.
  world_step. rewrite <- !app_assoc. cbn [app].
  rewrite length_app. cbn [length]. rewrite Nat.add_1_r.
  rewrite push_both_fresh, tick_cons.
  set (rF := Reaction Fulfil _ _ _). set (rR := Reaction Reject _ _ _).
  rewrite (settle_task_run s _ a _ (Promise PENDING VUndefined VUndefined [rF] [rR]));
    [|cbn; by rewrite list_lookup_middle|done].
  unfold set_heap. cbn [heap cells timers trace resolvedCallbacks rejectedCallbacks
                          value reason].
  rewrite insert_app_r_alt, Nat.sub_diag by lia. cbn [insert list_insert].
  destruct s; cbn [forEach foldl];
    (erewrite run_reaction_unfold; [|cbn; by rewrite list_lookup_middle]);
    cbn [rF rR r_handler r_side r_promise2 payload value reason];
    change (as_handler f FIdentity) with (invoked Fulfil f g);
    change (as_handler g FRethrow) with (invoked Reject f g);
    fold h; rewrite (call_fn_logged _ _ o) by done;
    rewrite (direct_resolvePromise _ _ s' a') by done;
    destruct o; world_step; by rewrite ?app_nil_r.
Qed.

(** X13.  Let the event loop be idle.  In [new Promise(ex).then(f, g)],
    where the executor calls one capability, nothing runs before [then]
    returns.  The first turn settles the promise and, in that same turn,
    calls the handler [then] queued for that side, once, with the value or
    reason; the promise returned by [then] is still pending then.  If the
    handler raises or returns a value without a callable [then], the second
    turn settles that promise accordingly, and the loop is idle again. *)
Theorem constructed_then_takes_two_turns s a onFulfilled onRejected o s' a' w :
  timers w = [] ->
  handler_outcome (invoked s onFulfilled onRejected) a = Some o ->
  direct o s' a' ->
  let this := (construct (Executor [(s, a)] None) w).1 in
  let w0 := (construct (Executor [(s, a)] None) w).2 in
  let promise2 := (then_ this onFulfilled onRejected w0).1 in
  let w1 := (then_ this onFulfilled onRejected w0).2 in
  trace w1 = trace w /\
  state_is this PENDING w1 = true /\
  settled_with s this a (tick w1) /\
  state_is promise2 PENDING (tick w1) = true /\
  trace (tick w1) = trace w ++ logged (invoked s onFulfilled onRejected) a /\
  forall n,
    settled_with s this a (ticks (2 + n) w1) /\
    settled_with s' promise2 a' (ticks (2 + n) w1) /\
    timers (ticks (2 + n) w1) = [] /\
    trace (ticks (2 + n) w1)
    = trace w ++ logged (invoked s onFulfilled onRejected) a.
Proof.
  intros Ht Ho Hd. cbn zeta. rewrite fst_then.
  change (construct (Executor [(s, a)] None) w).1 with (length (heap w)).
  replace (length (heap (construct (Executor [(s, a)] None) w).2))
    with (S (length (heap w)))
    by (rewrite construct_call; destruct s; cbn; rewrite length_app; cbn; lia).
  pose proof (constructed_then_run s a onFulfilled onRejected o s' a' w Ht Ho Hd)
    as H1. cbn zeta in H1.
  set (w0 := (construct (Executor [(s, a)] None) w).2) in *.
  set (w1 := (then_ (length (heap w)) onFulfilled onRejected w0).2) in *.
  split.
  { unfold w1, w0. rewrite (proj2 (quiet_then _ _ _ _)). apply quiet_construct. }
  split.
  { apply state_is_then. unfold w0. rewrite state_is_construct.
    apply state_is_alloc. }
  rewrite H1. cbn [trace].
  assert (forall hp (x : list reaction * list reaction) y more c ts tr,
            y = match s with
                | Fulfil => Promise RESOLVED a VUndefined x.1 x.2
                | Reject => Promise REJECTED VUndefined a x.1 x.2
                end ->
            settled_with s (length hp) a (World (hp ++ y :: more) c ts tr)) as Hthis.
  { intros hp x y more c ts tr ->. apply settled_with_spec. eexists.
    split; [cbn; by apply list_lookup_middle|by destruct s]. }
  split; [by eapply (Hthis _ (_, _))|].
  split.
  { unfold state_is. cbn.
    by rewrite (lookup_app_r (heap w)), Nat.sub_succ_l, Nat.sub_diag by lia. }
  split; [done|]. intros n.
  change (ticks (2 + n) w1) with (ticks n (tick (tick w1))).
  rewrite H1, tick_cons, settle_second, ticks_idle by done. cbn [timers trace].
  split; [by eapply (Hthis _ (_, _))|]. split; [|done].
  apply settled_with_spec. exists (settled_record s' a'). cbn.
  rewrite (lookup_app_r (heap w)), Nat.sub_succ_l, Nat.sub_diag by lia.
  by destruct s'.
Qed.

(** ** Further properties: adopting a promise fulfilled with itself *)

Lemma spinning_tick hp r q w : spinning hp r q w -> spinning hp r q (tick w).
Proof.
  intros (rest & before & after & j & c & prr & Hh & -> & Hrest & Ht & Hb & Ha
          & Hj & Hc & Hr & Hs & Hv).
  destruct w as [h cs ts tr]. cbn in Hh, Ht, Hc. subst h ts.
  destruct before as [|t before].
  - cbn [app]. rewrite tick_cons. cbn [run_task].
    rewrite (run_reaction_unfold _ _ prr); [|cbn; by apply lookup_app_l_Some].
    cbn [r_handler r_side r_promise2 payload call_fn]. rewrite Hv.
    unfold called. cbn [cells]. rewrite Hc. cbn [default from_option id].
    assert (r <> length hp) as Hne by (apply lookup_lt_Some in Hr; lia).
    rewrite resolvePromise_promise by done.
    rewrite (then_fulfilled _ _ _ _ prr);
      [|cbn; by apply lookup_app_l_Some|done].
    rewrite (resolvePromise_plain _ VUndefined) by done.
    unfold mark. world_step. cbn [as_handler isFunction typeof].
    exists (rest ++ [fresh_promise]), after, [TResolve j VUndefined],
      (length (hp ++ fresh_promise :: rest)), (length (<[c:=true]> cs)), prr.
    rewrite <- app_assoc. cbn [app].
    repeat split; try done.
    + apply Forall_app. split; [done|]. by repeat constructor.
    + cbn. by rewrite <- app_assoc.
    + apply Forall_singleton. by exists j.
    + rewrite length_app. cbn. lia.
    + cbn [cells]. rewrite <- app_assoc. cbn [app]. by rewrite list_lookup_middle.
  - apply Forall_cons in Hb as [(i & -> & Hi) Hb].
    rewrite <- app_comm_cons, tick_cons. cbn [run_task].
    unfold settle_resolved. cbn [heap].
    destruct ((hp ++ fresh_promise :: rest) !! i) as [pr|] eqn:Hi';
      [destruct (state pr) eqn:Hst|];
      try (exists rest, before, after, j, c, prr; by repeat split).
    rewrite lookup_app_r in Hi' by lia.
    destruct (i - length hp) as [|k] eqn:Hk; [lia|]. cbn in Hi'.
    pose proof (Forall_lookup_1 _ _ _ _ Hrest Hi') as [HF HR].
    rewrite HF. cbn [forEach foldl]. unfold set_heap. cbn [heap cells timers trace].
    exists (<[k := Promise RESOLVED VUndefined (reason pr) [] (rejectedCallbacks pr)]>
              rest), before, after, j, c, prr.
    repeat split; try done.
    + rewrite insert_app_r_alt by lia. by rewrite Hk.
    + apply Forall_insert; [done|]. by rewrite HR.
Qed.

Lemma spinning_ticks hp r q n : forall w, spinning hp r q w -> spinning hp r q (ticks n w).
Proof.
  induction n as [|n IH]; intros w H; [done|]. cbn [ticks].
  by apply IH, spinning_tick.
Qed.

(** X14.  A promise can be fulfilled with itself (the capability [resolve]
    stores what it is given).  Let [r] be such a promise, let the event loop
    be idle, and let the handler that [then] runs return [r]; this is so in
    particular for [r.then()], whose default handler returns the value of
    [r].  Then [promise2] is never settled and the event loop never becomes
    idle again: adopting [r] calls [r.then], whose reaction hands [r] to the
    resolution procedure once more, and so on, one new timer after another. *)
Theorem self_fulfilled_promise_spins s p a onFulfilled onRejected r w :
  timers w = [] -> settled_with s p a w -> fulfilled_with r (VPromise r) w ->
  handler_outcome (invoked s onFulfilled onRejected) a = Some (Return (VPromise r)) ->
  let promise2 := (then_ p onFulfilled onRejected w).1 in
  let w1 := (then_ p onFulfilled onRejected w).2 in
  forall n, state_is promise2 PENDING (ticks n w1) = true /\
            timers (ticks n w1) <> [].
Proof.
  intros Ht Hs (prr & Hr & Hst & Hv) Ho. cbn zeta. rewrite fst_then.
  assert (forall W, spinning (heap w) r (length (heap w)) W ->
            state_is (length (heap w)) PENDING W = true /\ timers W <> []) as Hspin.
  { intros W (rest & before & after & j & c & _ & Hh & _ & _ & Htm & _).
    split.
    - unfold state_is. rewrite Hh. by rewrite list_lookup_middle.
    - rewrite Htm. by destruct before. }
  assert (spinning (heap w) r (length (heap w))
            (tick (then_ p onFulfilled onRejected w).2)) as H1.
  { rewrite (then_settled s p a); [|done]. cbn [snd].
    apply settled_with_spec in Hs as (pr & Hp & Ha & Hsp).
    assert (r <> length (heap w)) as Hne by (apply lookup_lt_Some in Hr; lia).
    destruct w as [hp c ts tr]. cbn in Ht, Hp, Hr, Hne |- *. subst ts.
    world_step. rewrite tick_cons. cbn [run_task].
    rewrite (run_reaction_unfold _ _ pr); [|cbn; by apply lookup_app_l_Some].
    cbn [r_handler r_side r_promise2]. rewrite Ha.
    fold (invoked s onFulfilled onRejected).
    rewrite (call_fn_logged _ _ _ _ Ho).
    rewrite resolvePromise_promise by done.
    rewrite (then_fulfilled _ _ _ _ prr); [|cbn; by apply lookup_app_l_Some|done].
    world_step. cbn [as_handler isFunction typeof].
    exists [fresh_promise], [], [], (length (hp ++ [fresh_promise])), (length c), prr.
    rewrite <- app_assoc. cbn [app].
    repeat split; try done.
    - by repeat constructor.
    - rewrite length_app. cbn. lia.
    - cbn. by rewrite list_lookup_middle. }
  intros [|n].
  - cbn [ticks]. rewrite (then_settled s p a); [|done]. cbn [snd].
    split; [apply state_is_alloc|cbn; by destruct (timers w)].
  - cbn [ticks]. by apply Hspin, spinning_ticks.
Qed.

(** ** Further properties: chains of any length *)

Lemma linked_pass_through p q hF hR n : forall p' w,
  linked p q hF hR w -> linked p q hF hR (pass_through p' n w).
Proof.
  induction n as [|n IH]; intros p' w Hl; [done|]. cbn [pass_through].
  by apply IH, linked_then_other.
Qed.

Lemma length_heap_pass_through n : forall p w,
  length (heap (pass_through p n w)) = n + length (heap w).
Proof.
  induction n as [|n IH]; intros p w; [done|]. cbn [pass_through].
  rewrite IH, length_heap_then. lia.
Qed.

Lemma pass_through_links n : forall p w,
  closed w -> state_is p PENDING w = true ->
  let W := pass_through p n w in
  timers W = timers w /\ state_is p PENDING W = true /\
  forall j, j < n ->
    linked (match j with O => p | S i => length (heap w) + i end)
      (length (heap w) + j) FIdentity FRethrow W.
Proof.
  induction n as [|n IH]; intros p w Hc Hp; cbn zeta; [by repeat split; try lia|].
  cbn [pass_through]. rewrite fst_then.
  pose proof (linked_then p VUndefined VUndefined w (Hc _ (le_n _)) Hp) as Hl.
  set (w' := (then_ p VUndefined VUndefined w).2) in *.
  assert (closed w') as Hc' by (by apply closed_then).
  destruct (IH (length (heap w)) w' Hc' (linked_pending _ _ _ _ _ Hl))
    as (Ht & Hq & Hlinks).
  split; [|split].
  - rewrite Ht. by apply timers_then_pending.
  - apply (linked_pass_through _ _ _ _ n (length (heap w))) in Hl.
    destruct Hl as [_ _ _ (pr & Hpr & Hs & _) _]. apply state_is_spec. eauto.
  - intros [|j] Hj.
    + rewrite Nat.add_0_r. by apply linked_pass_through.
    + specialize (Hlinks j ltac:(lia)). unfold w' in Hlinks at 1 2.
      rewrite length_heap_then in Hlinks.
      replace (length (heap w) + S j) with (S (length (heap w)) + j) by lia.
      destruct j as [|i]; [by rewrite Nat.add_0_r|].
      by replace (length (heap w) + S i) with (S (length (heap w)) + i) by lia.
Qed.

Lemma pass_through_fires s a n p len W m0 :
  (s = Fulfil -> plain a = true) ->
  (forall j, j < n ->
     linked (match j with O => p | S i => len + i end) (len + j) FIdentity FRethrow W) ->
  fires s p a (ticks m0 W) ->
  forall j, j <= n ->
    exists m, fires s (match j with O => p | S i => len + i end) a (ticks m W) /\
      forall j', j' < j -> forall k,
        settled_with s (match j' with O => p | S i => len + i end) a
          (ticks (S m + k) W).
Proof.
  intros Hpl Hlinks Hfire. induction j as [|j IH]; intros Hj.
  - exists m0. split; [done|]. lia.
  - destruct IH as (m & Hf & Hprev); [lia|].
    destruct (chain1 _ _ _ _ s a (match s with Fulfil => Return a | Reject => Throw a end)
                s a m W (Hlinks j ltac:(lia)) Hf) as (m' & Hlt & Hf').
    { by destruct s. }
    { destruct s; [by apply sync_plain, Hpl|done]. }
    exists m'. split; [done|]. intros j' Hj' k.
    destruct (decide (j' = j)) as [->|Hne].
    + apply (settled_with_later s _ a m); [|lia]. by apply fires_settles_from.
    + specialize (Hprev j' ltac:(lia) (m' - m + k)).
      by replace (S m + (m' - m + k)) with (S m' + k) in Hprev by lia.
Qed.

(** X15.  A settlement passes through a chain of [then] calls without
    handlers of any length: in [new Promise(ex).then().then()...then()],
    where the executor calls one capability, with a reason or with a value
    without a callable [then], the promise and all [n] promises returned by
    the [then] calls are, from some turn on, settled on the same side with
    the same value or reason. *)
Theorem settlement_passes_through_chain s a n w :
  reachable w -> (s = Fulfil -> plain a = true) ->
  let p := (construct (Executor [(s, a)] None) w).1 in
  let W := pass_through p n (construct (Executor [(s, a)] None) w).2 in
  length (heap W) = S n + length (heap w) /\
  exists N, forall k i, i <= n -> settled_with s (p + i) a (ticks (N + k) W).
Proof.
  intros Hr Hpl. cbn zeta.
  change (construct (Executor [(s, a)] None) w).1 with (length (heap w)).
  pose proof (reachable_closed w Hr) as Hc.
  set (w0 := (construct (Executor [(s, a)] None) w).2).
  assert (closed w0) as Hc0 by by apply closed_construct.
  assert (state_is (length (heap w)) PENDING w0 = true) as Hp0.
  { unfold w0. rewrite state_is_construct. apply state_is_alloc. }
  assert (length (heap w0) = S (length (heap w))) as Hlen.
  { unfold w0. rewrite construct_call. destruct s; cbn; rewrite length_app; cbn; lia. }
  destruct (pass_through_links n _ w0 Hc0 Hp0) as (Ht & Hp & Hlinks).
  set (W := pass_through (length (heap w)) n w0) in *.
  split.
  { unfold W. rewrite length_heap_pass_through, Hlen. lia. }
  assert (fires s (length (heap w)) a (ticks (length (timers w)) W)) as Hfire.
  { apply (queued_fires s _ a (timers w) []); [|
      apply spare_undisturbed, (Hc _ (le_n _))|done].
    rewrite Ht. unfold w0. rewrite construct_call. cbn [snd].
    by rewrite timers_capability. }
  destruct (pass_through_fires s a n _ _ W _ Hpl Hlinks Hfire n (le_n _))
    as (m & Hf & Hprev).
  exists (S m). intros k i Hi.
  destruct (decide (i = n)) as [->|Hne].
  - destruct n as [|n]; [rewrite Nat.add_0_r|rewrite Hlen in Hf;
      replace (length (heap w) + S n) with (S (length (heap w)) + n) by lia];
      by apply fires_settles_from.
  - specialize (Hprev i ltac:(lia) k).
    destruct i as [|i]; [by rewrite Nat.add_0_r|]. rewrite Hlen in Hprev.
    by replace (length (heap w) + S i) with (S (length (heap w)) + i) by lia.
Qed.

(** ** Further properties: the fields of a promise *)

(** X16.  In every world a program can bring about, the fields of a promise
    agree with its state: a pending promise holds neither a value nor a
    reason, a fulfilled promise holds no reason, and a rejected promise
    holds no value. *)
Theorem promise_fields_match_state w p pr :
  reachable w -> heap w !! p = Some pr ->
  match state pr with
  | PENDING => value pr = VUndefined /\ reason pr = VUndefined
  | RESOLVED => reason pr = VUndefined
  | REJECTED => value pr = VUndefined
  end.
Proof. intros Hr Hp. exact (reachable_tidy w Hr p pr Hp). Qed.

(** ** The flags that closures hold exist *)



























(** ** The reactions of one queue settle different promises *)







(** ** The store of flags only grows *)




(** ** Cold closures: what cannot settle [q] any more *)

Section Cold.

Variable q : ref.
Variable oc : option cell.
Variable host : option ref.

































End Cold.

(** ** What is about to be settled *)









(** ** An adoption under way *)

Section Adoption.

Variable w0 : world.
Variable q : ref.














































End Adoption.

(** ** Adoption by the promise that [then] returns *)













End Library.

(** ** Closed examples *)

Lemma settled_promise_is_final_witness :
  heap world_settled !! 0 = Some (Promise RESOLVED (VNum 1) VUndefined [] []) /\
  (forall v n, heap (ticks demo_fn n (resolve 0 v world_settled)) !! 0
               = Some (Promise RESOLVED (VNum 1) VUndefined [] [])).
Proof.
  split; [reflexivity|].
  apply (settled_promise_is_final demo_fn world_settled 0
           (Promise RESOLVED (VNum 1) VUndefined [] [])).
  - change world_settled
      with (tick demo_fn (construct (Executor [(Fulfil, VNum 1)] None) empty_world).2).
    apply reach_tick, reach_construct, reach_empty.
  - reflexivity.
  - discriminate.
Defined.

Lemma executor_error_rejects_witness :
  rejected_with 0 (VError "Error" "boom")
    (ticks demo_fn 1 (construct (Executor [] (Some (VError "Error" "boom")))
                        empty_world).2).
Proof.
  apply (executor_error_rejects demo_fn empty_world (VError "Error" "boom")).
  apply reach_empty.
Defined.

Lemma deferred_first_call_wins_witness :
  fulfilled_with 0 (VNum 1)
    (ticks demo_fn 2
       (reject 0 (VStr "late") (resolve 0 (VNum 1) (deferred empty_world).2))) /\
  rejected_with 0 (VStr "late")
    (ticks demo_fn 2
       (resolve 0 (VNum 1) (reject 0 (VStr "late") (deferred empty_world).2))) /\
  rejected_with 0 (VStr "late")
    (ticks demo_fn 1 (reject 0 (VStr "late") (deferred empty_world).2)).
Proof.
  pose proof (deferred_first_call_wins demo_fn empty_world (VNum 1) (VStr "late")
                (reach_empty demo_fn)) as H.
  cbv zeta in H.
  destruct H as (_ & _ & H1 & _ & _ & _ & H2 & _ & H3 & _).
  split; [exact (H1 1)|]. split; [exact (H3 1)|exact (H2 0)].
Defined.

Lemma non_function_handlers_default_witness :
  then_ 0 (VNum 5) (VStr "x") world_settled
  = then_ 0 VUndefined VUndefined world_settled /\
  timers (then_ 0 (VNum 5) (VStr "x") world_settled).2
  = [TReaction (Reaction Fulfil 0 1 FIdentity)] /\
  exists N, forall n,
    fulfilled_with 1 (VNum 1)
      (ticks demo_fn (N + n) (then_ 0 (VNum 5) (VStr "x") world_settled).2).
Proof.
  assert (fulfilled_with 0 (VNum 1) world_settled) as Hs.
  { eexists. split; [reflexivity|]. split; reflexivity. }
  pose proof (non_function_handlers_default demo_fn 0 (VNum 5) (VStr "x")
                world_settled eq_refl eq_refl) as H.
  cbv zeta in H.
  destruct H as (_ & _ & Heq & _ & _ & Ht & _ & _ & Hrun).
  split; [exact Heq|]. split; [exact (Ht (VNum 1) Hs)|].
  assert (reachable demo_fn world_settled) as Hr.
  { change world_settled
      with (tick demo_fn
              (construct (Executor [(Fulfil, VNum 1)] None) empty_world).2).
    apply reach_tick, reach_construct, reach_empty. }
  destruct (Hrun Hr) as [Hf _].
  exact (proj1 (Hf (VNum 1) eq_refl) Hs).
Defined.

Lemma guard_flag_first_call_wins_witness :
  resolvePromise 0 bad_thenable empty_world
  = later_calls (FAdoptFulfill (new_cell empty_world).1 0)
      (FAdoptReject (new_cell empty_world).1 0)
      [(Sync, Reject, VStr "no"); (Async, Fulfil, VNum 2)]
      (call_fn demo_fn (adopt Fulfil (new_cell empty_world).1 0) (VNum 1)
         (new_cell empty_world).2).2 /\
  resolvePromise 0 (VThenable [(Async, Fulfil, VNum 1)] (Some (VStr "early")))
    empty_world
  = reject 0 (VStr "early")
      (mark (new_cell empty_world).1
         (later_calls (FAdoptFulfill (new_cell empty_world).1 0)
            (FAdoptReject (new_cell empty_world).1 0)
            [(Async, Fulfil, VNum 1)] (new_cell empty_world).2)) /\
  catch_ (new_cell empty_world).1 0 (VStr "late")
    (mark (new_cell empty_world).1 (new_cell empty_world).2)
  = mark (new_cell empty_world).1 (new_cell empty_world).2.
Proof.
  pose proof (guard_flag_first_call_wins demo_fn 0 empty_world) as H.
  cbv zeta in H. destruct H as (H1 & H2 & _ & _ & H5).
  split; [exact (H1 Fulfil (VNum 1) _ _)|]. split.
  - apply H2. repeat constructor.
  - apply H5. reflexivity.
Defined.

Lemma handlers_run_in_registration_order_witness :
  exists before after,
    trace (ticks demo_fn (S (length (timers world_deferred)))
             (resolve 0 (VNum 7) (register 0 [(0, 4); (2, 4)] world_deferred)))
    = trace (ticks demo_fn (length (timers world_deferred))
               (resolve 0 (VNum 7) (register 0 [(0, 4); (2, 4)] world_deferred)))
      ++ before ++ map (fun h => EvCall h.1 (VNum 7)) [(0, 4); (2, 4)] ++ after.
Proof.
  assert (state_is 0 PENDING world_deferred = true) as H1 by reflexivity.
  assert (undisturbed 0 (timers world_deferred)) as H2 by apply Forall_nil_2.
  pose proof (handlers_run_in_registration_order demo_fn world_deferred 0
                [(0, 4); (2, 4)] H1 H2) as H.
  cbv zeta in H. destruct H as (_ & _ & H & _).
  destruct (H (VNum 7)) as (_ & _ & _ & H'). exact H'.
Defined.


(** C2 as stated fails: resolving a deferred promise with itself fulfils it
    with itself. *)
Lemma resolve_with_itself_fulfils :
  fulfilled_with 0 (VPromise 0) (ticks demo_fn 1 world_self) /\
  timers (ticks demo_fn 1 world_self) = [] /\
  ~ (exists n e, rejected_with 0 e (ticks demo_fn n world_self)).
Proof.
  split; [eexists; split; [reflexivity|split; reflexivity]|].
  split; [reflexivity|].
  intros [[|n] (e & pr & H & Hs & Hv)].
  - vm_compute in H. injection H as <-. discriminate.
  - cbn [ticks] in H. rewrite ticks_idle in H; [|reflexivity].
    vm_compute in H. injection H as <-. discriminate.
Qed.

Lemma reachable_deferred : reachable demo_fn world_deferred.
Proof. apply (reach_construct demo_fn (Executor [] None)), reach_empty. Qed.

Lemma handler_error_rejects_witness :
  exists N, forall n,
    rejected_with 1 (VError "Error" "x")
      (ticks demo_fn (N + n)
         (resolve 0 (VNum 1)
            (then_ 1 VNull (VFunction (FUser 2))
               (then_ 0 (VFunction (FUser 1)) (VFunction (FUser 4))
                  world_deferred).2).2)) /\
    fulfilled_with 2 (VStr "x")
      (ticks demo_fn (N + n)
         (resolve 0 (VNum 1)
            (then_ 1 VNull (VFunction (FUser 2))
               (then_ 0 (VFunction (FUser 1)) (VFunction (FUser 4))
                  world_deferred).2).2)).
Proof.
  pose proof (handler_error_rejects demo_fn Fulfil 0 (VNum 1)
                (VFunction (FUser 1)) (VFunction (FUser 4)) (VError "Error" "x")
                world_deferred reachable_deferred eq_refl eq_refl eq_refl) as H.
  cbv zeta in H. destruct H as (_ & H & _).
  assert (state_is 0 PENDING world_deferred = true) as H1 by reflexivity.
  assert (undisturbed 0 (timers world_deferred)) as H2 by apply Forall_nil_2.
  destruct (H H1 H2) as [_ H3].
  exact (H3 2 "Error" "x" eq_refl eq_refl).
Defined.

Lemma missing_handlers_pass_through_witness :
  exists N, forall n,
    fulfilled_with 1 (VNum 5)
      (ticks demo_fn (N + n)
         (then_ 2 (VFunction (FUser 0)) VUndefined
            (then_ 1 VUndefined VUndefined
               (construct (Executor [(Fulfil, VNum 5)] None) world_deferred).2).2).2) /\
    fulfilled_with 2 (VNum 5)
      (ticks demo_fn (N + n)
         (then_ 2 (VFunction (FUser 0)) VUndefined
            (then_ 1 VUndefined VUndefined
               (construct (Executor [(Fulfil, VNum 5)] None) world_deferred).2).2).2) /\
    fulfilled_with 3 (VNum 5)
      (ticks demo_fn (N + n)
         (then_ 2 (VFunction (FUser 0)) VUndefined
            (then_ 1 VUndefined VUndefined
               (construct (Executor [(Fulfil, VNum 5)] None) world_deferred).2).2).2).
Proof.
  pose proof (missing_handlers_pass_through demo_fn world_deferred
                reachable_deferred)
    as (_ & _ & _ & _ & H & _).
  exact (H (VNum 5) 0 eq_refl eq_refl).
Defined.


(** The same run, computed: [promise2] is still pending after four turns
    and is fulfilled with 7 after five. *)
Example relay_computed :
  heap (ticks demo_fn 4 (then_ 0 VUndefined VUndefined world_relay).2) !! 2
    = Some (Promise PENDING VUndefined VUndefined [] []) /\
  heap (ticks demo_fn 5 (then_ 0 VUndefined VUndefined world_relay).2) !! 2
    = Some (Promise RESOLVED (VNum 7) VUndefined [] []).
Proof. split; vm_compute; reflexivity. Qed.

Lemma self_resolution_rejected_in_then_witness :
  exists N, forall n,
    rejected_with 1 cycle_error
      (ticks demo_fn (N + n)
         (resolve 0 (VNum 1)
            (then_ 0 (VFunction (FUser 5)) (VFunction (FUser 4)) world_deferred).2)).
Proof.
  pose proof (self_resolution_rejected_in_then demo_fn Fulfil 0 (VNum 1)
                (VFunction (FUser 5)) (VFunction (FUser 4))
                world_deferred reachable_deferred eq_refl eq_refl) as H.
  cbv zeta in H. destruct (H eq_refl) as (_ & H' & _). clear H.
  rename H' into H.
  apply H; [reflexivity|apply Forall_nil_2].
Defined.

(** The same runs, computed. *)

Example error_chain_computed :
  let w := ticks demo_fn 3
             (resolve 0 (VNum 1)
                (then_ 1 VNull (VFunction (FUser 2))
                   (then_ 0 (VFunction (FUser 1)) (VFunction (FUser 4))
                      world_deferred).2).2) in
  (state <$> heap w) = [RESOLVED; REJECTED; RESOLVED] /\
  (reason <$> heap w) !! 1 = Some (VError "Error" "x") /\
  (value <$> heap w) !! 2 = Some (VStr "x") /\
  trace w = [EvCall 1 (VNum 1); EvCall 2 (VError "Error" "x")] /\
  timers w = [].
Proof. vm_compute. by repeat split. Qed.

Example adoption_computed :
  let w := ticks demo_fn 2
             (resolve 0 (VNum 1)
                (then_ 0 (VFunction (FUser 3)) (VFunction (FUser 4))
                   world_deferred).2) in
  (state <$> heap w) = [RESOLVED; RESOLVED] /\
  (value <$> heap w) = [VNum 1; VNum 42] /\ timers w = [].
Proof. vm_compute. by repeat split. Qed.

Example bad_thenable_computed :
  let w := ticks demo_fn 4
             (resolve 0 (VNum 1)
                (then_ 0 (VFunction (FUser 0)) VUndefined
                   (resolve 0 bad_thenable world_deferred)).2) in
  (state <$> heap w) = [RESOLVED; RESOLVED] /\
  (value <$> heap w) = [bad_thenable; VNum 1] /\
  cells w = [true; false] /\ timers w = [].
Proof. vm_compute. by repeat split. Qed.

(** ** Closed examples for the further properties *)

Lemma reachable_settled : reachable demo_fn world_settled.
Proof.
  change world_settled
    with (tick demo_fn (construct (Executor [(Fulfil, VNum 1)] None) empty_world).2).
  apply reach_tick, reach_construct, reach_empty.
Qed.

Lemma executor_first_call_wins_witness :
  settled_with Fulfil
    (construct (Executor [(Fulfil, VNum 1); (Reject, VStr "no")]
                  (Some (VStr "late"))) empty_world).1
    (VNum 1)
    (ticks demo_fn (S (length (timers empty_world)) + 0)
       (construct (Executor [(Fulfil, VNum 1); (Reject, VStr "no")]
                     (Some (VStr "late"))) empty_world).2).
Proof.
  pose proof (executor_first_call_wins demo_fn Fulfil (VNum 1)
                [(Reject, VStr "no")] (Some (VStr "late")) empty_world
                (reach_empty demo_fn)) as H.
  cbv zeta in H. destruct H as (_ & _ & _ & H). exact (H 0).
Defined.

Lemma unsettled_stays_pending_witness :
  state_is (d_promise (deferred empty_world).1) PENDING
    (ticks demo_fn 3
       (then_ (d_promise (deferred empty_world).1) (VFunction (FUser 0)) VUndefined
          (deferred empty_world).2).2) = true /\
  state_is
    (then_ (d_promise (deferred empty_world).1) (VFunction (FUser 0)) VUndefined
       (deferred empty_world).2).1 PENDING
    (ticks demo_fn 3
       (then_ (d_promise (deferred empty_world).1) (VFunction (FUser 0)) VUndefined
          (deferred empty_world).2).2) = true.
Proof.
  exact (unsettled_stays_pending demo_fn (VFunction (FUser 0)) VUndefined
           empty_world (reach_empty demo_fn) eq_refl eq_refl 3).
Defined.

Lemma sibling_reactions_independent_witness :
  (then_ 0 (VFunction (FUser 1)) VUndefined world_deferred).1
  <> (then_ 0 (VFunction (FUser 0)) VUndefined
        (then_ 0 (VFunction (FUser 1)) VUndefined world_deferred).2).1 /\
  exists N, forall n,
    settled_with Fulfil 0 (VNum 1)
      (ticks demo_fn (N + n)
         (capability Fulfil 0 (VNum 1)
            (then_ 0 (VFunction (FUser 0)) VUndefined
               (then_ 0 (VFunction (FUser 1)) VUndefined world_deferred).2).2)) /\
    settled_with Reject
      (then_ 0 (VFunction (FUser 1)) VUndefined world_deferred).1
      (VError "Error" "x")
      (ticks demo_fn (N + n)
         (capability Fulfil 0 (VNum 1)
            (then_ 0 (VFunction (FUser 0)) VUndefined
               (then_ 0 (VFunction (FUser 1)) VUndefined world_deferred).2).2)) /\
    settled_with Fulfil
      (then_ 0 (VFunction (FUser 0)) VUndefined
         (then_ 0 (VFunction (FUser 1)) VUndefined world_deferred).2).1
      (VNum 1)
      (ticks demo_fn (N + n)
         (capability Fulfil 0 (VNum 1)
            (then_ 0 (VFunction (FUser 0)) VUndefined
               (then_ 0 (VFunction (FUser 1)) VUndefined world_deferred).2).2)).
Proof.
  exact (sibling_reactions_independent demo_fn Fulfil 0 (VNum 1)
           (VFunction (FUser 1)) VUndefined (VFunction (FUser 0)) VUndefined
           (Throw (VError "Error" "x")) Reject (VError "Error" "x")
           (Return (VNum 1)) Fulfil (VNum 1) world_deferred
           reachable_deferred eq_refl eq_refl eq_refl eq_refl eq_refl
           (Forall_nil_2 _) eq_refl (conj eq_refl eq_refl) eq_refl
           (sync_plain _ (VNum 1) eq_refl)).
Defined.

Lemma settled_handlers_run_in_call_order_witness :
  trace (ticks demo_fn (length (timers world_settled) + 2)
           (register 0 [(0, 4); (2, 4)] world_settled))
  = trace (ticks demo_fn (length (timers world_settled))
             (register 0 [(0, 4); (2, 4)] world_settled))
    ++ map (fun h => EvCall (pick Fulfil h.1 h.2) (VNum 1)) (take 2 [(0, 4); (2, 4)]).
Proof.
  assert (settled_with Fulfil 0 (VNum 1) world_settled) as Hs.
  { eexists. split; [reflexivity|]. split; reflexivity. }
  pose proof (settled_handlers_run_in_call_order demo_fn Fulfil 0 (VNum 1)
                [(0, 4); (2, 4)] world_settled Hs) as H.
  cbv zeta in H. destruct H as [_ H]. apply (H 2). apply le_n.
Defined.

Lemma settled_then_takes_two_turns_witness :
  settled_with Reject (then_ 0 (VFunction (FUser 1)) VUndefined world_settled).1
    (VError "Error" "x")
    (ticks demo_fn (2 + 0) (then_ 0 (VFunction (FUser 1)) VUndefined world_settled).2) /\
  trace (ticks demo_fn (2 + 0)
           (then_ 0 (VFunction (FUser 1)) VUndefined world_settled).2)
  = trace world_settled
    ++ logged (invoked Fulfil (VFunction (FUser 1)) VUndefined) (VNum 1).
Proof.
  assert (settled_with Fulfil 0 (VNum 1) world_settled) as Hs.
  { eexists. split; [reflexivity|]. split; reflexivity. }
  pose proof (settled_then_takes_two_turns demo_fn Fulfil 0 (VNum 1)
                (VFunction (FUser 1)) VUndefined (Throw (VError "Error" "x"))
                Reject (VError "Error" "x") world_settled
                eq_refl Hs eq_refl (conj eq_refl eq_refl)) as H.
  cbv zeta in H. destruct H as (_ & _ & H).
  destruct (H 0) as (H1 & _ & H2 & _). exact (conj H1 H2).
Defined.

Lemma settled_promise_adopted_witness :
  settled_with Reject
    (then_ 0 (VFunction (FUser 5)) VUndefined
       (World [Promise RESOLVED (VNum 1) VUndefined [] [];
               Promise REJECTED VUndefined (VStr "no") [] []] [] [] [])).1
    (VStr "no")
    (ticks demo_fn (3 + 0)
       (then_ 0 (VFunction (FUser 5)) VUndefined
          (World [Promise RESOLVED (VNum 1) VUndefined [] [];
                  Promise REJECTED VUndefined (VStr "no") [] []] [] [] [])).2).
Proof.
  set (w := World [Promise RESOLVED (VNum 1) VUndefined [] [];
                   Promise REJECTED VUndefined (VStr "no") [] []] [] [] []).
  assert (settled_with Fulfil 0 (VNum 1) w) as Hs.
  { eexists. split; [reflexivity|]. split; reflexivity. }
  assert (settled_with Reject 1 (VStr "no") w) as Hr.
  { eexists. split; [reflexivity|]. split; reflexivity. }
  assert (Reject = Fulfil -> plain (VStr "no") = true) as Hpl by discriminate.
  pose proof (settled_promise_adopted demo_fn Fulfil 0 (VNum 1)
                (VFunction (FUser 5)) VUndefined 1 Reject (VStr "no") w
                eq_refl Hs eq_refl Hr Hpl) as H.
  cbv zeta in H. destruct (H 0) as (H1 & _). exact H1.
Defined.

Lemma pending_promise_adopted_witness :
  settled_with Fulfil
    (then_ 0 (VFunction (FUser 5)) VUndefined (deferred world_settled).2).1 (VNum 7)
    (ticks demo_fn (2 + 0)
       (capability Fulfil (d_promise (deferred world_settled).1) (VNum 7)
          (tick demo_fn
             (then_ 0 (VFunction (FUser 5)) VUndefined (deferred world_settled).2).2))).
Proof.
  assert (settled_with Fulfil 0 (VNum 1) world_settled) as Hs.
  { eexists. split; [reflexivity|]. split; reflexivity. }
  assert (Fulfil = Fulfil -> plain (VNum 7) = true) as Hpl by reflexivity.
  pose proof (pending_promise_adopted demo_fn Fulfil 0 (VNum 1)
                (VFunction (FUser 5)) VUndefined Fulfil (VNum 7) world_settled
                eq_refl Hs eq_refl Hpl) as H.
  cbv zeta in H. destruct H as [_ H]. destruct (H 0) as (_ & H2 & _). exact H2.
Defined.



Lemma queues_are_paired_witness :
  length (resolvedCallbacks
            (Promise PENDING VUndefined VUndefined
               [Reaction Fulfil 0 1 (FUser 0)] [Reaction Reject 0 1 FRethrow]))
  = length (rejectedCallbacks
              (Promise PENDING VUndefined VUndefined
                 [Reaction Fulfil 0 1 (FUser 0)] [Reaction Reject 0 1 FRethrow])).
Proof.
  assert (reachable demo_fn (then_ 0 (VFunction (FUser 0)) VUndefined world_deferred).2)
    as Hr.
  { apply reach_then; [apply reachable_deferred|apply le_n|reflexivity..]. }
  assert (heap (then_ 0 (VFunction (FUser 0)) VUndefined world_deferred).2 !! 0
          = Some (Promise PENDING VUndefined VUndefined
                    [Reaction Fulfil 0 1 (FUser 0)] [Reaction Reject 0 1 FRethrow]))
    as Hp by reflexivity.
  exact (proj1 (queues_are_paired demo_fn _ 0 _ Hr Hp)).
Defined.

Lemma constructed_then_takes_two_turns_witness :
  settled_with Fulfil
    (then_ (construct (Executor [(Fulfil, VNum 5)] None) empty_world).1
       (VFunction (FUser 0)) VUndefined
       (construct (Executor [(Fulfil, VNum 5)] None) empty_world).2).1
    (VNum 5)
    (ticks demo_fn (2 + 0)
       (then_ (construct (Executor [(Fulfil, VNum 5)] None) empty_world).1
          (VFunction (FUser 0)) VUndefined
          (construct (Executor [(Fulfil, VNum 5)] None) empty_world).2).2).
Proof.
  pose proof (constructed_then_takes_two_turns demo_fn Fulfil (VNum 5)
                (VFunction (FUser 0)) VUndefined (Return (VNum 5)) Fulfil (VNum 5)
                empty_world eq_refl eq_refl (conj eq_refl (conj eq_refl eq_refl)))
    as H.
  cbv zeta in H. destruct H as (_ & _ & _ & _ & _ & H).
  destruct (H 0) as (_ & H2 & _). exact H2.
Defined.

Lemma self_fulfilled_promise_spins_witness :
  state_is
    (then_ 0 VUndefined VUndefined
       (World [Promise RESOLVED (VPromise 0) VUndefined [] []] [] [] [])).1
    PENDING
    (ticks demo_fn 5
       (then_ 0 VUndefined VUndefined
          (World [Promise RESOLVED (VPromise 0) VUndefined [] []] [] [] [])).2)
  = true /\
  timers
    (ticks demo_fn 5
       (then_ 0 VUndefined VUndefined
          (World [Promise RESOLVED (VPromise 0) VUndefined [] []] [] [] [])).2)
  <> [].
Proof.
  set (w := World [Promise RESOLVED (VPromise 0) VUndefined [] []] [] [] []).
  assert (fulfilled_with 0 (VPromise 0) w) as Hs.
  { eexists. split; [reflexivity|]. split; reflexivity. }
  exact (self_fulfilled_promise_spins demo_fn Fulfil 0 (VPromise 0)
           VUndefined VUndefined 0 w eq_refl Hs Hs eq_refl 5).
Defined.

Lemma settlement_passes_through_chain_witness :
  exists N, forall k i, i <= 3 ->
    settled_with Reject
      ((construct (Executor [(Reject, VStr "no")] None) empty_world).1 + i)
      (VStr "no")
      (ticks demo_fn (N + k)
         (pass_through (construct (Executor [(Reject, VStr "no")] None) empty_world).1
            3 (construct (Executor [(Reject, VStr "no")] None) empty_world).2)).
Proof.
  assert (Reject = Fulfil -> plain (VStr "no") = true) as Hpl by discriminate.
  pose proof (settlement_passes_through_chain demo_fn Reject (VStr "no") 3
                empty_world (reach_empty demo_fn) Hpl) as H.
  cbv zeta in H. exact (proj2 H).
Defined.

Lemma promise_fields_match_state_witness :
  value (Promise PENDING VUndefined VUndefined
           [Reaction Fulfil 0 1 (FUser 0)] [Reaction Reject 0 1 FRethrow])
  = VUndefined /\
  reason (Promise PENDING VUndefined VUndefined
            [Reaction Fulfil 0 1 (FUser 0)] [Reaction Reject 0 1 FRethrow])
  = VUndefined.
Proof.
  assert (reachable demo_fn (then_ 0 (VFunction (FUser 0)) VUndefined world_deferred).2)
    as Hr.
  { apply reach_then; [apply reachable_deferred|apply le_n|reflexivity..]. }
  assert (heap (then_ 0 (VFunction (FUser 0)) VUndefined world_deferred).2 !! 0
          = Some (Promise PENDING VUndefined VUndefined
                    [Reaction Fulfil 0 1 (FUser 0)] [Reaction Reject 0 1 FRethrow]))
    as Hp by reflexivity.
  exact (promise_fields_match_state demo_fn _ 0 _ Hr Hp).
Defined.

(** The same runs, computed. *)

Example adopted_promise_computed :
  let w := ticks demo_fn 3
             (capability Fulfil 1 (VNum 7)
                (tick demo_fn
                   (then_ 0 (VFunction (FUser 5)) VUndefined
                      (deferred world_settled).2).2)) in
  (state <$> heap w) = [RESOLVED; RESOLVED; RESOLVED; RESOLVED] /\
  (value <$> heap w) = [VNum 1; VNum 7; VNum 7; VUndefined] /\
  trace w = [EvCall 5 (VNum 1)] /\ timers w = [].
Proof. vm_compute. by repeat split. Qed.

Example spinning_computed :
  let w := ticks demo_fn 6
             (then_ 0 VUndefined VUndefined
                (World [Promise RESOLVED (VPromise 0) VUndefined [] []] [] [] [])).2 in
  (state <$> heap w) = [RESOLVED; PENDING; RESOLVED; RESOLVED; PENDING; PENDING] /\
  length (timers w) = 2.
Proof. vm_compute. by repeat split. Qed.
